(** * Reconciliation core of the product-search dashboard (src/App.jsx)

    A shallow embedding of the pure computations of [App.jsx]: identifier
    extraction, the field resolver, the catalog index, the match engine and
    the derived insights, followed by the properties the specification
    states about them.

    Modelling conventions.
    - A JavaScript string is a [string] (a sequence of 8-bit characters).
      [toUpperCase], [toLowerCase] and [trim] act on the ASCII letters and the
      ASCII white space; every other character is carried unchanged.
    - A record (a plain object whose values are strings, as produced by
      [sanitizeRecords]) is the list of its entries in the order
      [Object.entries] enumerates them.
    - A [Map] whose iteration order is observed is an association list in
      insertion order; a [Map] or object that is only read by key is a [gmap].
    - Array lengths, indexes and counters are [nat]; a number that is the
      result of a subtraction is a [Z]; the one quotient of the program,
      [Math.round((a / b) * 100)], is computed in IEEE 754 binary64. *)

From Stdlib Require Import ZArith Lia Ascii String SpecFloat Sorted.
From stdpp Require Import gmap strings list fin_maps pretty sorting.

Local Open Scope string_scope.

(** ** Strings *)

Module JsString.

Definition is_lower (c : ascii) : bool :=
  let n := N_of_ascii c in ((97 <=? n) && (n <=? 122))%N.

Definition is_upper (c : ascii) : bool :=
  let n := N_of_ascii c in ((65 <=? n) && (n <=? 90))%N.

Definition upper_char (c : ascii) : ascii :=
  if is_lower c then ascii_of_N (N_of_ascii c - 32) else c.

Definition lower_char (c : ascii) : ascii :=
  if is_upper c then ascii_of_N (N_of_ascii c + 32) else c.

Fixpoint map_chars (f : ascii -> ascii) (s : string) : string :=
  match s with
  | EmptyString => EmptyString
  | String c s' => String (f c) (map_chars f s')
  end.

(** [String.prototype.toUpperCase] and [String.prototype.toLowerCase]. *)
Definition toUpperCase : string -> string := map_chars upper_char.
Definition toLowerCase : string -> string := map_chars lower_char.

(** White space removed by [String.prototype.trim]: TAB, LF, VT, FF, CR, SP. *)
Definition is_white (c : ascii) : bool :=
  let n := N_of_ascii c in (((9 <=? n) && (n <=? 13)) || (n =? 32))%N.

Fixpoint trimStart (s : string) : string :=
  match s with
  | EmptyString => EmptyString
  | String c s' => if is_white c then trimStart s' else s
  end.

Fixpoint trimEnd (s : string) : string :=
  match s with
  | EmptyString => EmptyString
  | String c s' =>
      match trimEnd s' with
      | EmptyString => if is_white c then EmptyString else String c EmptyString
      | t => String c t
      end
  end.

Definition trim (s : string) : string := trimEnd (trimStart s).

(** Truthiness of a string value: every string but the empty one. *)
Definition truthy (s : string) : bool := bool_decide (s ≠ "").

End JsString.

Import JsString.

(** ** Records and the identifier extractor *)

(** The entries of a record, in [Object.entries] order. *)
Abbreviation RecordObj := (list (string * string)).

Definition IDENTIFIER_KEYS : list string :=
  ["part number"; "part"; "sku"; "pn"; "component"; "item"; "id"; "mpn";
   "manufacturer part number"].

Definition MANUFACTURER_FIELDS : list string :=
  ["manufacturer"; "brand"; "maker"; "vendor"].

Definition FAMILY_FIELDS : list string :=
  ["family"; "series"; "product family"; "product"].

(** [Object.fromEntries]: a later entry overwrites an earlier one that has the
    same key. *)
Definition putEntry (m : gmap string string) (e : string * string)
  : gmap string string := <[e.1 := e.2]> m.

Definition fromEntries (es : list (string * string)) : gmap string string :=
  fold_left putEntry es ∅.

(** The [lowerMap] of [extractIdentifier]. *)
Definition lowerMap (record : RecordObj) : gmap string string :=
  fromEntries (map (fun e => (toLowerCase e.1, e.2)) record).

(** The loop over [IDENTIFIER_KEYS]: the first candidate whose entry in
    [lowerMap] is truthy decides; [None] when the loop falls through. *)
Fixpoint scanCandidates (lm : gmap string string) (cands : list string)
  : option string :=
  match cands with
  | [] => None
  | candidate :: rest =>
      match lm !! candidate with
      | Some v => if truthy v then Some (toUpperCase v) else scanCandidates lm rest
      | None => scanCandidates lm rest
      end
  end.

(** [extractIdentifier(record)]. The guard [if (!record) return ''] concerns
    [null] and [undefined], which are not records. *)
Definition extractIdentifier (record : RecordObj) : string :=
  match scanCandidates (lowerMap record) IDENTIFIER_KEYS with
  | Some identifier => identifier
  | None =>
      match map snd record with
      | firstValue :: _ => if truthy firstValue then toUpperCase firstValue else ""
      | [] => ""
      end
  end.

(** [getFieldValue(record, fieldNames)]. *)
Fixpoint scanEntries (entries : RecordObj) (lowerField : string) : option string :=
  match entries with
  | [] => None
  | (key, value) :: rest =>
      if bool_decide (toLowerCase key = lowerField) && truthy (trim value)
      then Some (trim value)
      else scanEntries rest lowerField
  end.

Fixpoint getFieldValue (record : RecordObj) (fieldNames : list string) : string :=
  match fieldNames with
  | [] => ""
  | field :: rest =>
      match scanEntries record (toLowerCase field) with
      | Some trimmed => trimmed
      | None => getFieldValue record rest
      end
  end.

(** The value a record holds under a field name compared without regard to
    case: the value of the last field whose lower-cased name is [c]. *)
Fixpoint field_ci (record : RecordObj) (c : string) : option string :=
  match record with
  | [] => None
  | (key, value) :: rest =>
      match field_ci rest c with
      | Some w => Some w
      | None => if bool_decide (toLowerCase key = c) then Some value else None
      end
  end.

(** ** The catalog index and the match engine *)

Record CatalogFile := {
  file_id : string;
  file_name : string;
  records : list RecordObj;
  uploadedAt : Z
}.

(** [catalogFiles.find((file) => file.id === activeCatalogId) || null]; the
    selection [activeCatalogId] is [null] or an identifier. *)
Definition activeCatalog (catalogFiles : list CatalogFile)
    (activeCatalogId : option string) : option CatalogFile :=
  match activeCatalogId with
  | None => None
  | Some sel => List.find (fun file => bool_decide (file_id file = sel)) catalogFiles
  end.

Record FoundItem := { requested : RecordObj; catalog : RecordObj }.
Record MissingItem := { record : RecordObj; reason : string }.
Record MatchResult := { found : list FoundItem; missing : list MissingItem }.

(** One step of the loop that fills [catalogIndex]. *)
Definition indexStep (catalogIndex : gmap string RecordObj) (record : RecordObj)
  : gmap string RecordObj :=
  let identifier := extractIdentifier record in
  if truthy identifier then <[identifier := record]> catalogIndex else catalogIndex.

Definition buildIndex (catalogRecords : list RecordObj) : gmap string RecordObj :=
  fold_left indexStep catalogRecords ∅.

(** One step of [clientRecords.forEach]: [push] appends at the end. *)
Definition classifyStep (catalogIndex : gmap string RecordObj) (acc : MatchResult)
    (record : RecordObj) : MatchResult :=
  let identifier := extractIdentifier record in
  if negb (truthy identifier) then
    {| found := found acc;
       missing := missing acc ++ [{| record := record; reason := "No identifier detected" |}] |}
  else
    match catalogIndex !! identifier with
    | Some entry =>
        {| found := found acc ++ [{| requested := record; catalog := entry |}];
           missing := missing acc |}
    | None =>
        {| found := found acc;
           missing := missing acc ++ [{| record := record; reason := "Not present in catalog" |}] |}
    end.

Definition emptyResult : MatchResult := {| found := []; missing := [] |}.

Definition matchResult (active : option CatalogFile) (clientRecords : list RecordObj)
  : MatchResult :=
  match active with
  | None => emptyResult
  | Some file =>
      if (length clientRecords =? 0)%nat then emptyResult
      else fold_left (classifyStep (buildIndex (records file))) clientRecords emptyResult
  end.

(** What one client record contributes to each list of the result. *)
Definition foundPart (idx : gmap string RecordObj) (r : RecordObj) : list FoundItem :=
  found (classifyStep idx emptyResult r).

Definition missingPart (idx : gmap string RecordObj) (r : RecordObj) : list MissingItem :=
  missing (classifyStep idx emptyResult r).

(** The record has an identifier and the index holds an entry for it. *)
Definition isFound (idx : gmap string RecordObj) (r : RecordObj) : bool :=
  truthy (extractIdentifier r) && bool_decide (is_Some (idx !! extractIdentifier r)).

(** ** Numbers: the percentage computation *)

Module JsNumber.

(** binary64 *)
Definition prec : Z := 53.
Definition emax : Z := 1024.

(** The number whose value is the integer [n]. *)
Definition of_nat (n : nat) : spec_float :=
  binary_normalize prec emax (Z.of_nat n) 0 false.

Definition div : spec_float -> spec_float -> spec_float := SFdiv prec emax.
Definition mul : spec_float -> spec_float -> spec_float := SFmul prec emax.

(** A mantissa in normal form: 53 binary digits. *)
Definition normal (m : positive) : Prop := (2 ^ 52 <= Zpos m < 2 ^ 53)%Z.

(** [Math.round]: the integer closest to the argument, the larger one on a
    tie; [None] stands for the results that are not integers (NaN and the
    infinities). *)
Definition Math_round (x : spec_float) : option Z :=
  match x with
  | S754_zero _ => Some 0%Z
  | S754_finite s m e =>
      let sm := cond_Zopp s (Zpos m) in
      Some (if (0 <=? e)%Z then sm * 2 ^ e
            else (2 * sm + 2 ^ (- e)) `div` 2 ^ (1 - e))%Z
  | _ => None
  end.

(** [Math.round((a / b) * 100)] *)
Definition percentOf (a b : nat) : option Z :=
  Math_round (mul (div (of_nat a) (of_nat b)) (of_nat 100)).

End JsNumber.

Import JsNumber.

Module Stats.
Record t := { total : nat; found : nat; missing : nat; coverage : option Z }.
End Stats.

Definition matchStats (clientRecords : list RecordObj) (result : MatchResult) : Stats.t :=
  let total := length clientRecords in
  let found := length (found result) in
  let missing := length (missing result) in
  {| Stats.total := total; Stats.found := found; Stats.missing := missing;
     Stats.coverage := if (total =? 0)%nat then Some 0%Z else percentOf found total |}.

(** The specification's [round(a / b × 100)] read as arithmetic: the integer
    nearest to the exact percentage [100 * a / b], the larger one when the
    percentage lies halfway between two integers (what [Math.round] gives on
    the exact quotient). *)
Definition exactRound (a b : nat) : Z :=
  ((200 * Z.of_nat a + Z.of_nat b) / (2 * Z.of_nat b))%Z.

(** The exact percentage [100 * a / b] lies halfway between two integers. *)
Definition halfway (a b : nat) : Prop :=
  ((200 * Z.of_nat a + Z.of_nat b) mod (2 * Z.of_nat b) = 0)%Z.

(** What the program's percentages satisfy: [result] is an integer between 0
    and 100, the exact percentage rounded to the nearest integer, or the
    integer below it where the exact percentage lies halfway. *)
Definition isPercentage (a b : nat) (result : option Z) : Prop :=
  exists p, result = Some p
    /\ (0 <= p <= 100)%Z
    /\ (p = exactRound a b \/ (halfway a b /\ p = (exactRound a b - 1)%Z)).

(** ** Insertion-ordered maps and sorting *)

Module JsMap.
Section Ops.
Context {V : Type}.

(** [Map.prototype.set]: an existing key keeps its position. *)
Fixpoint set (m : list (string * V)) (k : string) (v : V) : list (string * V) :=
  match m with
  | [] => [(k, v)]
  | (k', v') :: m' =>
      if bool_decide (k' = k) then (k, v) :: m' else (k', v') :: set m' k v
  end.

Fixpoint get (m : list (string * V)) (k : string) : option V :=
  match m with
  | [] => None
  | (k', v') :: m' => if bool_decide (k' = k) then Some v' else get m' k
  end.

Definition values (m : list (string * V)) : list V := map snd m.
Definition entries (m : list (string * V)) : list (string * V) := m.
End Ops.
End JsMap.

(** [Array.prototype.sort(cmp)]: a stable sort; for a comparator that is a
    difference of keys its result is the one of this insertion sort. *)
Fixpoint insertBy {A : Type} (cmp : A -> A -> Z) (x : A) (l : list A) : list A :=
  match l with
  | [] => [x]
  | y :: l' => if (cmp x y <=? 0)%Z then x :: l else y :: insertBy cmp x l'
  end.

Definition sortBy {A : Type} (cmp : A -> A -> Z) (l : list A) : list A :=
  foldr (insertBy cmp) [] l.

(** Largest measure first. *)
Definition descending {A : Type} (measure : A -> nat) (a b : A) : Prop :=
  measure b <= measure a.

(** ** Request insights *)

Record DuplicateEntry := { identifier : string; occurrences : nat }.

Record RequestInsights := {
  uniqueCount : nat;
  duplicateCount : Z;
  unidentifiedCount : nat;
  duplicates : list DuplicateEntry
}.

Record InsightState := {
  identifierCounts : gmap string nat;
  duplicateMap : list (string * DuplicateEntry);
  unidentified : nat
}.

(** The template literal [`row-${index}`]. *)
Definition rowKey (index : nat) : string := "row-" +:+ pretty index.

(** [identifier || `row-${index}`] *)
Definition keyOf (index : nat) (record : RecordObj) : string :=
  let identifier := extractIdentifier record in
  if truthy identifier then identifier else rowKey index.

Definition insightStep (index : nat) (record : RecordObj) (st : InsightState)
  : InsightState :=
  let identifier := extractIdentifier record in
  let key := keyOf index record in
  let current := default 0 (identifierCounts st !! key) in
  {| identifierCounts := <[key := current + 1]> (identifierCounts st);
     duplicateMap :=
       if (1 <=? current)%nat then
         JsMap.set (duplicateMap st) key
           {| identifier := if truthy identifier then identifier
                            else "Unidentified row " +:+ pretty (index + 1);
              occurrences := current + 1 |}
       else duplicateMap st;
     unidentified :=
       if negb (truthy identifier) then unidentified st + 1 else unidentified st |}.

(** [clientRecords.forEach((record, index) => ...)] from position [index]. *)
Fixpoint insightLoop (index : nat) (rs : list RecordObj) (st : InsightState)
  : InsightState :=
  match rs with
  | [] => st
  | record :: rest => insightLoop (S index) rest (insightStep index record st)
  end.

Definition initialState : InsightState :=
  {| identifierCounts := ∅; duplicateMap := []; unidentified := 0 |}.

Definition byOccurrences (a b : DuplicateEntry) : Z :=
  Z.of_nat (occurrences b) - Z.of_nat (occurrences a).

Definition requestInsights (clientRecords : list RecordObj) : RequestInsights :=
  if (length clientRecords =? 0)%nat then
    {| uniqueCount := 0; duplicateCount := 0; unidentifiedCount := 0; duplicates := [] |}
  else
    let st := insightLoop 0 clientRecords initialState in
    {| uniqueCount := size (identifierCounts st);
       duplicateCount := Z.of_nat (length clientRecords) - Z.of_nat (size (identifierCounts st));
       unidentifiedCount := unidentified st;
       duplicates := sortBy byOccurrences (JsMap.values (duplicateMap st)) |}.

(** The keys of the client records, in order, from position [index]. *)
Fixpoint keysFrom (index : nat) (rs : list RecordObj) : list string :=
  match rs with
  | [] => []
  | record :: rest => keyOf index record :: keysFrom (S index) rest
  end.

(** Number of occurrences of a key in a list of keys. *)
Definition occ (k : string) (ks : list string) : nat :=
  length (List.filter (fun k' => bool_decide (k' = k)) ks).

(** The state reached after the rows [rs], in terms of their keys. *)
Record invariant (rs : list RecordObj) (st : InsightState) : Prop := {
  inv_counts : forall k,
    identifierCounts st !! k
    = if (occ k (keysFrom 0 rs) =? 0)%nat then None else Some (occ k (keysFrom 0 rs));
  inv_unidentified :
    unidentified st
    = length (List.filter (fun r => bool_decide (extractIdentifier r = "")) rs);
  inv_nodup : NoDup (map fst (duplicateMap st));
  inv_duplicates : forall k e,
    (k, e) ∈ duplicateMap st
    <-> 2 <= occ k (keysFrom 0 rs)
        /\ e = {| identifier := k; occurrences := occ k (keysFrom 0 rs) |}
}.

(** ** Top manufacturers and families *)

Record TopEntry := { name : string; count : nat; percentage : option Z }.

(** [getFieldValue(catalog, fields) || label] *)
Definition labelOf (fields : list string) (label : string) (item : FoundItem) : string :=
  let value := getFieldValue (catalog item) fields in
  if truthy value then value else label.

Definition tallyStep (fields : list string) (label : string)
    (counts : list (string * nat)) (item : FoundItem) : list (string * nat) :=
  let key := labelOf fields label item in
  JsMap.set counts key (default 0 (JsMap.get counts key) + 1).

(** The map [counts] after the loop over the found pairs. *)
Definition tally (fields : list string) (label : string) (items : list FoundItem)
  : list (string * nat) :=
  fold_left (tallyStep fields label) items [].

(** The resolved values of the found pairs, in order. *)
Definition labelsOf (fields : list string) (label : string) (items : list FoundItem)
  : list string :=
  map (labelOf fields label) items.

Definition byCount (a b : string * nat) : Z := Z.of_nat b.2 - Z.of_nat a.2.

(** The body shared by [topManufacturers] and [topFamilies], which differ in
    the candidate field names and in the label only. *)
Definition topDistribution (fields : list string) (label : string)
    (foundItems : list FoundItem) : list TopEntry :=
  if (length foundItems =? 0)%nat then []
  else
    let counts := tally fields label foundItems in
    map (fun e => {| name := e.1; count := e.2;
                     percentage := percentOf e.2 (length foundItems) |})
        (take 3 (sortBy byCount (JsMap.entries counts))).

Definition topManufacturers (foundItems : list FoundItem) : list TopEntry :=
  topDistribution MANUFACTURER_FIELDS "Unspecified manufacturer" foundItems.

Definition topFamilies (foundItems : list FoundItem) : list TopEntry :=
  topDistribution FAMILY_FIELDS "General catalog" foundItems.

(** What the specification asks of a top-3 distribution [top] computed from
    the found pairs [items]: the resolved value of each pair falls back to the
    label; the entries are those of at most three distinct values, each with
    its number of occurrences among the found pairs and its percentage (for
    fewer than 2^32 found pairs, as the length of an array is: the exact
    percentage rounded to the nearest integer, or the integer below where it
    lies halfway); they are sorted by count, largest first, and no value
    left out occurs more often than one that is listed. *)
Definition isTopDistribution (fields : list string) (label : string)
    (items : list FoundItem) (top : list TopEntry) : Prop :=
  let names := labelsOf fields label items in
  (forall item,
      labelOf fields label item
      = if bool_decide (getFieldValue (catalog item) fields = "") then label
        else getFieldValue (catalog item) fields)
  /\ length top = min 3 (length (remove_dups names))
  /\ NoDup (map name top)
  /\ (forall e, e ∈ top ->
        name e ∈ names
        /\ count e = occ (name e) names
        /\ ((Z.of_nat (length items) < 2 ^ 32)%Z ->
            isPercentage (count e) (length items) (percentage e)))
  /\ StronglySorted (descending count) top
  /\ (forall n e, n ∈ names -> n ∉ map name top -> e ∈ top -> occ n names <= count e).

(** ** Sample data: the scenarios of the specification *)

Module Scenario.

Definition acme : RecordObj := [("Part Number", "ABC-1"); ("Manufacturer", "Acme")].

Definition catalog1 : CatalogFile :=
  {| file_id := "c1"; file_name := "catalog.csv"; records := [acme]; uploadedAt := 0 |}.

Definition emptyCatalog : CatalogFile :=
  {| file_id := "c2"; file_name := "empty.csv"; records := []; uploadedAt := 0 |}.

Definition client1 : list RecordObj := [[("PN", "abc-1")]].
Definition client2 : list RecordObj := [[("SKU", "X9")]].
Definition client3 : list RecordObj := [[("Notes", "loose part, no id")]].
Definition client4 : list RecordObj := [[("PN", "A1")]; [("PN", "a1")]].

Definition first5 : RecordObj := [("PN", "A1"); ("Manufacturer", "First")].
Definition second5 : RecordObj := [("PN", "A1"); ("Manufacturer", "Second")].

(** Found pairs over four catalog records of three manufacturers. *)
Definition foundSample : list FoundItem :=
  [ {| requested := [("PN", "a")]; catalog := [("PN", "A"); ("Brand", "Acme")] |};
    {| requested := [("PN", "b")]; catalog := [("PN", "B"); ("Maker", "Bolt")] |};
    {| requested := [("PN", "c")]; catalog := [("PN", "C"); ("brand", "Acme")] |};
    {| requested := [("PN", "d")]; catalog := [("PN", "D")] |} ].

(** A request list with a row that has no identifier. *)
Definition mixed : list RecordObj :=
  [[("PN", "abc-1")]; [("Notes", "")]; [("SKU", "X9")]; [("pn", "ABC-1")]].

End Scenario.

(** * The remaining functions of App.jsx *)

(** ** ASCII strings *)

(** The strings all of whose characters are ASCII. On them [toUpperCase],
    [toLowerCase] and [trim] are those of JavaScript; beyond them JavaScript
    maps further letters (and may change the length of a string: sharp s,
    long s), so a law that combines the two case mappings is stated for
    these strings only. *)
Fixpoint isAscii (s : string) : bool :=
  match s with
  | EmptyString => true
  | String c rest => (N_of_ascii c <? 128)%N && isAscii rest
  end.

(** ** Objects built by assignment *)

Module JsObject.

(** The value of a string of decimal digits. *)
Fixpoint parseDigits (acc : N) (s : string) : option N :=
  match s with
  | EmptyString => Some acc
  | String c s' =>
      let n := N_of_ascii c in
      if ((48 <=? n) && (n <=? 57))%N then parseDigits (10 * acc + (n - 48)) s'
      else None
  end.

(** A property name is an array index when it is the canonical decimal form
    of an integer below 2^32 - 1. *)
Definition arrayIndex (k : string) : option N :=
  match parseDigits 0 k with
  | Some n => if bool_decide (pretty n = k) && (n <? 4294967295)%N then Some n else None
  | None => None
  end.

(** Where a new array-index property goes: after the array indices below
    it, before everything else. *)
Fixpoint insertIndex (n : N) (k v : string) (o : list (string * string))
  : list (string * string) :=
  match o with
  | [] => [(k, v)]
  | (k', v') :: o' =>
      match arrayIndex k' with
      | Some n' => if (n' <? n)%N then (k', v') :: insertIndex n k v o' else (k, v) :: o
      | None => (k, v) :: o
      end
  end.

(** [o[k] = v] on an object created by [{}], given by its entries in the
    order [Object.entries] enumerates them: an existing property keeps its
    place; a new one is enumerated among the array indices, in ascending
    order, or after every other property. The name [__proto__] is the
    accessor inherited from [Object.prototype], whose setter ignores a
    string: no property is created. *)
Definition assign (o : list (string * string)) (k v : string) : list (string * string) :=
  if bool_decide (k = "__proto__") then o
  else if bool_decide (k ∈ map fst o) then JsMap.set o k v
  else match arrayIndex k with
       | Some n => insertIndex n k v o
       | None => o ++ [(k, v)]
       end.

(** The order in which an object enumerates its properties: whatever comes
    before an array index is a smaller array index; no name twice. *)
Definition precedes (k k' : string) : Prop :=
  match arrayIndex k' with
  | Some n' => match arrayIndex k with Some n => (n < n')%N | None => False end
  | None => True
  end.

Definition ordered (o : list (string * string)) : Prop :=
  NoDup (map fst o) /\ StronglySorted precedes (map fst o).

End JsObject.

(** ** [sanitizeRecords] *)

(** The string is empty or starts with a character that is not white
    space. *)
Definition headNotWhite (s : string) : Prop :=
  match s with
  | EmptyString => True
  | String c _ => is_white c = false
  end.

(** A cell as the parsers deliver it: [null], [undefined], or any other value,
    given by its conversion [String(value)]. *)
Inductive RawValue :=
| RawNull
| RawUndefined
| RawOther (text : string).

Abbreviation RawRecord := (list (string * RawValue)).

(** The body of [Object.entries(record).forEach]. *)
Definition sanitizeStep (sanitized : RecordObj) (e : string * RawValue) : RecordObj :=
  match e.2 with
  | RawNull | RawUndefined => sanitized
  | RawOther text =>
      let trimmed := trim text in
      if negb (truthy trimmed) then sanitized
      else JsObject.assign sanitized (trim e.1) trimmed
  end.

Definition sanitizeRecord (record : RawRecord) : RecordObj :=
  fold_left sanitizeStep record [].

Definition sanitizeRecords (rawRecords : list RawRecord) : list RecordObj :=
  List.filter (fun record => (0 <? length record)%nat) (map sanitizeRecord rawRecords).

(** A record handed back to [sanitizeRecords]. *)
Definition toRaw (record : RecordObj) : RawRecord :=
  map (fun e => (e.1, RawOther e.2)) record.

(** A field of a sanitized record: the name and the value are trimmed and
    the value is not empty. *)
Definition cleanField (e : string * string) : Prop :=
  trim e.1 = e.1 /\ e.1 ≠ "__proto__" /\ trim e.2 = e.2 /\ e.2 ≠ "".

(** The invariant of a sanitized record. *)
Definition wellFormed (record : RecordObj) : Prop :=
  record ≠ [] /\ JsObject.ordered record /\ Forall cleanField record.

(** ** [filteredMatches] *)

(** [s.startsWith(q)], by which [String.prototype.includes] is modelled. *)
Fixpoint startsWith (s q : string) : bool :=
  match q, s with
  | EmptyString, _ => true
  | String b q', String a s' => bool_decide (a = b) && startsWith s' q'
  | String _ _, EmptyString => false
  end.

(** [s.includes(q)] *)
Fixpoint includes (s q : string) : bool :=
  startsWith s q
  || match s with
     | EmptyString => false
     | String _ s' => includes s' q
     end.

(** [matchSearch.trim().toLowerCase()] *)
Definition queryOf (matchSearch : string) : string := toLowerCase (trim matchSearch).

(** The predicate of the filter. *)
Definition itemMatches (query : string) (item : FoundItem) : bool :=
  let identifier := toLowerCase (extractIdentifier (requested item)) in
  let catalogValues := map toLowerCase (map snd (catalog item)) in
  if includes identifier query then true
  else existsb (fun value => includes value query) catalogValues.

Definition filteredMatches (foundItems : list FoundItem) (matchSearch : string)
  : list FoundItem :=
  let query := queryOf matchSearch in
  if negb (truthy query) then foundItems
  else List.filter (itemMatches query) foundItems.

(** [q] occurs in [s]. *)
Definition occursIn (q s : string) : Prop := exists a b, s = a ++ q ++ b.

(** ** [JSON.stringify] of a record and [downloadReport] *)

Module Json.

Definition dquote : ascii := ascii_of_N 34.
Definition backslash : ascii := ascii_of_N 92.

(** A lower-case hexadecimal digit. *)
Definition hexDigit (n : N) : ascii :=
  if (n <? 10)%N then ascii_of_N (48 + n) else ascii_of_N (87 + n).

Definition escaped (c : ascii) : string := String backslash (String c EmptyString).

(** The escape of one character in a JSON string: the short escapes, the
    quote and the backslash, [\u00XX] for the other control characters, the
    character itself otherwise. *)
Definition quoteChar (c : ascii) : string :=
  let n := N_of_ascii c in
  if (n =? 8)%N then escaped "b"
  else if (n =? 9)%N then escaped "t"
  else if (n =? 10)%N then escaped "n"
  else if (n =? 12)%N then escaped "f"
  else if (n =? 13)%N then escaped "r"
  else if (n =? 34)%N then escaped dquote
  else if (n =? 92)%N then escaped backslash
  else if (n <? 32)%N then
    String backslash ("u00" ++ String (hexDigit (n / 16)) (String (hexDigit (n mod 16)) ""))
  else String c "".

Fixpoint quoteBody (s : string) : string :=
  match s with
  | EmptyString => EmptyString
  | String c s' => quoteChar c ++ quoteBody s'
  end.

Definition quote (s : string) : string :=
  String dquote (quoteBody s ++ String dquote "").

Definition member (e : string * string) : string := quote e.1 ++ ":" ++ quote e.2.

(** [JSON.stringify(record)] for an object whose values are strings. *)
Definition stringify (record : RecordObj) : string :=
  "{" ++ String.concat "," (map member record) ++ "}".

End Json.

(** The line feed that joins the rows of the report. *)
Definition lineFeed : ascii := ascii_of_N 10.

(** One row of [downloadReport]. *)
Definition reportRow (foundItems : list FoundItem) (record : RecordObj) : list string :=
  let identifier := extractIdentifier record in
  let foundEntry :=
    List.find (fun item => bool_decide (extractIdentifier (requested item) = identifier))
      foundItems in
  let status := match foundEntry with Some _ => "Available" | None => "Missing" end in
  let matched := match foundEntry with
                 | Some entry => Json.stringify (catalog entry)
                 | None => ""
                 end in
  [identifier; status; matched].

Definition reportHeader : list string := ["Requested Part"; "Status"; "Catalog Match"].

(** The template [`"${cell ?? ''}"`]. *)
Definition csvCell (cell : string) : string :=
  String Json.dquote (cell ++ String Json.dquote "").

Definition csvLine (row : list string) : string := String.concat "," (map csvCell row).

(** [csvContent] of [downloadReport]. *)
Definition csvContent (clientRecords : list RecordObj) (result : MatchResult) : string :=
  String.concat (String lineFeed "")
    (map csvLine (reportHeader :: map (reportRow (found result)) clientRecords)).

(** Number of occurrences of a character in a string. *)
Fixpoint countChar (c : ascii) (s : string) : nat :=
  match s with
  | EmptyString => 0
  | String d s' => (if bool_decide (d = c) then 1 else 0) + countChar c s'
  end.

(** No character of the string is a control character. *)
Fixpoint printable (s : string) : bool :=
  match s with
  | EmptyString => true
  | String c s' => (32 <=? N_of_ascii c)%N && printable s'
  end.

(** ** The catalog list and the selection *)

Module App.

(** The state [catalogFiles], [activeCatalogId] of the component. *)
Record State := {
  catalogFiles : list CatalogFile;
  activeCatalogId : option string
}.

Definition initial : State := {| catalogFiles := []; activeCatalogId := None |}.

(** [!activeCatalogId] *)
Definition noSelection (selection : option string) : bool :=
  match selection with
  | None => true
  | Some fileId => negb (truthy fileId)
  end.

(** [handleCatalogUpload], once the files are parsed into [uploads] (with
    their fresh identifiers and dates). [seen] is the [activeCatalogId] the
    handler closed over, which is the one of the state when nothing happened
    while the files were read. *)
Definition catalogUpload (seen : option string) (uploads : list CatalogFile)
    (st : State) : State :=
  match uploads with
  | [] => st
  | first :: _ =>
      {| catalogFiles := uploads ++ catalogFiles st;
         activeCatalogId :=
           if noSelection seen then Some (file_id first) else activeCatalogId st |}
  end.

(** The entry written by [handleCatalogReplace]:
    [{ ...entry, name, records, uploadedAt }]. *)
Definition replaced (name : string) (newRecords : list RecordObj) (now : Z)
    (entry : CatalogFile) : CatalogFile :=
  {| file_id := file_id entry; file_name := name; records := newRecords;
     uploadedAt := now |}.

(** [handleCatalogReplace], once the file is parsed. *)
Definition catalogReplace (catalogId name : string) (newRecords : list RecordObj)
    (now : Z) (st : State) : State :=
  {| catalogFiles :=
       map (fun entry => if bool_decide (file_id entry = catalogId)
                         then replaced name newRecords now entry else entry)
           (catalogFiles st);
     activeCatalogId := activeCatalogId st |}.

(** The button Activate of a catalog card. *)
Definition activate (fileId : string) (st : State) : State :=
  {| catalogFiles := catalogFiles st; activeCatalogId := Some fileId |}.

(** The button Delete of a catalog card. *)
Definition delete (fileId : string) (st : State) : State :=
  {| catalogFiles :=
       List.filter (fun entry => negb (bool_decide (file_id entry = fileId)))
         (catalogFiles st);
     activeCatalogId :=
       if bool_decide (activeCatalogId st = Some fileId) then None
       else activeCatalogId st |}.

(** Some catalog of the list has the identifier. *)
Definition listed (fileId : string) (files : list CatalogFile) : Prop :=
  exists file, file ∈ files /\ file_id file = fileId.

(** The states the component can be in; a card, with its buttons, exists for
    the catalogs of the list only. *)
Inductive reachable : State -> Prop :=
| reach_initial : reachable initial
| reach_upload (seen : option string) (uploads : list CatalogFile) (st : State) :
    reachable st -> reachable (catalogUpload seen uploads st)
| reach_replace (catalogId name : string) (newRecords : list RecordObj) (now : Z)
    (st : State) :
    reachable st -> reachable (catalogReplace catalogId name newRecords now st)
| reach_activate (fileId : string) (st : State) :
    reachable st -> listed fileId (catalogFiles st) -> reachable (activate fileId st)
| reach_delete (fileId : string) (st : State) :
    reachable st -> reachable (delete fileId st).

(** The catalog the match computation works with in a state. *)
Definition current (st : State) : option CatalogFile :=
  activeCatalog (catalogFiles st) (activeCatalogId st).

End App.

(** ** Reading the uploaded files *)

Fixpoint containsDot (name : string) : bool :=
  match name with
  | EmptyString => false
  | String c rest => bool_decide (c = "."%char) || containsDot rest
  end.

(** [name.split('.').pop()]: what follows the last dot of the name, the whole
    name when it has no dot. *)
Fixpoint lastSegment (name : string) : string :=
  match name with
  | EmptyString => EmptyString
  | String c rest =>
      if containsDot rest then lastSegment rest
      else if bool_decide (c = "."%char) then rest
      else String c rest
  end.

Inductive FileKind := CsvFile | ExcelFile.

(** The branch [parseFile] takes for a file name; [None] when it throws
    'Unsupported file format. Upload CSV or Excel.' *)
Definition fileKind (name : string) : option FileKind :=
  let extension := toLowerCase (lastSegment name) in
  if bool_decide (extension = "csv") then Some CsvFile
  else if bool_decide (extension ∈ ["xls"; "xlsx"]) then Some ExcelFile
  else None.

(** A file given to an upload handler: its name and what the reader of its
    format makes of its content, the rows ([results.data] for CSV, the result
    of [sheet_to_json] for Excel), or [None] when the reader fails. *)
Record UploadedFile := {
  upload_name : string;
  upload_rows : option (list RawRecord)
}.

(** [parseFile]; [None] is a rejected promise. *)
Definition parseFile (file : UploadedFile) : option (list RecordObj) :=
  match fileKind (upload_name file) with
  | Some _ => option_map sanitizeRecords (upload_rows file)
  | None => None
  end.

(** The loop of [handleClientUpload] over the files, from the records
    combined so far. *)
Fixpoint combineFiles (files : list UploadedFile) (combinedRecords : list RecordObj)
  : option (list RecordObj) :=
  match files with
  | [] => Some combinedRecords
  | file :: rest =>
      match parseFile file with
      | Some fileRecords => combineFiles rest (combinedRecords ++ fileRecords)
      | None => None
      end
  end.

(** [handleClientUpload]: the state [clientRecords] after the handler. *)
Definition handleClientUpload (files : list UploadedFile) (clientRecords : list RecordObj)
  : list RecordObj :=
  match files with
  | [] => clientRecords
  | _ =>
      match combineFiles files [] with
      | Some combinedRecords => combinedRecords
      | None => clientRecords
      end
  end.

(** ** The steps of the agent *)

Record AgentStep := { title : string; description : string }.

(** The two fields the editor of a step writes. *)
Inductive StepField := Title | Description.

(** [{ ...step, [field]: value }] *)
Definition withField (field : StepField) (value : string) (step : AgentStep) : AgentStep :=
  match field with
  | Title => {| title := value; description := description step |}
  | Description => {| title := title step; description := value |}
  end.

Definition readField (field : StepField) (step : AgentStep) : string :=
  match field with
  | Title => title step
  | Description => description step
  end.

(** [handleAgentStepEdit]: the state [agentSteps] after the handler. *)
Definition handleAgentStepEdit (index : nat) (field : StepField) (value : string)
    (prev : list AgentStep) : list AgentStep :=
  imap (fun idx step => if (idx =? index)%nat then withField field value step else step) prev.

Definition defaultAgentSteps : list AgentStep :=
  [ {| title := "Understand requirements";
       description := "Use the uploaded request list to identify the number of unique components, quantities, and any missing specifications that could impact sourcing." |};
    {| title := "Cross-check catalog";
       description := "Compare each requested connector with the active catalog. Flag legacy or end-of-life parts and highlight viable alternates." |};
    {| title := "Compose proposal brief";
       description := "Summarize available inventory, lead times, and cost-saving bundles. Recommend follow-up actions for uncovered parts." |} ].

(** ** Sample uploads *)

Module Samples.

(** Rows as a reader delivers them: padded keys and values, an empty cell,
    a missing value, and a row without content. *)
Definition rawRows : list RawRecord :=
  [ [(" PN ", RawOther "  abc-1 "); ("Notes", RawNull); ("Qty", RawOther "   ")];
    [("Notes", RawUndefined)] ].

Definition request : RecordObj := [("PN", "abc-1")].

(** The record [Scenario.acme] with its keys in capitals. *)
Definition shout : RecordObj := [("PART NUMBER", "ABC-1"); ("MANUFACTURER", "Acme")].

Definition pair : FoundItem := {| requested := request; catalog := Scenario.acme |}.

Definition twoCatalogs : App.State :=
  {| App.catalogFiles := [Scenario.catalog1; Scenario.emptyCatalog];
     App.activeCatalogId := Some "c1" |}.

Definition requestFile : UploadedFile :=
  {| upload_name := "request.2024.CSV"; upload_rows := Some rawRows |}.

Definition notesFile : UploadedFile :=
  {| upload_name := "notes.txt"; upload_rows := Some [] |}.

(** Forty requests, 23 of them for the part of [Scenario.catalog1]. *)
Definition fortyRequests : list RecordObj :=
  (repeat [("PN", "abc-1")] 23 ++ repeat [("PN", "X9")] 17)%list.

(** Forty found pairs, 23 of one manufacturer and 17 of another. *)
Definition fortyFound : list FoundItem :=
  (repeat {| requested := [("PN", "a")]; catalog := [("PN", "A"); ("Brand", "Acme")] |} 23
   ++ repeat {| requested := [("PN", "b")]; catalog := [("PN", "B"); ("Brand", "Bolt")] |} 17)%list.

End Samples.
(** * Properties *)

(** ** Case mapping *)

Section CaseMapping.

Lemma upper_char_idem (c : ascii) : upper_char (upper_char c) = upper_char c.
Proof. destruct c as [[] [] [] [] [] [] [] []]; reflexivity. Qed.

Lemma upper_char_not_lower (c : ascii) : is_lower (upper_char c) = false.
Proof. destruct c as [[] [] [] [] [] [] [] []]; reflexivity. Qed.

Lemma toUpperCase_idem (s : string) : toUpperCase (toUpperCase s) = toUpperCase s.
Proof.
  induction s as [|c s IH]; [reflexivity|].
  cbn. rewrite upper_char_idem. f_equal. exact IH.
Qed.

Lemma toUpperCase_nil_iff (s : string) : toUpperCase s = "" <-> s = "".
Proof. destruct s; split; intros H; try reflexivity; discriminate H. Qed.

(** A string that starts with a lower-case letter is not an upper-cased
    string. *)
Lemma toUpperCase_head (s : string) (c : ascii) (t : string) :
  toUpperCase s = String c t -> is_lower c = false.
Proof.
  destruct s as [|d s]; [discriminate|].
  cbn. intros [= <- _]. apply upper_char_not_lower.
Qed.

Lemma truthy_true (s : string) : truthy s = true <-> s ≠ "".
Proof. unfold truthy. apply bool_decide_eq_true. Qed.

Lemma truthy_false (s : string) : truthy s = false <-> s = "".
Proof.
  unfold truthy. rewrite bool_decide_eq_false. split.
  - intros H. destruct (decide (s = "")) as [->|Hne]; [reflexivity|contradiction].
  - intros -> H. contradiction.
Qed.

End CaseMapping.

(** ** The case-insensitive view of a record *)

Section LowerMap.

Lemma fromEntries_acc (es : list (string * string)) (m : gmap string string) (c : string) :
  fold_left putEntry es m !! c
  = match fold_left putEntry es ∅ !! c with
    | Some w => Some w
    | None => m !! c
    end.
Proof.
  revert m. induction es as [|[k v] es IH]; intros m.
  - cbn. rewrite lookup_empty. reflexivity.
  - change (fold_left putEntry es (putEntry m (k, v)) !! c
            = match fold_left putEntry es (putEntry ∅ (k, v)) !! c with
              | Some w => Some w
              | None => m !! c
              end).
    rewrite IH. rewrite (IH (putEntry ∅ (k, v))).
    destruct (fold_left putEntry es ∅ !! c); [reflexivity|].
    unfold putEntry; cbn.
    destruct (decide (k = c)) as [->|Hne].
    + rewrite !lookup_insert_eq. reflexivity.
    + rewrite !lookup_insert_ne by assumption. rewrite lookup_empty. reflexivity.
Qed.

(** Reading [lowerMap[c]] yields the value of the last field named [c] up
    to case. *)
Lemma lowerMap_lookup (r : RecordObj) (c : string) : lowerMap r !! c = field_ci r c.
Proof.
  unfold lowerMap, fromEntries.
  induction r as [|[k v] r IH]; cbn.
  - apply lookup_empty.
  - rewrite fromEntries_acc, IH.
    destruct (field_ci r c); [reflexivity|].
    case_bool_decide as Hk.
    + rewrite Hk. apply lookup_insert_eq.
    + rewrite lookup_insert_ne by assumption. apply lookup_empty.
Qed.

Lemma field_ci_None (r : RecordObj) (c : string) :
  field_ci r c = None <-> forall k v, (k, v) ∈ r -> toLowerCase k ≠ c.
Proof.
  induction r as [|[k v] r IH]; cbn.
  - split; [intros _ k v Hin; inversion Hin|reflexivity].
  - destruct (field_ci r c) eqn:E.
    + split; [discriminate|]. intros H.
      assert (Hn : Some s = None); [|discriminate Hn].
      apply IH. intros k' v' Hin. apply (H k' v'). right. exact Hin.
    + case_bool_decide as Hk.
      * split; [discriminate|]. intros H. exfalso. apply (H k v); [left|exact Hk].
      * split; [|reflexivity]. intros _ k' v' Hin.
        apply elem_of_cons in Hin as [[= -> ->]|Hin]; [exact Hk|].
        destruct IH as [IH _]. apply (IH eq_refl k' v' Hin).
Qed.

Lemma field_ci_Some (r : RecordObj) (c v : string) :
  field_ci r c = Some v -> exists k, (k, v) ∈ r /\ toLowerCase k = c.
Proof.
  induction r as [|[k0 v0] r IH]; cbn; [discriminate|].
  destruct (field_ci r c) as [w|].
  - intros [= ->]. destruct (IH eq_refl) as (k & Hin & Hk).
    exists k. split; [right; exact Hin|exact Hk].
  - case_bool_decide as Hk; [|discriminate].
    intros [= ->]. exists k0. split; [left|exact Hk].
Qed.

(** When no two field names agree up to case, the view returns each field's
    own value. *)
Lemma field_ci_unique (r : RecordObj) (k v : string) :
  NoDup (map (fun e => toLowerCase e.1) r) -> (k, v) ∈ r ->
  field_ci r (toLowerCase k) = Some v.
Proof.
  induction r as [|[k0 v0] r IH]; intros Hnd Hin; [inversion Hin|].
  cbn in Hnd. apply NoDup_cons in Hnd as [Hnot Hnd]. cbn.
  apply elem_of_cons in Hin as [[= -> ->]|Hin].
  - assert (E : field_ci r (toLowerCase k0) = None).
    { apply field_ci_None. intros k' v' Hin' Heq. apply Hnot.
      rewrite <- Heq. apply (list_elem_of_fmap_2 (fun e => toLowerCase e.1) r (k', v')).
      exact Hin'. }
    rewrite E. rewrite bool_decide_eq_true_2 by reflexivity. reflexivity.
  - rewrite (IH Hnd Hin). reflexivity.
Qed.

Lemma scanCandidates_skip (lm : gmap string string) (pre rest : list string) :
  (forall c, c ∈ pre -> lm !! c = None \/ lm !! c = Some "") ->
  scanCandidates lm (pre ++ rest)%list = scanCandidates lm rest.
Proof.
  induction pre as [|c pre IH]; intros H; [reflexivity|].
  assert (Hrest : forall c', c' ∈ pre -> lm !! c' = None \/ lm !! c' = Some "").
  { intros c' Hc'. apply H. right. exact Hc'. }
  cbn. destruct (H c ltac:(left)) as [E|E]; rewrite E; cbn; apply IH, Hrest.
Qed.

Lemma scanCandidates_upper (lm : gmap string string) (cands : list string) (i : string) :
  scanCandidates lm cands = Some i -> exists v, v ≠ "" /\ i = toUpperCase v.
Proof.
  induction cands as [|c cands IH]; cbn; [discriminate|].
  destruct (lm !! c) as [v|]; [|exact IH].
  destruct (truthy v) eqn:T; [|exact IH].
  intros [= <-]. exists v. split; [apply truthy_true, T|reflexivity].
Qed.

End LowerMap.

(** The identifier is an upper-cased string. *)
Lemma extractIdentifier_upper (r : RecordObj) :
  exists v, extractIdentifier r = toUpperCase v.
Proof.
  unfold extractIdentifier.
  destruct (scanCandidates (lowerMap r) IDENTIFIER_KEYS) as [i|] eqn:E.
  - apply scanCandidates_upper in E as (v & _ & ->). exists v. reflexivity.
  - destruct (map snd r) as [|v l]; [exists ""; reflexivity|].
    destruct (truthy v); [exists v|exists ""]; reflexivity.
Qed.

(** Two records with the same field names whose values agree up to case. *)
Lemma truthy_upper (v v' : string) :
  toUpperCase v = toUpperCase v' -> truthy v = truthy v'.
Proof.
  intros H. destruct v, v'; try reflexivity; discriminate H.
Qed.

Lemma field_ci_same_case (r r' : RecordObj) (c : string) :
  Forall2 (fun e e' => e.1 = e'.1 /\ toUpperCase e.2 = toUpperCase e'.2) r r' ->
  match field_ci r c, field_ci r' c with
  | Some v, Some v' => toUpperCase v = toUpperCase v'
  | None, None => True
  | _, _ => False
  end.
Proof.
  induction 1 as [|[k v] [k' v'] r r' [Hk Hv] _ IH]; cbn; [exact I|].
  cbn in Hk, Hv. subst k'.
  destruct (field_ci r c), (field_ci r' c); try contradiction; [exact IH|].
  destruct (bool_decide (toLowerCase k = c)); [exact Hv|exact I].
Qed.

Lemma extractIdentifier_same_case (r r' : RecordObj) :
  Forall2 (fun e e' => e.1 = e'.1 /\ toUpperCase e.2 = toUpperCase e'.2) r r' ->
  extractIdentifier r = extractIdentifier r'.
Proof.
  intros Hrel. unfold extractIdentifier.
  assert (Hscan : forall cands,
             scanCandidates (lowerMap r) cands = scanCandidates (lowerMap r') cands).
  { induction cands as [|c cands IH]; [reflexivity|].
    cbn. rewrite !lowerMap_lookup.
    pose proof (field_ci_same_case r r' c Hrel) as Hc.
    destruct (field_ci r c) as [v|], (field_ci r' c) as [v'|]; try contradiction.
    - rewrite (truthy_upper v v' Hc), Hc, IH. reflexivity.
    - exact IH. }
  rewrite Hscan.
  destruct (scanCandidates (lowerMap r') IDENTIFIER_KEYS); [reflexivity|].
  destruct Hrel as [|[k v] [k' v'] r r' [_ Hv] _]; [reflexivity|].
  cbn in *. rewrite (truthy_upper v v' Hv), Hv. reflexivity.
Qed.

(** **** C4 *)

(** C4. For a record and the first candidate [c] of the priority list under
    which the record holds a non-empty value (every earlier candidate being
    absent or empty), [extractIdentifier] returns that value upper-cased. The
    value held under [c] is the value of a field whose name is [c] up to
    case: of that very field when no two field names agree up to case, of the
    last such field otherwise. The result depends on the field names through
    their lower-cased form only. For a record none of whose field names is a
    priority identifier, it returns the value of the first field upper-cased,
    which is the empty string when the record or that value is empty. *)
Theorem extractIdentifier_priority_then_first_field (r : RecordObj) :
  (forall pre c post v,
      IDENTIFIER_KEYS = (pre ++ c :: post)%list ->
      (forall c', c' ∈ pre -> field_ci r c' = None \/ field_ci r c' = Some "") ->
      field_ci r c = Some v -> v ≠ "" ->
      extractIdentifier r = toUpperCase v)
  /\ (forall c v, field_ci r c = Some v -> exists k, (k, v) ∈ r /\ toLowerCase k = c)
  /\ (forall k v, NoDup (map (fun e => toLowerCase e.1) r) -> (k, v) ∈ r ->
      field_ci r (toLowerCase k) = Some v)
  /\ (forall r' : RecordObj,
      map (fun e => (toLowerCase e.1, e.2)) r' = map (fun e => (toLowerCase e.1, e.2)) r ->
      extractIdentifier r' = extractIdentifier r)
  /\ ((forall k v, (k, v) ∈ r -> toLowerCase k ∉ IDENTIFIER_KEYS) ->
      extractIdentifier r = match r with [] => "" | (_, v) :: _ => toUpperCase v end
      /\ (r = [] -> extractIdentifier r = "")
      /\ (forall k rest, r = (k, "") :: rest -> extractIdentifier r = "")).
Proof.
  repeat split.
  - intros pre c post v Hsplit Hpre Hc Hv.
    unfold extractIdentifier. rewrite Hsplit, scanCandidates_skip.
    + cbn. rewrite lowerMap_lookup, Hc.
      rewrite (proj2 (truthy_true v) Hv). reflexivity.
    + intros c' Hc'. rewrite lowerMap_lookup. apply Hpre, Hc'.
  - intros c v. apply field_ci_Some.
  - intros k v Hnd Hin. apply field_ci_unique; assumption.
  - intros r' Hmap. unfold extractIdentifier, lowerMap. rewrite Hmap.
    assert (Hv : map snd r' = map snd r).
    { apply (f_equal (map snd)) in Hmap. rewrite !map_map in Hmap. exact Hmap. }
    rewrite Hv. reflexivity.
  - unfold extractIdentifier.
    assert (E : scanCandidates (lowerMap r) IDENTIFIER_KEYS = None).
    { rewrite <- (app_nil_r IDENTIFIER_KEYS). rewrite scanCandidates_skip; [reflexivity|].
      intros c Hc. left. rewrite lowerMap_lookup. apply field_ci_None.
      intros k v Hin Heq. apply (H k v Hin). rewrite Heq. exact Hc. }
    rewrite E. destruct r as [|[k v] r]; [reflexivity|]. cbn.
    destruct (truthy v) eqn:T; [reflexivity|].
    apply truthy_false in T. subst v. reflexivity.
  - intros ->. reflexivity.
  - intros k rest ->. unfold extractIdentifier.
    assert (E : scanCandidates (lowerMap ((k, "") :: rest)) IDENTIFIER_KEYS = None).
    { rewrite <- (app_nil_r IDENTIFIER_KEYS). rewrite scanCandidates_skip; [reflexivity|].
      intros c Hc. left. rewrite lowerMap_lookup. apply field_ci_None.
      intros k' v' Hin Heq. apply (H k' v' Hin). rewrite Heq. exact Hc. }
    rewrite E. reflexivity.
Qed.

Lemma extractIdentifier_priority_then_first_field_witness :
  extractIdentifier [("Notes", "x"); ("Pn", "a1")] = toUpperCase "a1"
  /\ extractIdentifier [("Notes", "loose part, no id")]
     = toUpperCase "loose part, no id".
Proof.
  split.
  - apply (proj1 (extractIdentifier_priority_then_first_field [("Notes", "x"); ("Pn", "a1")])
             ["part number"; "part"; "sku"] "pn"
             ["component"; "item"; "id"; "mpn"; "manufacturer part number"]).
    + reflexivity.
    + intros c' Hc'. left.
      repeat (apply elem_of_cons in Hc' as [->|Hc']; [reflexivity|]).
      inversion Hc'.
    + reflexivity.
    + discriminate.
  - apply (proj2 (proj2 (proj2 (proj2
             (extractIdentifier_priority_then_first_field [("Notes", "loose part, no id")]))))).
    intros k v Hin. apply list_elem_of_singleton in Hin. injection Hin as -> ->.
    intros Hk.
    repeat (apply elem_of_cons in Hk as [E|Hk]; [discriminate E|]).
    inversion Hk.
Defined.

(** ** The catalog index *)

Section CatalogIndex.

Lemma indexStep_lookup (idx : gmap string RecordObj) (r : RecordObj) (i : string) :
  indexStep idx r !! i
  = if bool_decide (extractIdentifier r = i) && truthy i then Some r else idx !! i.
Proof.
  unfold indexStep. destruct (truthy (extractIdentifier r)) eqn:T.
  - case_bool_decide as E.
    + subst i. rewrite T. apply lookup_insert_eq.
    + rewrite lookup_insert_ne by assumption. reflexivity.
  - case_bool_decide as E; [|reflexivity].
    subst i. rewrite T. reflexivity.
Qed.

Lemma buildIndex_snoc (l : list RecordObj) (r : RecordObj) :
  buildIndex (l ++ [r]) = indexStep (buildIndex l) r.
Proof. unfold buildIndex. rewrite fold_left_app. reflexivity. Qed.

(** What a lookup returns is a catalog record whose identifier is the key,
    and the key is not empty. *)
Lemma buildIndex_sound (l : list RecordObj) (i : string) (r : RecordObj) :
  buildIndex l !! i = Some r -> r ∈ l /\ extractIdentifier r = i /\ i ≠ "".
Proof.
  induction l as [|r0 l IH] using rev_ind.
  - unfold buildIndex; cbn. rewrite lookup_empty. discriminate.
  - rewrite buildIndex_snoc, indexStep_lookup.
    case_bool_decide as E; cbn.
    + destruct (truthy i) eqn:T.
      * intros [= <-]. split; [apply elem_of_app; right; left|].
        split; [exact E|apply truthy_true, T].
      * intros H. destruct (IH H) as (Hin & Hid & Hne).
        split; [apply elem_of_app; left; exact Hin|split; assumption].
    + intros H. destruct (IH H) as (Hin & Hid & Hne).
      split; [apply elem_of_app; left; exact Hin|split; assumption].
Qed.

(** Records after the last one that carries the identifier leave its entry
    alone. *)
Lemma buildIndex_app_other (l1 l2 : list RecordObj) (i : string) :
  (forall r', r' ∈ l2 -> extractIdentifier r' ≠ i) ->
  buildIndex (l1 ++ l2) !! i = buildIndex l1 !! i.
Proof.
  induction l2 as [|r0 l2 IH] using rev_ind; intros H.
  - rewrite app_nil_r. reflexivity.
  - rewrite app_assoc, buildIndex_snoc, indexStep_lookup.
    rewrite bool_decide_eq_false_2.
    + cbn. apply IH. intros r' Hr'. apply H. apply elem_of_app. left. exact Hr'.
    + apply H. apply elem_of_app. right. left.
Qed.

Lemma buildIndex_last (l1 l2 : list RecordObj) (r : RecordObj) :
  extractIdentifier r ≠ "" ->
  (forall r', r' ∈ l2 -> extractIdentifier r' ≠ extractIdentifier r) ->
  buildIndex (l1 ++ r :: l2) !! extractIdentifier r = Some r.
Proof.
  intros Hne Hl2.
  change (l1 ++ r :: l2)%list with (l1 ++ [r] ++ l2)%list.
  rewrite app_assoc, buildIndex_app_other by exact Hl2.
  rewrite buildIndex_snoc, indexStep_lookup.
  rewrite bool_decide_eq_true_2 by reflexivity.
  rewrite (proj2 (truthy_true _) Hne). reflexivity.
Qed.

(** Every identifier that occurs in the catalog is indexed. *)
Lemma buildIndex_complete (l : list RecordObj) (r : RecordObj) :
  r ∈ l -> extractIdentifier r ≠ "" -> is_Some (buildIndex l !! extractIdentifier r).
Proof.
  induction l as [|r0 l IH] using rev_ind; intros Hin Hne; [inversion Hin|].
  rewrite buildIndex_snoc, indexStep_lookup.
  rewrite (proj2 (truthy_true _) Hne), andb_true_r.
  case_bool_decide as E; [eexists; reflexivity|].
  apply IH; [|exact Hne].
  apply elem_of_app in Hin as [Hin|Hin]; [exact Hin|].
  apply list_elem_of_singleton in Hin. subst r0. contradiction.
Qed.

End CatalogIndex.

(** **** C5 *)

(** C5. The index built from the catalog records in order never holds an
    entry under the empty identifier; whatever a lookup returns is a catalog
    record whose (non-empty) identifier is the key, so that a record without
    identifier is never returned; every record that has an identifier has its
    identifier indexed; and the entry of an identifier is the last catalog
    record that carries it (last write wins). *)
Theorem buildIndex_skips_empty_last_write_wins (catalogRecords : list RecordObj) :
  buildIndex catalogRecords !! "" = None
  /\ (forall i r, buildIndex catalogRecords !! i = Some r ->
        r ∈ catalogRecords /\ extractIdentifier r = i /\ extractIdentifier r ≠ "")
  /\ (forall r, r ∈ catalogRecords -> extractIdentifier r ≠ "" ->
        is_Some (buildIndex catalogRecords !! extractIdentifier r))
  /\ (forall l1 r l2, catalogRecords = (l1 ++ r :: l2)%list ->
        extractIdentifier r ≠ "" ->
        (forall r', r' ∈ l2 -> extractIdentifier r' ≠ extractIdentifier r) ->
        buildIndex catalogRecords !! extractIdentifier r = Some r).
Proof.
  split; [|split; [|split]].
  - destruct (buildIndex catalogRecords !! "") as [r|] eqn:E; [|reflexivity].
    apply buildIndex_sound in E as (_ & _ & Hne). contradiction.
  - intros i r H. apply buildIndex_sound in H as (Hin & Hid & Hne).
    split; [exact Hin|]. split; [exact Hid|]. rewrite Hid. exact Hne.
  - intros r. apply buildIndex_complete.
  - intros l1 r l2 -> Hne Hl2. apply buildIndex_last; assumption.
Qed.

(** Scenario 5: two catalog records share the identifier A1. *)
Lemma buildIndex_skips_empty_last_write_wins_witness :
  buildIndex [Scenario.first5; Scenario.second5] !! extractIdentifier Scenario.second5
  = Some Scenario.second5.
Proof.
  apply (proj2 (proj2 (proj2
           (buildIndex_skips_empty_last_write_wins [Scenario.first5; Scenario.second5])))
           [Scenario.first5] Scenario.second5 []).
  - reflexivity.
  - discriminate.
  - intros r' Hr'. inversion Hr'.
Defined.

(** ** The match engine *)

Section MatchEngine.

Variable idx : gmap string RecordObj.

Lemma classifyStep_parts (acc : MatchResult) (r : RecordObj) :
  classifyStep idx acc r
  = {| found := found acc ++ foundPart idx r; missing := missing acc ++ missingPart idx r |}.
Proof.
  unfold foundPart, missingPart, classifyStep.
  destruct (negb (truthy (extractIdentifier r))); cbn.
  - rewrite app_nil_r. reflexivity.
  - destruct (idx !! extractIdentifier r); cbn; rewrite app_nil_r; reflexivity.
Qed.

Lemma classify_fold (l : list RecordObj) (acc : MatchResult) :
  fold_left (classifyStep idx) l acc
  = {| found := found acc ++ flat_map (foundPart idx) l;
       missing := missing acc ++ flat_map (missingPart idx) l |}.
Proof.
  revert acc. induction l as [|r l IH]; intros acc; cbn.
  - rewrite !app_nil_r. destruct acc; reflexivity.
  - rewrite IH, classifyStep_parts. cbn. rewrite <- !app_assoc. reflexivity.
Qed.

Lemma parts_length (r : RecordObj) :
  length (foundPart idx r) + length (missingPart idx r) = 1.
Proof.
  unfold foundPart, missingPart, classifyStep.
  destruct (negb (truthy (extractIdentifier r))); [reflexivity|].
  destruct (idx !! extractIdentifier r); reflexivity.
Qed.

Lemma parts_total (l : list RecordObj) :
  length (flat_map (foundPart idx) l) + length (flat_map (missingPart idx) l) = length l.
Proof.
  induction l as [|r l IH]; [reflexivity|].
  cbn. rewrite !length_app. pose proof (parts_length r). lia.
Qed.

Lemma foundPart_requested (l : list RecordObj) :
  map requested (flat_map (foundPart idx) l) = List.filter (isFound idx) l.
Proof.
  induction l as [|r l IH]; [reflexivity|].
  cbn. rewrite map_app, IH. f_equal.
  unfold foundPart, classifyStep, isFound.
  destruct (truthy (extractIdentifier r)); cbn; [|reflexivity].
  destruct (idx !! extractIdentifier r) eqn:E; reflexivity.
Qed.

Lemma missingPart_record (l : list RecordObj) :
  map record (flat_map (missingPart idx) l) = List.filter (fun r => negb (isFound idx r)) l.
Proof.
  induction l as [|r l IH]; [reflexivity|].
  cbn. rewrite map_app, IH. f_equal.
  unfold missingPart, classifyStep, isFound.
  destruct (truthy (extractIdentifier r)); cbn; [|reflexivity].
  destruct (idx !! extractIdentifier r) eqn:E; reflexivity.
Qed.

Lemma foundPart_spec (l : list RecordObj) (item : FoundItem) :
  item ∈ flat_map (foundPart idx) l ->
  requested item ∈ l
  /\ extractIdentifier (requested item) ≠ ""
  /\ idx !! extractIdentifier (requested item) = Some (catalog item).
Proof.
  intros Hin. apply list_elem_of_In, in_flat_map in Hin as (r & Hr & Hin).
  apply list_elem_of_In in Hr.
  unfold foundPart, classifyStep in Hin.
  destruct (truthy (extractIdentifier r)) eqn:T; cbn in Hin; [|contradiction].
  destruct (idx !! extractIdentifier r) eqn:E; cbn in Hin; [|contradiction].
  destruct Hin as [<-|[]]. cbn.
  split; [exact Hr|]. split; [apply truthy_true, T|exact E].
Qed.

Lemma missingPart_spec (l : list RecordObj) (item : MissingItem) :
  item ∈ flat_map (missingPart idx) l ->
  record item ∈ l
  /\ ((extractIdentifier (record item) = "" /\ reason item = "No identifier detected")
      \/ (extractIdentifier (record item) ≠ ""
          /\ idx !! extractIdentifier (record item) = None
          /\ reason item = "Not present in catalog")).
Proof.
  intros Hin. apply list_elem_of_In, in_flat_map in Hin as (r & Hr & Hin).
  apply list_elem_of_In in Hr.
  unfold missingPart, classifyStep in Hin.
  destruct (truthy (extractIdentifier r)) eqn:T; cbn in Hin.
  - destruct (idx !! extractIdentifier r) eqn:E; cbn in Hin; [contradiction|].
    destruct Hin as [<-|[]]. cbn.
    split; [exact Hr|]. right. split; [apply truthy_true, T|]. split; [exact E|reflexivity].
  - destruct Hin as [<-|[]]. cbn.
    split; [exact Hr|]. left. split; [apply truthy_false, T|reflexivity].
Qed.

End MatchEngine.

Lemma matchResult_active (file : CatalogFile) (clientRecords : list RecordObj) :
  matchResult (Some file) clientRecords
  = {| found := flat_map (foundPart (buildIndex (records file))) clientRecords;
       missing := flat_map (missingPart (buildIndex (records file))) clientRecords |}.
Proof.
  unfold matchResult. destruct clientRecords as [|r l]; [reflexivity|].
  change (length (r :: l) =? 0)%nat with false. cbv iota.
  rewrite classify_fold. reflexivity.
Qed.

Lemma flat_map_foundPart_empty (l : list RecordObj) : flat_map (foundPart ∅) l = [].
Proof.
  induction l as [|r l IH]; [reflexivity|].
  cbn. rewrite IH, app_nil_r. unfold foundPart, classifyStep.
  destruct (negb (truthy (extractIdentifier r))); [reflexivity|].
  rewrite lookup_empty. reflexivity.
Qed.

Lemma filter_all {A : Type} (f : A -> bool) (l : list A) :
  (forall x, f x = true) -> List.filter f l = l.
Proof.
  intros H. induction l as [|x l IH]; [reflexivity|].
  cbn. rewrite H, IH. reflexivity.
Qed.

(** **** C1 *)

(** C1 as stated fails: without an active catalog the result is empty
    whatever the request list. *)
Lemma matchResult_partition_fails_without_catalog :
  ~ (forall (catalogFiles : list CatalogFile) (activeCatalogId : option string)
            (clientRecords : list RecordObj),
        let result := matchResult (activeCatalog catalogFiles activeCatalogId) clientRecords in
        length (found result) + length (missing result) = length clientRecords).
Proof.
  intros H. specialize (H [] None Scenario.client2). discriminate H.
Qed.

(** C1 (amended). Whenever the selection designates a catalog of the list,
    the found and missing lists together have as many elements as there are
    client records. *)
Theorem matchResult_total_partition (catalogFiles : list CatalogFile)
    (activeCatalogId : option string) (clientRecords : list RecordObj) (file : CatalogFile) :
  activeCatalog catalogFiles activeCatalogId = Some file ->
  let result := matchResult (activeCatalog catalogFiles activeCatalogId) clientRecords in
  length (found result) + length (missing result) = length clientRecords.
Proof.
  intros ->. cbv zeta. rewrite matchResult_active. cbn. apply parts_total.
Qed.

Lemma matchResult_total_partition_witness :
  let result := matchResult (activeCatalog [Scenario.catalog1] (Some "c1")) Scenario.mixed in
  length (found result) + length (missing result) = length Scenario.mixed.
Proof.
  apply (matchResult_total_partition [Scenario.catalog1] (Some "c1") Scenario.mixed
           Scenario.catalog1).
  reflexivity.
Defined.

(** **** C2 *)

(** C2 as stated fails: an active catalog without records does not empty
    the result, every client record is reported missing (scenario 2). *)
Lemma matchResult_empty_catalog_not_empty :
  ~ (forall (active : option CatalogFile) (clientRecords : list RecordObj),
        active = None \/ (exists file, active = Some file /\ records file = [])
        \/ clientRecords = [] ->
        found (matchResult active clientRecords) = []
        /\ missing (matchResult active clientRecords) = []).
Proof.
  intros H.
  destruct (H (Some Scenario.emptyCatalog) Scenario.client2) as [_ Hm].
  - right. left. exists Scenario.emptyCatalog. split; reflexivity.
  - discriminate Hm.
Qed.

(** C2 (amended). If no catalog is active or the client request set is empty,
    the match computation returns two empty lists; under an active catalog
    that has no records the found list is empty and the missing list holds
    every client record, in order. The computation is a total function: no
    input makes it fail. *)
Theorem matchResult_empty_inputs (active : option CatalogFile)
    (clientRecords : list RecordObj) :
  (active = None \/ clientRecords = [] ->
     found (matchResult active clientRecords) = []
     /\ missing (matchResult active clientRecords) = [])
  /\ (forall file, active = Some file -> records file = [] ->
        found (matchResult active clientRecords) = []
        /\ map record (missing (matchResult active clientRecords)) = clientRecords).
Proof.
  split.
  - intros [-> | ->]; [split; reflexivity|].
    destruct active; split; reflexivity.
  - intros file -> Hrec. rewrite matchResult_active, Hrec. cbn.
    change (buildIndex []) with (∅ : gmap string RecordObj).
    split; [apply flat_map_foundPart_empty|].
    rewrite missingPart_record. apply filter_all.
    intros r. unfold isFound. rewrite lookup_empty.
    rewrite bool_decide_eq_false_2 by (intros [x Hx]; discriminate Hx).
    rewrite andb_false_r. reflexivity.
Qed.

Lemma matchResult_empty_inputs_witness :
  (found (matchResult None Scenario.client2) = []
   /\ missing (matchResult None Scenario.client2) = [])
  /\ (found (matchResult (Some Scenario.emptyCatalog) Scenario.client2) = []
      /\ map record (missing (matchResult (Some Scenario.emptyCatalog) Scenario.client2))
         = Scenario.client2).
Proof.
  split.
  - apply (proj1 (matchResult_empty_inputs None Scenario.client2)). left. reflexivity.
  - apply (proj2 (matchResult_empty_inputs (Some Scenario.emptyCatalog) Scenario.client2)
             Scenario.emptyCatalog); reflexivity.
Defined.

(** **** C3 *)

(** C3. Under an active catalog the client records are classified in input
    order: the requested records of the found list are the client records
    that have an identifier held by the catalog index, in their original
    order, each paired with the indexed catalog record; the records of the
    missing list are all the others, in their original order, with the reason
    "No identifier detected" when the identifier is empty and "Not present in
    catalog" otherwise. *)
Theorem matchResult_classifies_in_order (file : CatalogFile) (clientRecords : list RecordObj) :
  clientRecords ≠ [] ->
  let idx := buildIndex (records file) in
  let result := matchResult (Some file) clientRecords in
  map requested (found result) = List.filter (isFound idx) clientRecords
  /\ map record (missing result) = List.filter (fun r => negb (isFound idx r)) clientRecords
  /\ (forall item, item ∈ found result ->
        extractIdentifier (requested item) ≠ ""
        /\ idx !! extractIdentifier (requested item) = Some (catalog item))
  /\ (forall item, item ∈ missing result ->
        (extractIdentifier (record item) = "" /\ reason item = "No identifier detected")
        \/ (extractIdentifier (record item) ≠ ""
            /\ idx !! extractIdentifier (record item) = None
            /\ reason item = "Not present in catalog")).
Proof.
  intros _ idx result. subst result. rewrite matchResult_active. cbn. fold idx.
  split; [apply foundPart_requested|].
  split; [apply missingPart_record|].
  split.
  - intros item Hin. apply foundPart_spec in Hin as (_ & H1 & H2). split; assumption.
  - intros item Hin. apply missingPart_spec in Hin as (_ & H). exact H.
Qed.

Lemma matchResult_classifies_in_order_witness :
  let idx := buildIndex (records Scenario.catalog1) in
  let result := matchResult (Some Scenario.catalog1) Scenario.mixed in
  map requested (found result) = List.filter (isFound idx) Scenario.mixed
  /\ map record (missing result) = List.filter (fun r => negb (isFound idx r)) Scenario.mixed
  /\ (forall item, item ∈ found result ->
        extractIdentifier (requested item) ≠ ""
        /\ idx !! extractIdentifier (requested item) = Some (catalog item))
  /\ (forall item, item ∈ missing result ->
        (extractIdentifier (record item) = "" /\ reason item = "No identifier detected")
        \/ (extractIdentifier (record item) ≠ ""
            /\ idx !! extractIdentifier (record item) = None
            /\ reason item = "Not present in catalog")).
Proof.
  apply (matchResult_classifies_in_order Scenario.catalog1 Scenario.mixed).
  discriminate.
Defined.

(** ** Insertion-ordered maps *)

Section JsMapFacts.

Context {V : Type}.
Implicit Types (m : list (string * V)) (k : string) (v : V).

Lemma set_keys m k v :
  map fst (JsMap.set m k v)
  = if bool_decide (k ∈ map fst m) then map fst m else (map fst m ++ [k])%list.
Proof.
  induction m as [|[k' v'] m IH]; [reflexivity|].
  cbn [JsMap.set]. destruct (decide (k' = k)) as [E|E].
  - rewrite (bool_decide_eq_true_2 _ E). subst k'. cbn.
    rewrite bool_decide_eq_true_2 by left. reflexivity.
  - rewrite (bool_decide_eq_false_2 _ E). cbn. rewrite IH.
    destruct (decide (k ∈ map fst m)) as [Hin|Hin].
    + rewrite (bool_decide_eq_true_2 _ Hin).
      rewrite bool_decide_eq_true_2 by (right; exact Hin). reflexivity.
    + rewrite (bool_decide_eq_false_2 _ Hin).
      rewrite bool_decide_eq_false_2; [reflexivity|].
      intros H. apply elem_of_cons in H as [->|H]; [apply E; reflexivity|contradiction].
Qed.

Lemma set_NoDup m k v : NoDup (map fst m) -> NoDup (map fst (JsMap.set m k v)).
Proof.
  intros Hnd. rewrite set_keys. case_bool_decide as Hin; [exact Hnd|].
  apply NoDup_app. split; [exact Hnd|]. split.
  - intros x Hx Hx'. apply list_elem_of_singleton in Hx'. subst x. contradiction.
  - apply NoDup_singleton.
Qed.

Lemma elem_of_set m k v k' v' :
  NoDup (map fst m) ->
  (k', v') ∈ JsMap.set m k v <-> (k' = k /\ v' = v) \/ (k' ≠ k /\ (k', v') ∈ m).
Proof.
  induction m as [|[k0 v0] m IH]; intros Hnd.
  - cbn. rewrite list_elem_of_singleton. split.
    + intros [= -> ->]. left. split; reflexivity.
    + intros [[-> ->]|[_ H]]; [reflexivity|inversion H].
  - cbn in Hnd. apply NoDup_cons in Hnd as [Hnot Hnd].
    cbn [JsMap.set]. case_bool_decide as E.
    + subst k0. rewrite !elem_of_cons. split.
      * intros [[= -> ->]|Hin]; [left; split; reflexivity|].
        right. split; [|right; exact Hin].
        intros ->. apply Hnot.
        apply (list_elem_of_fmap_2 fst m (k, v')). exact Hin.
      * intros [[-> ->]|[Hne [[= -> ->]|Hin]]];
          [left; reflexivity|contradiction|right; exact Hin].
    + rewrite !elem_of_cons, (IH Hnd). split.
      * intros [[= -> ->]|[[-> ->]|[Hne Hin]]].
        -- right. split; [exact E|left; reflexivity].
        -- left. split; reflexivity.
        -- right. split; [exact Hne|right; exact Hin].
      * intros [[-> ->]|[Hne [[= -> ->]|Hin]]].
        -- right. left. split; reflexivity.
        -- left. reflexivity.
        -- right. right. split; assumption.
Qed.

Lemma get_Some m k v : NoDup (map fst m) -> JsMap.get m k = Some v <-> (k, v) ∈ m.
Proof.
  induction m as [|[k0 v0] m IH]; intros Hnd.
  - cbn. split; [discriminate|intros H; inversion H].
  - cbn in Hnd. apply NoDup_cons in Hnd as [Hnot Hnd].
    cbn [JsMap.get]. rewrite elem_of_cons. case_bool_decide as E.
    + subst k0. split.
      * intros [= ->]. left. reflexivity.
      * intros [[= ->]|Hin]; [reflexivity|].
        exfalso. apply Hnot. apply (list_elem_of_fmap_2 fst m (k, v)). exact Hin.
    + rewrite (IH Hnd). split.
      * intros H. right. exact H.
      * intros [[= -> ->]|H]; [contradiction|exact H].
Qed.

Lemma get_None m k : JsMap.get m k = None <-> k ∉ map fst m.
Proof.
  induction m as [|[k0 v0] m IH]; cbn.
  - split; [intros _ H; inversion H|reflexivity].
  - case_bool_decide as E.
    + subst k0. split; [discriminate|]. intros H. exfalso. apply H. left.
    + rewrite IH. rewrite not_elem_of_cons. split.
      * intros H. split; [intros ->; apply E; reflexivity|exact H].
      * intros [_ H]. exact H.
Qed.

End JsMapFacts.

(** ** Sorting by a count, largest first *)

Section SortByMeasure.

Context {A : Type}.
Variable measure : A -> nat.
Variable cmp : A -> A -> Z.
Hypothesis cmp_measure :
  forall a b, cmp a b = (Z.of_nat (measure b) - Z.of_nat (measure a))%Z.

Lemma insertBy_perm (x : A) (l : list A) : insertBy cmp x l ≡ₚ x :: l.
Proof.
  induction l as [|y l IH]; [reflexivity|].
  cbn. destruct (cmp x y <=? 0)%Z; [reflexivity|].
  etransitivity; [apply perm_skip, IH|]. apply Permutation_swap.
Qed.

Lemma sortBy_perm (l : list A) : sortBy cmp l ≡ₚ l.
Proof.
  induction l as [|x l IH]; [reflexivity|].
  cbn. etransitivity; [apply insertBy_perm|]. constructor. exact IH.
Qed.

Lemma insertBy_sorted (x : A) (l : list A) :
  StronglySorted (descending measure) l -> StronglySorted (descending measure) (insertBy cmp x l).
Proof.
  induction l as [|y l IH]; intros Hs.
  - cbn. constructor; [constructor|constructor].
  - cbn. destruct (cmp x y <=? 0)%Z eqn:E.
    + apply Z.leb_le in E. rewrite cmp_measure in E.
      constructor; [exact Hs|].
      apply StronglySorted_inv in Hs as [_ Hall].
      constructor; [unfold descending; lia|].
      eapply Forall_impl; [exact Hall|]. unfold descending. intros z Hz. cbn in *. lia.
    + apply Z.leb_gt in E. rewrite cmp_measure in E.
      apply StronglySorted_inv in Hs as [Hs Hall].
      constructor; [apply IH, Hs|].
      rewrite insertBy_perm. constructor; [unfold descending; lia|exact Hall].
Qed.

Lemma sortBy_sorted (l : list A) : StronglySorted (descending measure) (sortBy cmp l).
Proof.
  induction l as [|x l IH]; [constructor|].
  cbn. apply insertBy_sorted, IH.
Qed.

(** The first elements of a sorted list dominate the remaining ones. *)
Lemma sorted_take_drop (l : list A) (n : nat) (a b : A) :
  StronglySorted (descending measure) l -> a ∈ take n l -> b ∈ drop n l ->
  descending measure a b.
Proof.
  revert n. induction l as [|x l IH]; intros n Hs Ha Hb.
  - rewrite take_nil in Ha. inversion Ha.
  - destruct n as [|n]; [inversion Ha|].
    cbn in Ha, Hb. apply StronglySorted_inv in Hs as [Hs Hall].
    apply elem_of_cons in Ha as [->|Ha].
    + rewrite Forall_forall in Hall. apply Hall.
      eapply (subseteq_drop n l). exact Hb.
    + eapply IH; eassumption.
Qed.

End SortByMeasure.

(** ** Keys of the client records *)

Section Keys.

Lemma occ_nil (k : string) : occ k [] = 0.
Proof. reflexivity. Qed.

Lemma occ_snoc (k k' : string) (ks : list string) :
  occ k (ks ++ [k']) = occ k ks + (if bool_decide (k' = k) then 1 else 0).
Proof.
  unfold occ. rewrite List.filter_app, length_app. cbn.
  destruct (bool_decide (k' = k)); reflexivity.
Qed.

Lemma occ_zero (k : string) (ks : list string) : occ k ks = 0 <-> k ∉ ks.
Proof.
  unfold occ. induction ks as [|k' ks IH]; cbn.
  - split; [intros _ H; inversion H|reflexivity].
  - rewrite not_elem_of_cons. destruct (decide (k' = k)) as [E|E].
    + rewrite (bool_decide_eq_true_2 _ E). cbn. split; [discriminate|].
      intros [H _]. exfalso. apply H. symmetry. exact E.
    + rewrite (bool_decide_eq_false_2 _ E). rewrite IH. split.
      * intros H. split; [intros ->; apply E; reflexivity|exact H].
      * intros [_ H]. exact H.
Qed.

Lemma rowKey_inj (i j : nat) : rowKey i = rowKey j -> i = j.
Proof.
  unfold rowKey. cbn. intros [= H]. apply pretty_nat_inj. exact H.
Qed.

(** An identifier is upper-cased; a row key starts with a lower-case
    letter. *)
Lemma rowKey_not_identifier (r : RecordObj) (i : nat) : extractIdentifier r ≠ rowKey i.
Proof.
  destruct (extractIdentifier_upper r) as [v ->].
  unfold rowKey. cbn. intros H. apply toUpperCase_head in H. discriminate H.
Qed.

Lemma keyOf_identified (i : nat) (r : RecordObj) :
  extractIdentifier r ≠ "" -> keyOf i r = extractIdentifier r.
Proof. intros H. unfold keyOf. rewrite (proj2 (truthy_true _) H). reflexivity. Qed.

Lemma keyOf_unidentified (i : nat) (r : RecordObj) :
  extractIdentifier r = "" -> keyOf i r = rowKey i.
Proof. intros H. unfold keyOf. rewrite (proj2 (truthy_false _) H). reflexivity. Qed.

Lemma keysFrom_snoc (i : nat) (rs : list RecordObj) (r : RecordObj) :
  keysFrom i (rs ++ [r]) = (keysFrom i rs ++ [keyOf (i + length rs) r])%list.
Proof.
  revert i. induction rs as [|r0 rs IH]; intros i; cbn.
  - rewrite Nat.add_0_r. reflexivity.
  - rewrite IH. rewrite Nat.add_succ_comm. reflexivity.
Qed.

Lemma keysFrom_lookup (i n : nat) (rs : list RecordObj) (r : RecordObj) :
  rs !! n = Some r -> keysFrom i rs !! n = Some (keyOf (i + n) r).
Proof.
  revert i n. induction rs as [|r0 rs IH]; intros i n H; [discriminate H|].
  destruct n as [|n].
  - cbn in H. injection H as ->. cbn. rewrite Nat.add_0_r. reflexivity.
  - change (keysFrom (S i) rs !! n = Some (keyOf (i + S n) r)).
    rewrite <- Nat.add_succ_comm. apply IH. exact H.
Qed.

Lemma keysFrom_length (i : nat) (rs : list RecordObj) :
  length (keysFrom i rs) = length rs.
Proof. revert i. induction rs as [|r rs IH]; intros i; cbn; [|rewrite IH]; reflexivity. Qed.

(** The key of a row without identifier is not the key of an earlier row. *)
Lemma rowKey_fresh (i j : nat) (rs : list RecordObj) :
  i + length rs <= j -> rowKey j ∉ keysFrom i rs.
Proof.
  revert i. induction rs as [|r rs IH]; intros i Hle; cbn.
  - intros H. inversion H.
  - cbn in Hle. apply not_elem_of_cons. split; [|apply IH; lia].
    unfold keyOf. destruct (truthy (extractIdentifier r)).
    + intros H. symmetry in H. exact (rowKey_not_identifier r j H).
    + intros H. apply rowKey_inj in H. lia.
Qed.

End Keys.

(** ** The loop of [requestInsights] *)

Section InsightLoop.

Lemma insightLoop_snoc (i : nat) (rs : list RecordObj) (r : RecordObj) (st : InsightState) :
  insightLoop i (rs ++ [r]) st = insightStep (i + length rs) r (insightLoop i rs st).
Proof.
  revert i st. induction rs as [|r0 rs IH]; intros i st; cbn.
  - rewrite Nat.add_0_r. reflexivity.
  - rewrite IH. rewrite Nat.add_succ_comm. reflexivity.
Qed.

Lemma invariant_current (rs : list RecordObj) (st : InsightState) (k : string) :
  invariant rs st -> default 0 (identifierCounts st !! k) = occ k (keysFrom 0 rs).
Proof.
  intros Hinv. rewrite (inv_counts _ _ Hinv).
  destruct (occ k (keysFrom 0 rs)); reflexivity.
Qed.

Lemma invariant_initial : invariant [] initialState.
Proof.
  split; cbn.
  - intros k. apply lookup_empty.
  - reflexivity.
  - constructor.
  - intros k e. split; [intros H; inversion H|]. intros [H _]. cbn in H. lia.
Qed.

Lemma invariant_step (rs : list RecordObj) (r : RecordObj) (st : InsightState) :
  invariant rs st -> invariant (rs ++ [r]) (insightStep (length rs) r st).
Proof.
  intros Hinv.
  pose proof (invariant_current rs st (keyOf (length rs) r) Hinv) as Hcur.
  assert (Hid : 1 <= occ (keyOf (length rs) r) (keysFrom 0 rs) ->
                extractIdentifier r ≠ ""
                /\ keyOf (length rs) r = extractIdentifier r).
  { intros Hocc. destruct (decide (extractIdentifier r = "")) as [E|E].
    - exfalso. rewrite (keyOf_unidentified _ _ E) in Hocc.
      assert (Hz : occ (rowKey (length rs)) (keysFrom 0 rs) = 0);
        [apply occ_zero, rowKey_fresh; cbn; lia|lia].
    - split; [exact E|apply keyOf_identified, E]. }
  split.
  - intros k. unfold insightStep; cbn [identifierCounts].
    rewrite Hcur, keysFrom_snoc, occ_snoc. cbn [Nat.add].
    destruct (decide (keyOf (length rs) r = k)) as [E|E].
    + rewrite (bool_decide_eq_true_2 _ E). subst k. rewrite lookup_insert_eq.
      replace (_ + 1 =? 0)%nat with false; [reflexivity|].
      symmetry. apply Nat.eqb_neq. lia.
    + rewrite (bool_decide_eq_false_2 _ E). rewrite lookup_insert_ne by exact E.
      rewrite Nat.add_0_r. apply (inv_counts _ _ Hinv).
  - unfold insightStep; cbn [unidentified].
    rewrite List.filter_app, length_app, <- (inv_unidentified _ _ Hinv). cbn.
    destruct (truthy (extractIdentifier r)) eqn:T; cbn.
    + rewrite bool_decide_eq_false_2 by (apply truthy_true, T). cbn. lia.
    + rewrite bool_decide_eq_true_2 by (apply truthy_false, T). reflexivity.
  - unfold insightStep; cbn [duplicateMap].
    destruct (1 <=? _)%nat; [|exact (inv_nodup _ _ Hinv)].
    apply set_NoDup, (inv_nodup _ _ Hinv).
  - intros k e. unfold insightStep; cbn [duplicateMap].
    rewrite Hcur, keysFrom_snoc, occ_snoc. cbn [Nat.add].
    destruct (1 <=? occ (keyOf (length rs) r) (keysFrom 0 rs))%nat eqn:L.
    + apply Nat.leb_le in L. destruct (Hid L) as [Hne Hkey].
      rewrite (proj2 (truthy_true _) Hne).
      rewrite (elem_of_set _ _ _ _ _ (inv_nodup _ _ Hinv)).
      rewrite (inv_duplicates _ _ Hinv).
      destruct (decide (keyOf (length rs) r = k)) as [E|E].
      * rewrite (bool_decide_eq_true_2 _ E). rewrite <- Hkey. subst k. split.
        -- intros [[_ ->]|[Hk _]]; [|contradiction]. split; [lia|reflexivity].
        -- intros [_ ->]. left. split; reflexivity.
      * rewrite (bool_decide_eq_false_2 _ E). rewrite Nat.add_0_r. split.
        -- intros [[-> _]|[_ H]]; [contradiction|exact H].
        -- intros H. right. split; [intros ->; apply E; reflexivity|exact H].
    + apply Nat.leb_gt in L. rewrite (inv_duplicates _ _ Hinv).
      destruct (decide (keyOf (length rs) r = k)) as [E|E].
      * rewrite (bool_decide_eq_true_2 _ E). subst k. split; intros [H _]; lia.
      * rewrite (bool_decide_eq_false_2 _ E). rewrite Nat.add_0_r. reflexivity.
Qed.

Lemma invariant_loop (rs : list RecordObj) :
  invariant rs (insightLoop 0 rs initialState).
Proof.
  induction rs as [|r rs IH] using rev_ind; [exact invariant_initial|].
  rewrite insightLoop_snoc. cbn [Nat.add]. apply invariant_step, IH.
Qed.

(** The number of entries of [identifierCounts] is the number of distinct
    keys. *)
Lemma invariant_size (rs : list RecordObj) (st : InsightState) :
  invariant rs st -> size (identifierCounts st) = length (remove_dups (keysFrom 0 rs)).
Proof.
  intros Hinv.
  rewrite <- (size_dom (D := gset string)).
  rewrite <- (size_list_to_set (C := gset string) (remove_dups (keysFrom 0 rs)))
    by apply NoDup_remove_dups.
  f_equal. apply set_eq. intros k.
  rewrite elem_of_dom, elem_of_list_to_set, elem_of_remove_dups.
  rewrite (inv_counts _ _ Hinv).
  destruct (occ k (keysFrom 0 rs) =? 0)%nat eqn:E.
  - apply Nat.eqb_eq, occ_zero in E. split; [intros [x Hx]; discriminate Hx|contradiction].
  - apply Nat.eqb_neq in E. split; [|intros _; eexists; reflexivity].
    intros _. destruct (decide (k ∈ keysFrom 0 rs)) as [H|H]; [exact H|].
    apply occ_zero in H. contradiction.
Qed.

End InsightLoop.

Section RowKeys.

Lemma occ_cons (k k' : string) (ks : list string) :
  occ k (k' :: ks) = (if bool_decide (k' = k) then 1 else 0) + occ k ks.
Proof. unfold occ. cbn. destruct (bool_decide (k' = k)); reflexivity. Qed.

Lemma rowKey_below (i j : nat) (rs : list RecordObj) :
  j < i -> rowKey j ∉ keysFrom i rs.
Proof.
  revert i. induction rs as [|r rs IH]; intros i Hlt; cbn.
  - intros H. inversion H.
  - apply not_elem_of_cons. split; [|apply IH; lia].
    unfold keyOf. destruct (truthy (extractIdentifier r)).
    + intros H. symmetry in H. exact (rowKey_not_identifier r j H).
    + intros H. apply rowKey_inj in H. lia.
Qed.

(** A row key occurs at most once among the keys. *)
Lemma occ_rowKey_le (i j : nat) (rs : list RecordObj) :
  occ (rowKey j) (keysFrom i rs) <= 1.
Proof.
  revert i. induction rs as [|r rs IH]; intros i; cbn [keysFrom].
  - cbn. lia.
  - rewrite occ_cons. destruct (decide (keyOf i r = rowKey j)) as [E|E].
    + rewrite (bool_decide_eq_true_2 _ E).
      assert (Hij : i = j).
      { unfold keyOf in E. destruct (truthy (extractIdentifier r)).
        - exfalso. exact (rowKey_not_identifier r j E).
        - apply rowKey_inj, E. }
      subst j.
      assert (Hz : occ (rowKey i) (keysFrom (S i) rs) = 0);
        [apply occ_zero, rowKey_below; lia|lia].
    + rewrite (bool_decide_eq_false_2 _ E). apply IH.
Qed.

Lemma occ_pos (k : string) (ks : list string) : k ∈ ks -> 1 <= occ k ks.
Proof.
  intros Hin. destruct (occ k ks) eqn:E; [|lia].
  apply occ_zero in E. contradiction.
Qed.

Lemma remove_dups_length (ks : list string) : length (remove_dups ks) <= length ks.
Proof.
  induction ks as [|k ks IH]; cbn; [lia|].
  destruct (decide_rel elem_of k ks); cbn; lia.
Qed.

End RowKeys.

(** **** C8 *)

(** C8. For a request list that is not empty, the unique count and the
    duplicate count add up to the number of client records; the unique count
    is the number of distinct keys, the key of a row being its identifier or,
    when the identifier is empty, the row key made of its index; the
    duplicate count is the number of records minus the number of distinct
    keys (it is never negative); the unidentified count is the number of
    records whose identifier is empty. *)
Theorem requestInsights_counts (clientRecords : list RecordObj) :
  clientRecords ≠ [] ->
  let insights := requestInsights clientRecords in
  let keys := keysFrom 0 clientRecords in
  (Z.of_nat (uniqueCount insights) + duplicateCount insights
   = Z.of_nat (length clientRecords))%Z
  /\ uniqueCount insights = length (remove_dups keys)
  /\ duplicateCount insights
     = (Z.of_nat (length clientRecords) - Z.of_nat (length (remove_dups keys)))%Z
  /\ (0 <= duplicateCount insights)%Z
  /\ unidentifiedCount insights
     = length (List.filter (fun r => bool_decide (extractIdentifier r = "")) clientRecords)
  /\ (forall i r, clientRecords !! i = Some r ->
        keys !! i = Some (if bool_decide (extractIdentifier r = "") then rowKey i
                          else extractIdentifier r)).
Proof.
  intros Hne insights keys.
  pose proof (invariant_loop clientRecords) as Hinv.
  pose proof (invariant_size _ _ Hinv) as Hsize.
  pose proof (remove_dups_length keys) as Hlen.
  pose proof (keysFrom_length 0 clientRecords) as Hk.
  assert (E : insights
              = let st := insightLoop 0 clientRecords initialState in
                {| uniqueCount := size (identifierCounts st);
                   duplicateCount := Z.of_nat (length clientRecords)
                                     - Z.of_nat (size (identifierCounts st));
                   unidentifiedCount := unidentified st;
                   duplicates := sortBy byOccurrences (JsMap.values (duplicateMap st)) |}).
  { subst insights. unfold requestInsights.
    destruct clientRecords; [contradiction|reflexivity]. }
  rewrite E. cbn. fold keys in Hsize, Hlen, Hk. rewrite Hsize.
  repeat split; try lia.
  - apply (inv_unidentified _ _ Hinv).
  - intros i r Hr. subst keys. rewrite (keysFrom_lookup 0 i _ r Hr). cbn [Nat.add].
    f_equal. unfold keyOf, truthy.
    destruct (decide (extractIdentifier r = "")) as [H|H].
    + rewrite (bool_decide_eq_true_2 _ H), bool_decide_eq_false_2; [reflexivity|].
      intros Hn. contradiction.
    + rewrite (bool_decide_eq_false_2 _ H), bool_decide_eq_true_2; [reflexivity|exact H].
Qed.

Lemma requestInsights_counts_witness :
  let insights := requestInsights Scenario.mixed in
  let keys := keysFrom 0 Scenario.mixed in
  (Z.of_nat (uniqueCount insights) + duplicateCount insights
   = Z.of_nat (length Scenario.mixed))%Z
  /\ uniqueCount insights = length (remove_dups keys)
  /\ duplicateCount insights
     = (Z.of_nat (length Scenario.mixed) - Z.of_nat (length (remove_dups keys)))%Z
  /\ (0 <= duplicateCount insights)%Z
  /\ unidentifiedCount insights
     = length (List.filter (fun r => bool_decide (extractIdentifier r = "")) Scenario.mixed)
  /\ (forall i r, Scenario.mixed !! i = Some r ->
        keys !! i = Some (if bool_decide (extractIdentifier r = "") then rowKey i
                          else extractIdentifier r)).
Proof.
  apply (requestInsights_counts Scenario.mixed). discriminate.
Defined.

Lemma requestInsights_duplicates_eq (clientRecords : list RecordObj) :
  duplicates (requestInsights clientRecords)
  = sortBy byOccurrences
      (JsMap.values (duplicateMap (insightLoop 0 clientRecords initialState))).
Proof. destruct clientRecords; reflexivity. Qed.

Lemma duplicates_spec (clientRecords : list RecordObj) (e : DuplicateEntry) :
  e ∈ duplicates (requestInsights clientRecords)
  <-> 2 <= occ (identifier e) (keysFrom 0 clientRecords)
      /\ occurrences e = occ (identifier e) (keysFrom 0 clientRecords).
Proof.
  pose proof (invariant_loop clientRecords) as Hinv.
  rewrite requestInsights_duplicates_eq.
  rewrite (sortBy_perm byOccurrences).
  unfold JsMap.values. rewrite list_elem_of_fmap. split.
  - intros ([k e'] & -> & Hin). apply (inv_duplicates _ _ Hinv) in Hin as [H2 ->].
    cbn. split; [exact H2|reflexivity].
  - intros [H2 Hocc]. exists (identifier e, e). split; [reflexivity|].
    apply (inv_duplicates _ _ Hinv). split; [exact H2|].
    destruct e as [i o]. cbn in *. subst o. reflexivity.
Qed.

(** **** C9 *)

(** C9. Duplicate detection is keyed by the canonical identifier: the
    duplicate list holds exactly one entry for each key that occurs at least
    twice among the keys of the client records, the occurrences of the entry
    being the total number of occurrences of the key, and no other entry; the
    list is sorted by occurrences, largest first. The key of a row that has
    an identifier is this identifier, and two records with the same field
    names whose values differ in case only have the same identifier: the
    records PN:A1 and PN:a1 give the single entry A1 with 2 occurrences. *)
Theorem requestInsights_duplicates (clientRecords : list RecordObj) :
  let insights := requestInsights clientRecords in
  let keys := keysFrom 0 clientRecords in
  StronglySorted (descending occurrences) (duplicates insights)
  /\ NoDup (map identifier (duplicates insights))
  /\ (forall e, e ∈ duplicates insights
        <-> 2 <= occ (identifier e) keys /\ occurrences e = occ (identifier e) keys)
  /\ (forall i r, clientRecords !! i = Some r -> extractIdentifier r ≠ "" ->
        keys !! i = Some (extractIdentifier r))
  /\ (forall r r' : RecordObj,
        Forall2 (fun e e' => e.1 = e'.1 /\ toUpperCase e.2 = toUpperCase e'.2) r r' ->
        extractIdentifier r = extractIdentifier r')
  /\ extractIdentifier [("PN", "A1")] = extractIdentifier [("PN", "a1")]
  /\ duplicates (requestInsights Scenario.client4)
     = [{| identifier := "A1"; occurrences := 2 |}].
Proof.
  intros insights keys.
  pose proof (invariant_loop clientRecords) as Hinv.
  split; [|split; [|split; [|split; [|split; [|split]]]]].
  - subst insights. rewrite requestInsights_duplicates_eq.
    apply (sortBy_sorted occurrences byOccurrences). intros a b. reflexivity.
  - subst insights. rewrite requestInsights_duplicates_eq.
    rewrite (sortBy_perm byOccurrences).
    unfold JsMap.values. rewrite map_map.
    erewrite map_ext_in; [exact (inv_nodup _ _ Hinv)|].
    intros [k e] Hin. apply list_elem_of_In, (inv_duplicates _ _ Hinv) in Hin as [_ ->].
    reflexivity.
  - intros e. apply duplicates_spec.
  - intros i r Hr Hne. subst keys. rewrite (keysFrom_lookup 0 i _ r Hr).
    cbn [Nat.add]. rewrite keyOf_identified by exact Hne. reflexivity.
  - apply extractIdentifier_same_case.
  - reflexivity.
  - vm_compute. reflexivity.
Qed.

Lemma requestInsights_duplicates_witness :
  {| identifier := "A1"; occurrences := 2 |} ∈ duplicates (requestInsights Scenario.client4).
Proof.
  apply (proj1 (proj2 (proj2 (requestInsights_duplicates Scenario.client4)))).
  split; vm_compute; [lia|reflexivity].
Defined.

(** **** C10 *)

(** C10. The identifier of a record is left unchanged by upper-casing (the
    empty identifier included); hence it is never a row key, and two row keys
    are equal only for the same index. In a request list, the key of a row
    without identifier occurs once among the keys, no other row has it, and
    no entry of the duplicate list carries it: every entry of the duplicate
    list carries the non-empty identifier of a client record. *)
Theorem identifiers_uppercase_row_keys_apart :
  (forall r, toUpperCase (extractIdentifier r) = extractIdentifier r)
  /\ (forall r i, extractIdentifier r ≠ rowKey i)
  /\ (forall i j, rowKey i = rowKey j -> i = j)
  /\ (forall (clientRecords : list RecordObj) i r,
        clientRecords !! i = Some r -> extractIdentifier r = "" ->
        keysFrom 0 clientRecords !! i = Some (rowKey i)
        /\ occ (rowKey i) (keysFrom 0 clientRecords) = 1
        /\ (forall j, keysFrom 0 clientRecords !! j = Some (rowKey i) -> j = i)
        /\ (forall e, e ∈ duplicates (requestInsights clientRecords) ->
              identifier e ≠ rowKey i))
  /\ (forall (clientRecords : list RecordObj) e,
        e ∈ duplicates (requestInsights clientRecords) ->
        exists r, r ∈ clientRecords /\ extractIdentifier r ≠ ""
                  /\ identifier e = extractIdentifier r).
Proof.
  split; [|split; [|split; [|split]]].
  - intros r. destruct (extractIdentifier_upper r) as [v ->]. apply toUpperCase_idem.
  - apply rowKey_not_identifier.
  - apply rowKey_inj.
  - intros clientRecords i r Hr Hid.
    assert (Hk : keysFrom 0 clientRecords !! i = Some (rowKey i)).
    { rewrite (keysFrom_lookup 0 i _ r Hr). cbn [Nat.add].
      rewrite keyOf_unidentified by exact Hid. reflexivity. }
    assert (Hocc : occ (rowKey i) (keysFrom 0 clientRecords) = 1).
    { pose proof (occ_rowKey_le 0 i clientRecords).
      pose proof (occ_pos _ _ (list_elem_of_lookup_2 _ _ _ Hk)). lia. }
    split; [exact Hk|]. split; [exact Hocc|]. split.
    + intros j Hj.
      destruct (clientRecords !! j) as [rj|] eqn:Ej.
      * rewrite (keysFrom_lookup 0 j _ rj Ej) in Hj. cbn [Nat.add] in Hj.
        injection Hj as Hj. unfold keyOf in Hj.
        destruct (truthy (extractIdentifier rj)).
        -- exfalso. exact (rowKey_not_identifier rj i Hj).
        -- apply rowKey_inj, Hj.
      * apply lookup_ge_None in Ej. apply lookup_lt_Some in Hj.
        rewrite keysFrom_length in Hj. lia.
    + intros e He Heq. apply duplicates_spec in He as [H2 _].
      rewrite Heq in H2. lia.
  - intros clientRecords e He. apply duplicates_spec in He as [H2 _].
    assert (Hin : identifier e ∈ keysFrom 0 clientRecords).
    { destruct (decide (identifier e ∈ keysFrom 0 clientRecords)) as [H|H]; [exact H|].
      apply occ_zero in H. lia. }
    apply list_elem_of_lookup in Hin as [j Hj].
    destruct (clientRecords !! j) as [rj|] eqn:Ej.
    + rewrite (keysFrom_lookup 0 j _ rj Ej) in Hj. cbn [Nat.add] in Hj.
      injection Hj as Hj. exists rj.
      split; [apply (list_elem_of_lookup_2 _ _ _ Ej)|].
      destruct (decide (extractIdentifier rj = "")) as [E|E].
      * exfalso. rewrite (keyOf_unidentified _ _ E) in Hj.
        pose proof (occ_rowKey_le 0 j clientRecords) as Hle.
        rewrite Hj in Hle. lia.
      * split; [exact E|]. rewrite <- Hj. apply keyOf_identified, E.
    + apply lookup_ge_None in Ej. apply lookup_lt_Some in Hj.
      rewrite keysFrom_length in Hj. lia.
Qed.

Lemma identifiers_uppercase_row_keys_apart_witness :
  toUpperCase (extractIdentifier [("PN", "a1")]) = extractIdentifier [("PN", "a1")]
  /\ extractIdentifier [("PN", "row-1")] ≠ rowKey 1
  /\ occ (rowKey 1) (keysFrom 0 Scenario.mixed) = 1.
Proof.
  destruct identifiers_uppercase_row_keys_apart as (Hup & Hrow & _ & Hocc & _).
  split; [apply Hup|]. split; [apply Hrow|].
  apply (Hocc Scenario.mixed 1 [("Notes", "")]); reflexivity.
Defined.

(** ** The tally of the top distributions *)

Section Tally.

Variable fields : list string.
Variable label : string.

Lemma tally_snoc (items : list FoundItem) (item : FoundItem) :
  tally fields label (items ++ [item]) = tallyStep fields label (tally fields label items) item.
Proof. unfold tally. rewrite fold_left_app. reflexivity. Qed.

(** After the found pairs [items] the map holds, for each value that
    occurs, its number of occurrences. *)
Lemma tally_spec (items : list FoundItem) :
  NoDup (map fst (tally fields label items))
  /\ forall k n, (k, n) ∈ tally fields label items <-> 1 <= n /\ n = occ k (labelsOf fields label items).
Proof.
  induction items as [|item items [IHnd IH]] using rev_ind.
  - split; [constructor|]. intros k n. split; [intros H; inversion H|].
    intros [H1 H2]. cbn in H2. lia.
  - rewrite tally_snoc. unfold tallyStep.
    set (key := labelOf fields label item).
    assert (Hcur : default 0 (JsMap.get (tally fields label items) key) = occ key (labelsOf fields label items)).
    { destruct (JsMap.get (tally fields label items) key) as [n|] eqn:G; cbn.
      - apply (get_Some _ _ _ IHnd), IH in G as [_ ->]. reflexivity.
      - destruct (occ key (labelsOf fields label items)) as [|n] eqn:E; [reflexivity|].
        assert (Hin : (key, S n) ∈ tally fields label items) by (apply IH; split; [lia|congruence]).
        apply (get_Some _ _ _ IHnd) in Hin. congruence. }
    rewrite Hcur. split; [apply set_NoDup, IHnd|].
    intros k n. rewrite (elem_of_set _ _ _ _ _ IHnd), IH.
    unfold labelsOf. rewrite map_app. cbn [map]. fold (labelsOf fields label items). fold key.
    rewrite occ_snoc.
    destruct (decide (key = k)) as [E|E].
    + rewrite (bool_decide_eq_true_2 _ E). subst k. split.
      * intros [[_ ->]|[Hk _]]; [lia|contradiction].
      * intros [_ ->]. left. split; reflexivity.
    + rewrite (bool_decide_eq_false_2 _ E), Nat.add_0_r. split.
      * intros [[-> _]|[_ H]]; [contradiction|exact H].
      * intros H. right. split; [intros ->; apply E; reflexivity|exact H].
Qed.

Lemma tally_length (items : list FoundItem) :
  length (tally fields label items) = length (remove_dups (labelsOf fields label items)).
Proof.
  destruct (tally_spec items) as [Hnd Hspec].
  rewrite <- (length_map fst (tally fields label items)).
  apply Permutation_length, NoDup_Permutation;
    [exact Hnd|apply NoDup_remove_dups|].
  intros k. rewrite elem_of_remove_dups. split.
  - intros Hin. apply list_elem_of_fmap in Hin as ([k' n] & -> & Hin).
    apply Hspec in Hin as [H1 ->]. cbn.
    destruct (decide (k' ∈ labelsOf fields label items)) as [H|H]; [exact H|].
    apply occ_zero in H. lia.
  - intros Hin. apply occ_pos in Hin.
    apply (list_elem_of_fmap_2 fst (tally fields label items) (k, occ k (labelsOf fields label items))).
    apply Hspec. split; [exact Hin|reflexivity].
Qed.

End Tally.

Lemma StronglySorted_map {A B : Type} (R : A -> A -> Prop) (S : B -> B -> Prop)
    (f : A -> B) (l : list A) :
  (forall a b, R a b -> S (f a) (f b)) ->
  StronglySorted R l -> StronglySorted S (map f l).
Proof.
  intros Hf. induction 1 as [|x l Hs IH Hall]; cbn; constructor; [exact IH|].
  apply Forall_map. eapply Forall_impl; [exact Hall|]. intros y Hy. apply Hf, Hy.
Qed.

(** ** Rounding in binary64 *)

Section Binary64Rounding.

Local Open Scope Z_scope.

Section Digits.

Lemma digits2_pos_bounds (m : positive) :
  2 ^ (Zpos (digits2_pos m) - 1) <= Zpos m < 2 ^ Zpos (digits2_pos m).
Proof.
  induction m as [m IH|m IH|]; cbn [digits2_pos].
  - rewrite Pos2Z.inj_succ, (Pos2Z.inj_xI m).
    replace (Z.succ (Zpos (digits2_pos m)) - 1) with (Zpos (digits2_pos m)) by lia.
    rewrite Z.pow_succ_r by lia.
    assert (Hd : 2 ^ Zpos (digits2_pos m) = 2 * 2 ^ (Zpos (digits2_pos m) - 1)).
    { rewrite <- Z.pow_succ_r by lia. f_equal. lia. }
    revert IH Hd. generalize (2 ^ (Zpos (digits2_pos m) - 1)) (2 ^ Zpos (digits2_pos m)).
    intros; lia.
  - rewrite Pos2Z.inj_succ, (Pos2Z.inj_xO m).
    replace (Z.succ (Zpos (digits2_pos m)) - 1) with (Zpos (digits2_pos m)) by lia.
    rewrite Z.pow_succ_r by lia.
    assert (Hd : 2 ^ Zpos (digits2_pos m) = 2 * 2 ^ (Zpos (digits2_pos m) - 1)).
    { rewrite <- Z.pow_succ_r by lia. f_equal. lia. }
    revert IH Hd. generalize (2 ^ (Zpos (digits2_pos m) - 1)) (2 ^ Zpos (digits2_pos m)).
    intros; lia.
  - cbn. lia.
Qed.

Lemma pow2_lt_inv (a b : Z) : 0 <= a -> 0 <= b -> 2 ^ a < 2 ^ b -> a < b.
Proof.
  intros Ha Hb H. destruct (Z_lt_le_dec a b) as [L|L]; [exact L|].
  pose proof (Z.pow_le_mono_r 2 b a ltac:(lia) L). lia.
Qed.

(** The number of binary digits is determined by the enclosing powers. *)
Lemma Zdigits2_unique (m k : Z) :
  0 < k -> 2 ^ (k - 1) <= m < 2 ^ k -> Zdigits2 m = k.
Proof.
  intros Hk [Hlo Hhi].
  assert (0 < m) by (pose proof (Z.pow_pos_nonneg 2 (k - 1)); lia).
  destruct m as [|p|p]; try lia. cbn [Zdigits2].
  pose proof (digits2_pos_bounds p) as [Dlo Dhi].
  assert (Zpos (digits2_pos p) - 1 < k).
  { apply pow2_lt_inv; lia. }
  assert (k - 1 < Zpos (digits2_pos p)).
  { apply pow2_lt_inv; lia. }
  lia.
Qed.

Lemma Zdigits2_bounds (m : Z) :
  0 < m -> 0 < Zdigits2 m /\ 2 ^ (Zdigits2 m - 1) <= m < 2 ^ Zdigits2 m.
Proof.
  intros H. destruct m as [|p|p]; try lia. cbn [Zdigits2].
  split; [lia|apply digits2_pos_bounds].
Qed.

End Digits.

Section ShiftRight.

Lemma shr_1_m (mrs : shr_record) :
  0 <= shr_m mrs -> shr_m (shr_1 mrs) = shr_m mrs / 2.
Proof.
  destruct mrs as [m r s]. cbn [shr_m]. intros H.
  destruct m as [|[p|p|]|p]; cbn [shr_1 shr_m]; try lia.
  - reflexivity.
  - rewrite (Pos2Z.inj_xI p). apply Z.div_unique with (r := 1); lia.
  - rewrite (Pos2Z.inj_xO p). apply Z.div_unique with (r := 0); lia.
  - reflexivity.
Qed.

Lemma iter_shr_1_m (p : positive) (mrs : shr_record) :
  0 <= shr_m mrs ->
  shr_m (SpecFloat.iter_pos shr_1 p mrs) = shr_m mrs / 2 ^ Zpos p.
Proof.
  revert mrs. induction p as [p IH|p IH|]; intros mrs H; cbn [SpecFloat.iter_pos].
  - assert (H1 : 0 <= shr_m (shr_1 mrs)).
    { rewrite shr_1_m by exact H. apply Z.div_pos; lia. }
    assert (H2 : 0 <= shr_m (SpecFloat.iter_pos shr_1 p (shr_1 mrs))).
    { rewrite IH by exact H1. apply Z.div_pos; [exact H1|]. apply Z.pow_pos_nonneg; lia. }
    rewrite IH by exact H2. rewrite IH by exact H1. rewrite shr_1_m by exact H.
    rewrite !Z.div_div by (try apply Z.pow_pos_nonneg; lia).
    f_equal. rewrite (Pos2Z.inj_xI p).
    replace (2 * Zpos p + 1) with (1 + Zpos p + Zpos p) by lia.
    rewrite !Z.pow_add_r by lia. change (2 ^ 1) with 2. lia.
  - assert (H2 : 0 <= shr_m (SpecFloat.iter_pos shr_1 p mrs)).
    { rewrite IH by exact H. apply Z.div_pos; [exact H|]. apply Z.pow_pos_nonneg; lia. }
    rewrite IH by exact H2. rewrite IH by exact H.
    rewrite !Z.div_div by (try apply Z.pow_pos_nonneg; lia).
    f_equal. rewrite (Pos2Z.inj_xO p).
    replace (2 * Zpos p) with (Zpos p + Zpos p) by lia.
    rewrite !Z.pow_add_r by lia. reflexivity.
  - rewrite shr_1_m by exact H. reflexivity.
Qed.

Lemma shr_1_exact (c : Z) :
  0 <= c ->
  shr_1 (Build_shr_record (2 * c) false false) = Build_shr_record c false false.
Proof. intros H. destruct c as [|p|p]; try lia; reflexivity. Qed.

(** Shifting out zero bits of an exact value leaves it exact. *)
Lemma iter_shr_1_exact (p : positive) (c : Z) :
  0 <= c ->
  SpecFloat.iter_pos shr_1 p (Build_shr_record (c * 2 ^ Zpos p) false false)
  = Build_shr_record c false false.
Proof.
  revert c. induction p as [p IH|p IH|]; intros c H; cbn [SpecFloat.iter_pos].
  - rewrite (Pos2Z.inj_xI p).
    replace (2 * Zpos p + 1) with (1 + Zpos p + Zpos p) by lia.
    rewrite !Z.pow_add_r by lia. change (2 ^ 1) with 2.
    replace (c * (2 * 2 ^ Zpos p * 2 ^ Zpos p)) with (2 * (c * 2 ^ Zpos p * 2 ^ Zpos p)) by lia.
    assert (Hp : 0 < 2 ^ Zpos p) by (apply Z.pow_pos_nonneg; lia).
    rewrite shr_1_exact by nia. rewrite IH by nia. apply IH, H.
  - rewrite (Pos2Z.inj_xO p).
    replace (2 * Zpos p) with (Zpos p + Zpos p) by lia.
    rewrite !Z.pow_add_r by lia.
    assert (Hp : 0 < 2 ^ Zpos p) by (apply Z.pow_pos_nonneg; lia).
    rewrite Z.mul_assoc. rewrite IH by nia. apply IH, H.
  - change (2 ^ 1) with 2. rewrite Z.mul_comm. apply shr_1_exact, H.
Qed.

End ShiftRight.

Section RoundAux.

Lemma fexp_normal (e : Z) : -1021 <= e -> fexp 53 1024 e = e - 53.
Proof. unfold fexp, emin. lia. Qed.

Lemma round_nearest_even_bounds (m : Z) (l : location) :
  m <= round_nearest_even m l <= m + 1.
Proof.
  unfold round_nearest_even. destruct l as [|[]]; try lia.
  destruct (Z.even m); lia.
Qed.

Lemma shr_m_of_loc (m : Z) (l : location) : shr_m (shr_record_of_loc m l) = m.
Proof. destruct l as [|[]]; reflexivity. Qed.

Lemma pow2_pos (k : Z) : 0 <= k -> 0 < 2 ^ k.
Proof. intros H. apply Z.pow_pos_nonneg; lia. Qed.

(** The shift that brings a mantissa of at least 53 digits down to 53. *)
Lemma shr_fexp_normal (mx ex : Z) (lx : location) :
  0 < mx -> 53 <= Zdigits2 mx -> -1074 <= ex ->
  exists mrs,
    shr_fexp 53 1024 mx ex lx = (mrs, ex + (Zdigits2 mx - 53))
    /\ shr_m mrs = mx / 2 ^ (Zdigits2 mx - 53)
    /\ (lx = loc_Exact -> mx mod 2 ^ (Zdigits2 mx - 53) = 0 ->
        mrs = Build_shr_record (mx / 2 ^ (Zdigits2 mx - 53)) false false).
Proof.
  intros Hmx Hd Hex. unfold shr_fexp.
  rewrite fexp_normal by lia.
  replace (Zdigits2 mx + ex - 53 - ex) with (Zdigits2 mx - 53) by lia.
  destruct (Zdigits2 mx - 53) as [|p|p] eqn:En; try lia.
  - exists (shr_record_of_loc mx lx). cbn [shr].
    split; [f_equal; lia|]. rewrite shr_m_of_loc, Z.pow_0_r, Z.div_1_r.
    split; [reflexivity|]. intros -> _. reflexivity.
  - exists (SpecFloat.iter_pos shr_1 p (shr_record_of_loc mx lx)). cbn [shr].
    split; [reflexivity|].
    split; [rewrite iter_shr_1_m; rewrite shr_m_of_loc; [reflexivity|lia]|].
    intros -> Hmod. cbn [shr_record_of_loc].
    apply Z.div_exact in Hmod; [|pose proof (pow2_pos (Zpos p)); lia].
    rewrite Hmod at 1. rewrite Z.mul_comm. apply iter_shr_1_exact.
    apply Z.div_pos; [lia|apply pow2_pos; lia].
Qed.

Lemma normal_quotient (mx : Z) :
  0 < mx -> 53 <= Zdigits2 mx ->
  2 ^ 52 <= mx / 2 ^ (Zdigits2 mx - 53) < 2 ^ 53.
Proof.
  intros Hmx Hd. destruct (Zdigits2_bounds mx Hmx) as [_ [Hlo Hhi]].
  pose proof (pow2_pos (Zdigits2 mx - 53) ltac:(lia)) as Hp.
  replace (Zdigits2 mx - 1) with (52 + (Zdigits2 mx - 53)) in Hlo by lia.
  replace (Zdigits2 mx) with (53 + (Zdigits2 mx - 53)) in Hhi by lia.
  rewrite Z.pow_add_r in Hlo, Hhi by lia.
  split.
  - apply Z.div_le_lower_bound; [exact Hp|]. lia.
  - apply Z.div_lt_upper_bound; [exact Hp|]. lia.
Qed.

(** Rounding a positive mantissa of at least 53 digits, in the range of the
    normal numbers: the result is a normal number whose mantissa, at the
    exponent of the shifted input, is the shifted mantissa or its
    successor, and is the shifted mantissa itself when nothing is lost. *)
Lemma binary_round_aux_normal (mx ex : Z) (lx : location) :
  0 < mx -> 53 <= Zdigits2 mx -> -1074 <= ex -> Zdigits2 mx + ex <= 1000 ->
  exists (m : positive) (e m1 : Z),
    binary_round_aux 53 1024 false mx ex lx = S754_finite false m e
    /\ mx / 2 ^ (Zdigits2 mx - 53) <= m1 <= mx / 2 ^ (Zdigits2 mx - 53) + 1
    /\ (lx = loc_Exact -> mx mod 2 ^ (Zdigits2 mx - 53) = 0 ->
        m1 = mx / 2 ^ (Zdigits2 mx - 53))
    /\ ex + (Zdigits2 mx - 53) <= e
    /\ Zpos m * 2 ^ (e - (ex + (Zdigits2 mx - 53))) = m1
    /\ 2 ^ 52 <= Zpos m < 2 ^ 53.
Proof.
  intros Hmx Hd Hex Hmax.
  pose proof (normal_quotient mx Hmx Hd) as Hq.
  destruct (shr_fexp_normal mx ex lx Hmx Hd Hex) as (mrs & E1 & Hm & Hexact).
  unfold binary_round_aux. rewrite E1.
  set (n := Zdigits2 mx - 53) in *.
  set (m1 := round_nearest_even (shr_m mrs) (loc_of_shr_record mrs)).
  assert (Hm1 : mx / 2 ^ n <= m1 <= mx / 2 ^ n + 1).
  { subst m1. rewrite <- Hm. apply round_nearest_even_bounds. }
  assert (Hm1x : lx = loc_Exact -> mx mod 2 ^ n = 0 -> m1 = mx / 2 ^ n).
  { intros Hl Hmod. subst m1. rewrite (Hexact Hl Hmod). reflexivity. }
  change (2 ^ 52) with 4503599627370496 in *.
  change (2 ^ 53) with 9007199254740992 in *.
  destruct (Z_lt_le_dec m1 9007199254740992) as [Hlt|Hge].
  - assert (D1 : Zdigits2 m1 = 53) by (apply Zdigits2_unique; [lia|]; cbn; lia).
    destruct (shr_fexp_normal m1 (ex + n) loc_Exact) as (mrs2 & E2 & Hm2 & _); try lia.
    rewrite E2. rewrite D1 in *. change (53 - 53) with 0 in *.
    rewrite Z.pow_0_r, Z.div_1_r in Hm2. rewrite Hm2.
    destruct m1 as [|p1|p1]; try lia.
    replace (ex + n + 0 <=? 1024 - 53) with true by (symmetry; apply Z.leb_le; lia).
    exists p1, (ex + n + 0), (Zpos p1).
    split; [reflexivity|]. split; [exact Hm1|]. split; [exact Hm1x|].
    split; [lia|]. split; [|lia].
    replace (ex + n + 0 - (ex + n)) with 0 by lia. rewrite Z.pow_0_r. lia.
  - assert (Em1 : m1 = 9007199254740992) by lia.
    assert (D1 : Zdigits2 m1 = 54) by (rewrite Em1; reflexivity).
    destruct (shr_fexp_normal m1 (ex + n) loc_Exact) as (mrs2 & E2 & Hm2 & _); try lia.
    rewrite E2. rewrite D1 in *. change (54 - 53) with 1 in *.
    rewrite Em1 in Hm2. change (9007199254740992 / 2 ^ 1) with 4503599627370496 in Hm2.
    rewrite Hm2.
    replace (ex + n + 1 <=? 1024 - 53) with true by (symmetry; apply Z.leb_le; lia).
    exists 4503599627370496%positive, (ex + n + 1), m1.
    split; [reflexivity|]. split; [exact Hm1|]. split; [exact Hm1x|].
    split; [lia|]. split; [|lia].
    replace (ex + n + 1 - (ex + n)) with 1 by lia. rewrite Em1. reflexivity.
Qed.

End RoundAux.

Section Binary64.

Lemma iter_xO (k p : positive) : Zpos (Pos.iter xO p k) = Zpos p * 2 ^ Zpos k.
Proof.
  induction k as [|k IH] using Pos.peano_ind.
  - cbn [Pos.iter]. rewrite (Pos2Z.inj_xO p). change (2 ^ 1) with 2. lia.
  - rewrite Pos.iter_succ, (Pos2Z.inj_xO (Pos.iter xO p k)), IH.
    rewrite Pos2Z.inj_succ, Z.pow_succ_r by lia. lia.
Qed.

Lemma normal_digits (m : positive) : normal m -> Zdigits2 (Zpos m) = 53.
Proof. intros H. apply Zdigits2_unique; [lia|exact H]. Qed.

(** The binary64 number of a positive integer below 2^53 is exact. *)
Lemma binary_normalize_exact (z : Z) :
  0 < z < 2 ^ 53 ->
  exists (m : positive) (e : Z),
    binary_normalize 53 1024 z 0 false = S754_finite false m e
    /\ normal m /\ -52 <= e <= 0 /\ Zpos m = z * 2 ^ (- e).
Proof.
  intros [Hlo Hhi]. destruct z as [|p|p]; try lia.
  cbn [binary_normalize]. unfold binary_round.
  destruct (Zdigits2_bounds (Zpos p) Hlo) as [Hd0 [Dlo Dhi]]. cbn [Zdigits2] in *.
  set (d := Zpos (digits2_pos p)) in *.
  assert (Hd : d <= 53).
  { assert (d - 1 < 53) by (apply pow2_lt_inv; lia). lia. }
  rewrite fexp_normal by lia.
  assert (Ealign : exists mz, shl_align p 0 (d + 0 - 53) = (mz, d - 53)
                              /\ Zpos mz = Zpos p * 2 ^ (53 - d)).
  { unfold shl_align. destruct (d + 0 - 53 - 0) as [|k|k] eqn:Ek; try lia.
    - exists p. split; [f_equal; lia|].
      replace (53 - d) with 0 by lia. rewrite Z.pow_0_r. lia.
    - exists (Pos.iter xO p k). split; [f_equal; lia|].
      rewrite iter_xO. f_equal. f_equal. lia. }
  destruct Ealign as (mz & -> & Hmz).
  assert (Hnz : normal mz).
  { unfold normal. rewrite Hmz.
    pose proof (pow2_pos (53 - d) ltac:(lia)) as Hp.
    assert (E52 : 2 ^ 52 = 2 ^ (d - 1) * 2 ^ (53 - d))
      by (rewrite <- Z.pow_add_r by lia; f_equal; lia).
    assert (E53 : 2 ^ 53 = 2 ^ d * 2 ^ (53 - d))
      by (rewrite <- Z.pow_add_r by lia; f_equal; lia).
    rewrite E52, E53.
    split; [apply Z.mul_le_mono_nonneg_r; lia|apply Z.mul_lt_mono_pos_r; lia]. }
  pose proof (normal_digits mz Hnz) as Dz.
  destruct (binary_round_aux_normal (Zpos mz) (d - 53) loc_Exact)
    as (m & e & m1 & E & Hm1 & Hex & He & Hval & Hn); try lia.
  rewrite Dz in *. change (53 - 53) with 0 in *.
  rewrite Z.pow_0_r, Z.div_1_r in *.
  specialize (Hex eq_refl (Z.mod_1_r _)). subst m1.
  assert (Ee : e = d - 53).
  { destruct (Z.eq_dec e (d - 53)) as [Heq|Hne]; [exact Heq|exfalso].
    assert (Hp : 2 ^ 1 <= 2 ^ (e - (d - 53 + 0))) by (apply Z.pow_le_mono_r; lia).
    change (2 ^ 1) with 2 in Hp. unfold normal in Hn, Hnz. nia. }
  exists m, e. split; [exact E|]. split; [exact Hn|]. split; [lia|].
  subst e. replace (d - 53 - (d - 53 + 0)) with 0 in Hval by lia.
  rewrite Z.pow_0_r, Z.mul_1_r in Hval. rewrite Hval, Hmz. f_equal. f_equal. lia.
Qed.

End Binary64.

Section Quotient.

Lemma div_eucl_pair (a b : Z) : Z.div_eucl a b = (a / b, a mod b).
Proof. unfold Z.div, Z.modulo. destruct (Z.div_eucl a b). reflexivity. Qed.

Lemma new_location_zero (nb : Z) : new_location nb 0 = loc_Exact.
Proof.
  unfold new_location, new_location_even, new_location_odd.
  destruct (Z.even nb); reflexivity.
Qed.

Lemma pow2_split (a b : Z) : 0 <= b <= a -> 2 ^ a = 2 ^ (a - b) * 2 ^ b.
Proof. intros H. rewrite <- Z.pow_add_r by lia. f_equal. lia. Qed.

(** From a bound on the mantissa at the exponent of the shifted input to
    the same bound at the exponent of the result. *)
Lemma bound_at_result (m c j k : Z) :
  0 < c -> 0 <= j -> 0 <= k -> 2 ^ 52 <= m -> c < 2 ^ 52 ->
  m * 2 ^ j <= c * 2 ^ k ->
  j <= k /\ m <= c * 2 ^ (k - j).
Proof.
  intros Hc Hj Hk Hm Hc52 H.
  pose proof (pow2_pos j Hj) as Pj. pose proof (pow2_pos k Hk) as Pk.
  assert (Hjk : j <= k).
  { destruct (Z_le_gt_dec j k) as [L|G]; [exact L|exfalso].
    rewrite (pow2_split j k) in H by lia.
    pose proof (pow2_pos (j - k) ltac:(lia)) as Pjk.
    assert (m * 2 ^ (j - k) <= c) by nia. nia. }
  split; [exact Hjk|].
  rewrite (pow2_split k j) in H by lia.
  pose proof (pow2_pos (k - j) ltac:(lia)).
  apply Z.mul_le_mono_pos_r with (p := 2 ^ j); [exact Pj|]. lia.
Qed.

(** Rounding keeps a value below a bound of the form [c * 2 ^ k] that is
    itself free of rounding at the exponent of the shifted input. *)
Lemma round_below (q m1 c k n : Z) (lossless : Prop) :
  0 <= n <= k -> 0 < c -> 0 <= q ->
  q <= c * 2 ^ k ->
  q / 2 ^ n <= m1 <= q / 2 ^ n + 1 ->
  (q = c * 2 ^ k -> lossless) ->
  (lossless -> q mod 2 ^ n = 0 -> m1 = q / 2 ^ n) ->
  m1 <= c * 2 ^ (k - n).
Proof.
  intros Hn Hc Hq Hle Hm1 Hexact Hm1x.
  pose proof (pow2_pos n ltac:(lia)) as Pn.
  pose proof (pow2_pos (k - n) ltac:(lia)) as Pkn.
  rewrite (pow2_split k n) in Hle by lia.
  assert (Hdiv : q / 2 ^ n <= c * 2 ^ (k - n)).
  { apply Z.div_le_upper_bound; [exact Pn|]. lia. }
  destruct (Z_lt_le_dec (q / 2 ^ n) (c * 2 ^ (k - n))) as [Hlt|Hge]; [lia|].
  assert (Heq : q / 2 ^ n = c * 2 ^ (k - n)) by lia.
  pose proof (Z.mul_div_le q (2 ^ n) Pn) as Hmd.
  assert (Hq' : q = c * 2 ^ (k - n) * 2 ^ n) by nia.
  assert (Hm1' : m1 = q / 2 ^ n); [|lia].
  apply Hm1x.
  - apply Hexact. rewrite (pow2_split k n) by lia. lia.
  - rewrite Hq'. apply Z.mod_mul. lia.
Qed.

(** The quotient of two normal numbers whose exact quotient is at most 1
    is a normal number that is at most 1. *)
Lemma SFdiv_le_one (mf mt : positive) (ef et : Z) :
  normal mf -> normal mt -> -52 <= ef <= 0 -> -52 <= et <= 0 ->
  Zpos mf * 2 ^ (- et) <= Zpos mt * 2 ^ (- ef) ->
  exists (mq : positive) (eq : Z),
    SFdiv 53 1024 (S754_finite false mf ef) (S754_finite false mt et)
    = S754_finite false mq eq
    /\ normal mq /\ -105 <= eq <= -52 /\ Zpos mq <= 2 ^ (- eq).
Proof.
  intros Hf Ht Hef Het Hle.
  cbn [SFdiv xorb]. unfold SFdiv_core_binary.
  rewrite (normal_digits mf Hf), (normal_digits mt Ht).
  rewrite fexp_normal by lia.
  replace (Z.min (53 + ef - (53 + et) - 53) (ef - et)) with (ef - et - 53) by lia.
  replace (ef - et - (ef - et - 53)) with 53 by lia.
  cbv iota beta. rewrite Z.shiftl_mul_pow2 by lia.
  rewrite div_eucl_pair.
  set (a := Zpos mf * 2 ^ 53). set (b := Zpos mt). set (q := a / b).
  set (g := 53 + et - ef).
  unfold normal in Hf, Ht.
  change (2 ^ 52) with 4503599627370496 in Hf, Ht.
  change (2 ^ 53) with 9007199254740992 in Hf, Ht.
  assert (Hb : 0 < b) by (subst b; lia).
  assert (Ha : a = Zpos mf * 9007199254740992) by reflexivity.
  assert (Hqlo : 2 ^ 52 <= q).
  { subst q. apply Z.div_le_lower_bound; [exact Hb|].
    change (2 ^ 52) with 4503599627370496. subst b. lia. }
  assert (Hqhi : q < 2 ^ 54).
  { subst q. apply Z.div_lt_upper_bound; [exact Hb|].
    change (2 ^ 54) with 18014398509481984. subst b. lia. }
  assert (Hq0 : 0 < q) by (change (2 ^ 52) with 4503599627370496 in Hqlo; lia).
  destruct (Zdigits2_bounds q Hq0) as [Dpos [Dlo Dhi]].
  assert (Hd : 53 <= Zdigits2 q <= 54).
  { assert (52 < Zdigits2 q) by (apply pow2_lt_inv; lia).
    assert (Zdigits2 q - 1 < 54) by (apply pow2_lt_inv; lia). lia. }
  (* the exact quotient is at most 2 ^ g *)
  assert (Hag : a <= b * 2 ^ g).
  { pose proof (pow2_pos (- et) ltac:(lia)) as Pt.
    apply Z.mul_le_mono_pos_r with (p := 2 ^ (- et)); [exact Pt|].
    replace (b * 2 ^ g * 2 ^ (- et)) with (b * 2 ^ (- ef) * 2 ^ 53).
    - subst a b. change (2 ^ 53) with 9007199254740992. nia.
    - rewrite <- !Z.mul_assoc, <- !Z.pow_add_r by lia. f_equal. f_equal. lia. }
  assert (Hqg : q <= 1 * 2 ^ g).
  { subst q. apply Z.div_le_upper_bound; [exact Hb|]. lia. }
  destruct (binary_round_aux_normal q (ef - et - 53) (new_location b (a mod b)))
    as (mq & eq & m1 & E & Hm1 & Hex & He & Hval & Hn); try lia.
  exists mq, eq. split; [exact E|]. split; [exact Hn|].
  set (n := Zdigits2 q - 53) in *.
  assert (Hbound : m1 <= 1 * 2 ^ (g - n)).
  { apply (round_below q m1 1 g n (new_location b (a mod b) = loc_Exact));
      try lia; [|exact Hex].
    intros Hq. assert (Hab : a = b * q) by
      (pose proof (Z.mul_div_le a b Hb); fold q in H; nia).
    replace (a mod b) with 0; [apply new_location_zero|].
    symmetry. rewrite Hab, Z.mul_comm. apply Z.mod_mul. lia. }
  rewrite <- Hval in Hbound.
  destruct (bound_at_result (Zpos mq) 1 (eq - (ef - et - 53 + n)) (g - n))
    as [Hj Hmq]; try lia.
  replace (g - n - (eq - (ef - et - 53 + n))) with (- eq) in Hmq by lia.
  rewrite Z.mul_1_l in Hmq. split; [|exact Hmq].
  destruct (Z_le_gt_dec 52 (- eq)) as [L|G]; [lia|exfalso].
  pose proof (Z.pow_lt_mono_r 2 (- eq) 52 ltac:(lia) ltac:(lia) ltac:(lia)). lia.
Qed.

End Quotient.

Section Percentage.

(** The binary64 number 100. *)
Lemma of_nat_100 : of_nat 100 = S754_finite false 7036874417766400 (-46).
Proof. vm_compute. reflexivity. Qed.

(** A normal number that is at most 1, multiplied by 100, is a normal
    number that is at most 100. *)
Lemma SFmul_100_le (mq : positive) (eq : Z) :
  normal mq -> -105 <= eq <= -52 -> Zpos mq <= 2 ^ (- eq) ->
  exists (m : positive) (e : Z),
    SFmul 53 1024 (S754_finite false mq eq) (S754_finite false 7036874417766400 (-46))
    = S754_finite false m e
    /\ e < 0 /\ Zpos m <= 100 * 2 ^ (- e).
Proof.
  intros Hq Heq Hle. cbn [SFmul xorb].
  set (mx := Zpos (mq * 7036874417766400)).
  assert (Emx : mx = Zpos mq * (100 * 2 ^ 46)) by reflexivity.
  unfold normal in Hq.
  assert (Hlo : 2 ^ 104 <= mx).
  { rewrite Emx. change (2 ^ 104) with (2 ^ 52 * 4503599627370496).
    change (100 * 2 ^ 46) with 7036874417766400. lia. }
  assert (Hhi : mx < 2 ^ 106).
  { rewrite Emx. change (2 ^ 106) with (2 ^ 53 * 9007199254740992).
    change (100 * 2 ^ 46) with 7036874417766400. lia. }
  assert (Hmx0 : 0 < mx) by (subst mx; lia).
  destruct (Zdigits2_bounds mx Hmx0) as [Dpos [Dlo Dhi]].
  assert (Hd : 105 <= Zdigits2 mx <= 106).
  { assert (104 < Zdigits2 mx) by (apply pow2_lt_inv; lia).
    assert (Zdigits2 mx - 1 < 106) by (apply pow2_lt_inv; lia). lia. }
  destruct (binary_round_aux_normal mx (eq + -46) loc_Exact)
    as (m & e & m1 & E & Hm1 & Hex & He & Hval & Hn); try lia.
  exists m, e. split; [exact E|].
  set (n := Zdigits2 mx - 53) in *.
  assert (Hmxle : mx <= 100 * 2 ^ (46 - eq)).
  { rewrite Emx. replace (46 - eq) with (46 + - eq) by lia.
    rewrite Z.pow_add_r by lia.
    pose proof (pow2_pos 46 ltac:(lia)). nia. }
  assert (Hbound : m1 <= 100 * 2 ^ (46 - eq - n)).
  { apply (round_below mx m1 100 (46 - eq) n (loc_Exact = loc_Exact));
      try lia; [reflexivity|exact Hex]. }
  rewrite <- Hval in Hbound.
  destruct (bound_at_result (Zpos m) 100 (e - (eq + -46 + n)) (46 - eq - n))
    as [Hj Hm]; try lia.
  replace (46 - eq - n - (e - (eq + -46 + n))) with (- e) in Hm by lia.
  split; [|exact Hm].
  destruct (Z_lt_le_dec e 0) as [L|G]; [exact L|exfalso].
  assert (Ee : e = 0) by lia. subst e. change (2 ^ (- 0)) with 1 in Hm.
  change (2 ^ 52) with 4503599627370496 in Hn. lia.
Qed.

Lemma Math_round_le_100 (m : positive) (e : Z) :
  e < 0 -> Zpos m <= 100 * 2 ^ (- e) ->
  exists c, Math_round (S754_finite false m e) = Some c /\ 0 <= c <= 100.
Proof.
  intros He Hm. cbn [Math_round cond_Zopp].
  replace (0 <=? e) with false by (symmetry; apply Z.leb_gt; exact He).
  eexists. split; [reflexivity|].
  pose proof (pow2_pos (- e) ltac:(lia)) as Pe.
  assert (E2 : 2 ^ (1 - e) = 2 * 2 ^ (- e)).
  { replace (1 - e) with (Z.succ (- e)) by lia. apply Z.pow_succ_r. lia. }
  rewrite E2. split.
  - apply Z.div_pos; lia.
  - assert (H : (2 * Zpos m + 2 ^ (- e)) / (2 * 2 ^ (- e)) < 101); [|lia].
    apply Z.div_lt_upper_bound; lia.
Qed.

(** [Math.round((a / b) * 100)] for integers [a <= b], [b] positive and
    below 2^53, is an integer between 0 and 100. *)
Lemma percentOf_bounds (a b : nat) :
  (0 < b)%nat -> Z.of_nat b < 2 ^ 53 -> (a <= b)%nat ->
  exists c, percentOf a b = Some c /\ 0 <= c <= 100.
Proof.
  intros Hb Hb53 Hab. unfold percentOf, mul, div, of_nat at 1 2, prec, emax.
  rewrite of_nat_100.
  destruct (binary_normalize_exact (Z.of_nat b)) as (mt & et & Et & Nt & Het & Vt); [lia|].
  rewrite Et.
  destruct a as [|a].
  - cbn. exists 0. split; [reflexivity|lia].
  - destruct (binary_normalize_exact (Z.of_nat (S a))) as (mf & ef & Ef & Nf & Hef & Vf);
      [lia|].
    rewrite Ef.
    destruct (SFdiv_le_one mf mt ef et Nf Nt Hef Het) as (mq & eq & Eq & Nq & Heq & Vq).
    { rewrite Vf, Vt.
      pose proof (pow2_pos (- ef) ltac:(lia)). pose proof (pow2_pos (- et) ltac:(lia)).
      assert (Z.of_nat (S a) <= Z.of_nat b) by lia. nia. }
    rewrite Eq.
    destruct (SFmul_100_le mq eq Nq Heq Vq) as (m & e & Em & He & Vm).
    rewrite Em. apply Math_round_le_100; assumption.
Qed.

End Percentage.

(** The percentage against the exact quotient: each of the three roundings
    (of the quotient, of the product, of [Math.round]) is bounded, and for a
    denominator below 2^32 their sum stays below the distance between the
    exact percentage and the next half-integer it is not equal to. *)

Section Accuracy.

Lemma scale_abs (G J D b : Z) :
  0 < G -> 1 <= J -> 0 <= b -> - (G * b) <= G * (J * D) <= G * b -> - b <= D <= b.
Proof.
  intros HG HJ Hb [Hlo Hhi].
  assert (H1 : J * D <= b) by (apply (Z.mul_le_mono_pos_l _ _ G); [exact HG|exact Hhi]).
  assert (H2 : - b <= J * D).
  { apply (Z.mul_le_mono_pos_l _ _ G); [exact HG|]. lia. }
  nia.
Qed.

Lemma floor_window (x n : Z) : 0 <= n -> x - 2 ^ n < (x / 2 ^ n) * 2 ^ n <= x.
Proof.
  intros Hn. pose proof (pow2_pos n Hn) as P.
  pose proof (Z.mul_div_le x (2 ^ n) P).
  pose proof (Z.mul_succ_div_gt x (2 ^ n) P). lia.
Qed.

(** The quotient of two normal numbers is within one unit of its last place
    of the exact quotient. *)
Lemma SFdiv_near (mf mt mq : positive) (ef et eq : Z) :
  normal mf -> normal mt -> -52 <= ef <= 0 -> -52 <= et <= 0 ->
  SFdiv 53 1024 (S754_finite false mf ef) (S754_finite false mt et)
  = S754_finite false mq eq ->
  exists t j, 0 <= t /\ 0 <= j /\ - eq + ef - et - 53 + t + j = 0
    /\ - (Zpos mt * 2 ^ t)
       <= Zpos mt * (Zpos mq * 2 ^ j * 2 ^ t) - Zpos mf * 2 ^ 53
       <= Zpos mt * 2 ^ t.
Proof.
  intros Hf Ht Hef Het.
  cbn [SFdiv xorb]. unfold SFdiv_core_binary.
  rewrite (normal_digits mf Hf), (normal_digits mt Ht).
  rewrite fexp_normal by lia.
  replace (Z.min (53 + ef - (53 + et) - 53) (ef - et)) with (ef - et - 53) by lia.
  replace (ef - et - (ef - et - 53)) with 53 by lia.
  cbv iota beta. rewrite Z.shiftl_mul_pow2 by lia.
  rewrite div_eucl_pair.
  set (a := Zpos mf * 2 ^ 53). set (b := Zpos mt). set (q := a / b).
  unfold normal in Hf, Ht.
  change (2 ^ 52) with 4503599627370496 in Hf, Ht.
  change (2 ^ 53) with 9007199254740992 in Hf, Ht.
  assert (Hb : 0 < b) by (subst b; lia).
  assert (Ha : a = Zpos mf * 9007199254740992) by reflexivity.
  assert (Hqlo : 2 ^ 52 <= q).
  { subst q. apply Z.div_le_lower_bound; [exact Hb|].
    change (2 ^ 52) with 4503599627370496. subst b. lia. }
  assert (Hqhi : q < 2 ^ 54).
  { subst q. apply Z.div_lt_upper_bound; [exact Hb|].
    change (2 ^ 54) with 18014398509481984. subst b. lia. }
  assert (Hq0 : 0 < q) by (change (2 ^ 52) with 4503599627370496 in Hqlo; lia).
  destruct (Zdigits2_bounds q Hq0) as [Dpos [Dlo Dhi]].
  assert (Hd : 53 <= Zdigits2 q <= 54).
  { assert (52 < Zdigits2 q) by (apply pow2_lt_inv; lia).
    assert (Zdigits2 q - 1 < 54) by (apply pow2_lt_inv; lia). lia. }
  destruct (binary_round_aux_normal q (ef - et - 53) (new_location b (a mod b)))
    as (m & e & m1 & E & Hm1 & _ & He & Hval & _); try lia.
  rewrite E. intros Heq. injection Heq as -> ->.
  set (t := Zdigits2 q - 53) in *.
  exists t, (eq - (ef - et - 53 + t)).
  split; [lia|]. split; [lia|]. split; [lia|].
  rewrite Hval.
  pose proof (floor_window q t ltac:(lia)) as Hw.
  pose proof (pow2_pos t ltac:(lia)) as Pt.
  pose proof (Z.mul_div_le a b Hb) as Hq1.
  pose proof (Z.mul_succ_div_gt a b Hb) as Hq2. fold q in Hq1, Hq2.
  assert (Hup : m1 * 2 ^ t <= q + 2 ^ t) by nia.
  assert (Hdn : q - 2 ^ t < m1 * 2 ^ t) by nia.
  split; nia.
Qed.

(** The product of a normal number below 1 by 100 is within 128 units of the
    last place of the factor of the exact product. *)
Lemma SFmul_100_near (mq m : positive) (eq e : Z) :
  normal mq -> -105 <= eq <= -52 ->
  SFmul 53 1024 (S754_finite false mq eq) (S754_finite false 7036874417766400 (-46))
  = S754_finite false m e ->
  exists d, 0 <= d /\ e = eq + d /\ - 128 <= Zpos m * 2 ^ d - 100 * Zpos mq <= 128.
Proof.
  intros Hq Heq. cbn [SFmul xorb].
  set (mx := Zpos (mq * 7036874417766400)).
  assert (Emx : mx = Zpos mq * 100 * 2 ^ 46).
  { transitivity (Zpos mq * (100 * 2 ^ 46)); [reflexivity|ring]. }
  unfold normal in Hq.
  assert (Hlo : 2 ^ 104 <= mx).
  { rewrite Emx. change (2 ^ 104) with (2 ^ 52 * 4503599627370496).
    change (2 ^ 46) with 70368744177664. lia. }
  assert (Hhi : mx < 2 ^ 106).
  { rewrite Emx. change (2 ^ 106) with (2 ^ 53 * 9007199254740992).
    change (2 ^ 46) with 70368744177664. lia. }
  assert (Hmx0 : 0 < mx) by (subst mx; lia).
  destruct (Zdigits2_bounds mx Hmx0) as [Dpos [Dlo Dhi]].
  assert (Hd : 105 <= Zdigits2 mx <= 106).
  { assert (104 < Zdigits2 mx) by (apply pow2_lt_inv; lia).
    assert (Zdigits2 mx - 1 < 106) by (apply pow2_lt_inv; lia). lia. }
  destruct (binary_round_aux_normal mx (eq + -46) loc_Exact)
    as (m' & e' & m1 & E & Hm1 & _ & He & Hval & _); try lia.
  rewrite E. intros Hme. injection Hme as -> ->.
  set (n := Zdigits2 mx - 53) in *.
  set (j := e - (eq + -46 + n)) in *.
  exists (j + (n - 46)). split; [lia|]. split; [lia|].
  pose proof (floor_window mx n ltac:(lia)) as Hw.
  assert (Hup : m1 * 2 ^ n <= mx + 2 ^ n) by (pose proof (pow2_pos n ltac:(lia)); nia).
  assert (Hdn : mx - 2 ^ n < m1 * 2 ^ n) by nia.
  assert (En : 2 ^ n = 2 ^ 46 * 2 ^ (n - 46)).
  { rewrite <- Z.pow_add_r by lia. f_equal. lia. }
  assert (Hn7 : 2 ^ (n - 46) <= 128).
  { change 128 with (2 ^ 7). apply Z.pow_le_mono_r; lia. }
  rewrite Z.pow_add_r by lia.
  pose proof (pow2_pos (n - 46) ltac:(lia)) as Pn.
  pose proof (pow2_pos j ltac:(lia)) as Pj.
  rewrite <- Hval, En, Emx in Hup, Hdn.
  change (2 ^ 46) with 70368744177664 in Hup, Hdn.
  set (N := 2 ^ (n - 46)) in *. set (J := 2 ^ j) in *.
  split; nia.
Qed.

(** [Math.round] of a positive number with a negative exponent: the floor of
    the number plus one half. *)
Lemma Math_round_floor (m : positive) (e : Z) :
  e < 0 ->
  exists p, Math_round (S754_finite false m e) = Some p
    /\ 2 * 2 ^ (- e) * p <= 2 * Zpos m + 2 ^ (- e) < 2 * 2 ^ (- e) * (p + 1).
Proof.
  intros He. cbn [Math_round cond_Zopp].
  replace (0 <=? e) with false by (symmetry; apply Z.leb_gt; exact He).
  eexists. split; [reflexivity|].
  pose proof (pow2_pos (- e) ltac:(lia)) as Pe.
  assert (E2 : 2 ^ (1 - e) = 2 * 2 ^ (- e)).
  { replace (1 - e) with (Z.succ (- e)) by lia. apply Z.pow_succ_r. lia. }
  rewrite E2.
  pose proof (Z.mul_div_le (2 * Zpos m + 2 ^ (- e)) (2 * 2 ^ (- e)) ltac:(lia)).
  pose proof (Z.mul_succ_div_gt (2 * Zpos m + 2 ^ (- e)) (2 * 2 ^ (- e)) ltac:(lia)).
  lia.
Qed.


(** The three roundings together: the result is within one half of the
    exact percentage. *)
Lemma nearest_from_bounds (a b p mq m S S' D : Z) :
  0 < b -> b < 2 ^ 32 -> 0 <= a ->
  2 ^ 52 <= S -> 0 < S' -> 0 < D -> S = S' * D ->
  0 < mq -> 0 < m ->
  - b <= mq * b - a * S <= b ->
  - 128 <= m * D - 100 * mq <= 128 ->
  2 * S' * p <= 2 * m + S' < 2 * S' * (p + 1) ->
  200 * a - b <= 2 * p * b <= 200 * a + b.
Proof.
  intros Hb Hb32 Ha HS HS' HD ES Hmq Hm F1 F2 F3.
  change (2 ^ 32) with 4294967296 in Hb32.
  change (2 ^ 52) with 4503599627370496 in HS.
  set (U := m * D) in *.
  assert (G1 : 2 * (S * p) <= 2 * U + S) by (subst S U; nia).
  assert (G2 : 2 * U + S < 2 * (S * p) + 2 * S) by (subst S U; nia).
  assert (G3 : 2 * (S * p * b) <= 2 * (U * b) + S * b) by nia.
  assert (G4 : 2 * (U * b) + S * b < 2 * (S * p * b) + 2 * (S * b)) by nia.
  assert (G5 : - (128 * b) <= U * b - 100 * (mq * b) <= 128 * b) by nia.
  set (W := mq * b) in *. set (T := a * S) in *.
  set (K := S * p * b) in *. set (V := U * b) in *. set (Sb := S * b) in *.
  assert (Eup : S * (2 * p * b - 200 * a - b) = 2 * K - 200 * T - Sb)
    by (subst K T Sb; ring).
  assert (Edn : S * (200 * a - b - 2 * p * b) = 200 * T - Sb - 2 * K)
    by (subst K T Sb; ring).
  split.
  - destruct (Z_le_gt_dec (200 * a - b) (2 * p * b)) as [L|G]; [exact L|exfalso].
    assert (S * 1 <= S * (200 * a - b - 2 * p * b))
      by (apply Z.mul_le_mono_nonneg_l; lia).
    lia.
  - destruct (Z_le_gt_dec (2 * p * b) (200 * a + b)) as [L|G]; [exact L|exfalso].
    assert (S * 1 <= S * (2 * p * b - 200 * a - b))
      by (apply Z.mul_le_mono_nonneg_l; lia).
    lia.
Qed.

Lemma percentOf_nearest (a b : nat) :
  (0 < b)%nat -> Z.of_nat b < 2 ^ 32 -> (a <= b)%nat ->
  exists p, percentOf a b = Some p
    /\ 200 * Z.of_nat a - Z.of_nat b <= 2 * p * Z.of_nat b <= 200 * Z.of_nat a + Z.of_nat b.
Proof.
  intros Hb Hb32 Hab.
  assert (Hb53 : Z.of_nat b < 2 ^ 53).
  { change (2 ^ 32) with 4294967296 in Hb32.
    change (2 ^ 53) with 9007199254740992. lia. }
  unfold percentOf, mul, div, of_nat at 1 2, prec, emax.
  rewrite of_nat_100.
  destruct (binary_normalize_exact (Z.of_nat b)) as (mt & et & Et & Nt & Het & Vt); [lia|].
  rewrite Et.
  destruct a as [|a].
  - cbn. exists 0. split; [reflexivity|lia].
  - destruct (binary_normalize_exact (Z.of_nat (S a))) as (mf & ef & Ef & Nf & Hef & Vf);
      [lia|].
    rewrite Ef.
    destruct (SFdiv_le_one mf mt ef et Nf Nt Hef Het) as (mq & eq & Eq & Nq & Heq & Vq).
    { rewrite Vf, Vt.
      pose proof (pow2_pos (- ef) ltac:(lia)). pose proof (pow2_pos (- et) ltac:(lia)).
      assert (Z.of_nat (S a) <= Z.of_nat b) by lia. nia. }
    destruct (SFdiv_near mf mt mq ef et eq Nf Nt Hef Het Eq)
      as (t & j & Ht & Hj & Hexp & Hnear).
    rewrite Eq.
    destruct (SFmul_100_le mq eq Nq Heq Vq) as (m & e & Em & He & Vm).
    destruct (SFmul_100_near mq m eq e Nq Heq Em) as (d & Hd & Ee & Hmul).
    rewrite Em.
    destruct (Math_round_floor m e He) as (p & Ep & Hp).
    exists p. split; [exact Ep|].
    set (za := Z.of_nat (S a)) in *. set (zb := Z.of_nat b) in *.
    assert (HS : 2 ^ 52 <= 2 ^ (- eq)) by (apply Z.pow_le_mono_r; lia).
    assert (HS' : 0 < 2 ^ (- e)) by (apply pow2_pos; lia).
    assert (HD : 0 < 2 ^ d) by (apply pow2_pos; lia).
    assert (ES : 2 ^ (- eq) = 2 ^ (- e) * 2 ^ d).
    { rewrite <- Z.pow_add_r by lia. f_equal. lia. }
    apply (nearest_from_bounds za zb p (Zpos mq) (Zpos m) (2 ^ (- eq)) (2 ^ (- e)) (2 ^ d)
             ltac:(lia) Hb32 ltac:(lia) HS HS' HD ES ltac:(lia) ltac:(lia));
      [|exact Hmul|exact Hp].
    rewrite Vt, Vf in Hnear.
    pose proof (pow2_pos (- et) ltac:(lia)) as Pet.
    pose proof (pow2_pos t Ht) as Pt.
    pose proof (pow2_pos j Hj) as Pj.
    assert (Epow : 2 ^ (- ef) * 2 ^ 53 = 2 ^ (- et) * 2 ^ t * 2 ^ j * 2 ^ (- eq)).
    { rewrite <- !Z.pow_add_r by lia. f_equal. lia. }
    apply (scale_abs (2 ^ (- et) * 2 ^ t) (2 ^ j)); [nia|lia|lia|].
    replace (2 ^ (- et) * 2 ^ t * (2 ^ j * (Zpos mq * zb - za * 2 ^ (- eq))))
      with (zb * 2 ^ (- et) * (Zpos mq * 2 ^ j * 2 ^ t) - za * (2 ^ (- ef) * 2 ^ 53))
      by (rewrite Epow; ring).
    replace (2 ^ (- et) * 2 ^ t * zb) with (zb * 2 ^ (- et) * 2 ^ t) by ring.
    replace (za * (2 ^ (- ef) * 2 ^ 53)) with (za * 2 ^ (- ef) * 2 ^ 53) by ring.
    exact Hnear.
Qed.

Lemma nearest_exactRound (a b : nat) (p : Z) :
  (0 < b)%nat ->
  200 * Z.of_nat a - Z.of_nat b <= 2 * p * Z.of_nat b <= 200 * Z.of_nat a + Z.of_nat b ->
  p = exactRound a b \/ (halfway a b /\ p = exactRound a b - 1).
Proof.
  intros Hb [Hlo Hhi]. unfold exactRound, halfway.
  set (x := 200 * Z.of_nat a + Z.of_nat b). set (y := 2 * Z.of_nat b).
  assert (Hy : 0 < y) by (subst y; lia).
  pose proof (Z.div_mod x y ltac:(lia)) as Hdm.
  pose proof (Z.mod_pos_bound x y Hy) as Hmod.
  set (q := x / y) in *. set (r := x mod y) in *.
  assert (Hp1 : p * y <= x) by (subst x y; lia).
  assert (Hp2 : x - y <= p * y) by (subst x y; lia).
  assert (Hle : p <= q) by nia.
  assert (Hge : q - 1 <= p) by nia.
  destruct (Z.eq_dec p q) as [E|E]; [left; exact E|right].
  assert (Ep : p = q - 1) by lia. split; [|exact Ep].
  subst p. nia.
Qed.

Lemma percentOf_isPercentage (a b : nat) :
  (0 < b)%nat -> Z.of_nat b < 2 ^ 32 -> (a <= b)%nat ->
  isPercentage a b (percentOf a b).
Proof.
  intros Hb Hb32 Hab.
  destruct (percentOf_nearest a b Hb Hb32 Hab) as (p & Ep & Hp).
  exists p. split; [exact Ep|]. split.
  - assert (Z.of_nat a <= Z.of_nat b) by lia. nia.
  - apply nearest_exactRound; assumption.
Qed.

End Accuracy.

End Binary64Rounding.

(** ** The top distributions *)

Lemma topDistribution_spec (fields : list string) (label : string)
    (foundItems : list FoundItem) :
  isTopDistribution fields label foundItems (topDistribution fields label foundItems).
Proof.
  unfold isTopDistribution. cbv zeta.
  split.
  { intros item. unfold labelOf, truthy.
    destruct (decide (getFieldValue (catalog item) fields = "")) as [E|E].
    - rewrite (bool_decide_eq_true_2 _ E), bool_decide_eq_false_2; [reflexivity|].
      intros H. contradiction.
    - rewrite (bool_decide_eq_false_2 _ E), bool_decide_eq_true_2; [reflexivity|exact E]. }
  destruct foundItems as [|item0 items0].
  { cbn. split; [reflexivity|]. split; [constructor|].
    split; [intros e He; inversion He|]. split; [constructor|].
    intros n e Hn. inversion Hn. }
  set (items := item0 :: items0).
  set (names := labelsOf fields label items).
  set (counts := tally fields label items).
  set (sorted := sortBy byCount counts).
  set (mk := fun e : string * nat =>
               {| name := e.1; count := e.2; percentage := percentOf e.2 (length items) |}).
  assert (Etop : topDistribution fields label items = map mk (take 3 sorted)) by reflexivity.
  rewrite Etop. clear Etop.
  destruct (tally_spec fields label items) as [Hnd Hspec].
  fold counts in Hnd, Hspec. fold names in Hspec.
  assert (Hperm : sorted ≡ₚ counts) by apply sortBy_perm.
  assert (Hsorted : StronglySorted (descending snd) sorted).
  { apply (sortBy_sorted snd byCount). intros a b. reflexivity. }
  assert (Hname : map name (map mk (take 3 sorted)) = take 3 (map fst sorted)).
  { rewrite map_map. apply eq_sym, firstn_map. }
  assert (Hndsorted : NoDup (map fst sorted)).
  { assert (Hp : map fst sorted ≡ₚ map fst counts)
      by (apply (fmap_Permutation fst), Hperm).
    rewrite Hp. exact Hnd. }
  split; [|split; [|split; [|split]]].
  - rewrite length_map, length_take. f_equal.
    rewrite (Permutation_length Hperm). apply tally_length.
  - rewrite Hname. exact (sublist_NoDup _ _ Hndsorted (sublist_take _ _)).
  - intros e He. apply list_elem_of_fmap in He as ([k n] & -> & Hin).
    apply (subseteq_take 3 sorted) in Hin. rewrite Hperm in Hin.
    apply Hspec in Hin as [H1 ->].
    assert (Hle : occ k names <= length items).
    { etransitivity; [apply filter_length_le|].
      unfold names, labelsOf. rewrite length_map. reflexivity. }
    cbn.
    split; [|split; [reflexivity|]].
    + destruct (decide (k ∈ names)) as [H|H]; [exact H|]. apply occ_zero in H. lia.
    + intros H32. apply percentOf_isPercentage; [lia|exact H32|exact Hle].
  - apply (StronglySorted_map (descending snd)); [intros a b H; exact H|].
    rewrite <- (take_drop 3 sorted) in Hsorted.
    apply StronglySorted_app_1_l in Hsorted. exact Hsorted.
  - intros n e Hn Hnot He.
    apply list_elem_of_fmap in He as ([k c] & -> & Hin). cbn.
    assert (Hc : (n, occ n names) ∈ sorted).
    { rewrite Hperm. apply Hspec. split; [apply occ_pos, Hn|reflexivity]. }
    rewrite <- (take_drop 3 sorted) in Hc. apply elem_of_app in Hc as [Hc|Hc].
    + exfalso. apply Hnot. rewrite Hname, firstn_map.
      apply (list_elem_of_fmap_2 fst _ (n, occ n names)). exact Hc.
    + apply (sorted_take_drop snd sorted 3 (k, c) (n, occ n names) Hsorted Hin Hc).
Qed.

(** **** C6 *)

(** C6 as stated fails where round is the rounding of the exact quotient: of
    40 found pairs, 23 of one manufacturer, the percentage is 57, while the
    exact percentage 57.5 rounds to 58 (with halves rounded up, as
    [exactRound] does, and also with halves rounded to even or away from
    zero). *)
Lemma topDistribution_percentage_not_exact_round :
  ~ (forall (foundItems : list FoundItem) (e : TopEntry),
        e ∈ topManufacturers foundItems ->
        percentage e = Some (exactRound (count e) (length foundItems))).
Proof.
  intros H.
  specialize (H Samples.fortyFound
                {| name := "Acme"; count := 23; percentage := Some 57%Z |}).
  assert (Hin : {| name := "Acme"; count := 23; percentage := Some 57%Z |}
                ∈ topManufacturers Samples.fortyFound).
  { replace (topManufacturers Samples.fortyFound)
      with [ {| name := "Acme"; count := 23; percentage := Some 57%Z |};
             {| name := "Bolt"; count := 17; percentage := Some 43%Z |} ]
      by (vm_compute; reflexivity).
    left. }
  specialize (H Hin). vm_compute in H. discriminate H.
Qed.

(** C6 (amended). The top manufacturers and the top families are computed from
    the found pairs alone. The value of a pair is the one [getFieldValue]
    resolves in its catalog record, or the fixed label when that is empty; the
    entries listed are those of at most three distinct values, each with its
    number of occurrences among the found pairs; they are sorted by count,
    largest first, and a value that is left out occurs no more often than any
    listed one. The percentage of an entry,
    [Math.round((count / found.length) * 100)] evaluated in binary64, is an
    integer between 0 and 100: the exact percentage rounded to the nearest
    integer, except that where the exact percentage lies halfway between two
    integers the lower one may result. *)
Theorem top_manufacturers_and_families (foundItems : list FoundItem) :
  isTopDistribution MANUFACTURER_FIELDS "Unspecified manufacturer" foundItems
    (topManufacturers foundItems)
  /\ isTopDistribution FAMILY_FIELDS "General catalog" foundItems
       (topFamilies foundItems).
Proof. split; apply topDistribution_spec. Qed.

Lemma top_manufacturers_and_families_witness :
  length (topManufacturers Scenario.foundSample)
  = min 3 (length (remove_dups
                     (labelsOf MANUFACTURER_FIELDS "Unspecified manufacturer"
                        Scenario.foundSample)))
  /\ StronglySorted (descending count) (topManufacturers Scenario.foundSample)
  /\ StronglySorted (descending count) (topFamilies Scenario.foundSample)
  /\ isPercentage 23 40 (Some 57%Z)
  /\ isPercentage 2 4 (Some 50%Z).
Proof.
  destruct (top_manufacturers_and_families Scenario.foundSample) as [Hm Hf].
  destruct (top_manufacturers_and_families Samples.fortyFound) as [Hm40 _].
  unfold isTopDistribution in Hm, Hf, Hm40. split; [|split; [|split; [|split]]].
  - exact (proj1 (proj2 Hm)).
  - exact (proj1 (proj2 (proj2 (proj2 (proj2 Hm))))).
  - exact (proj1 (proj2 (proj2 (proj2 (proj2 Hf))))).
  - apply (proj2 (proj2 (proj1 (proj2 (proj2 (proj2 Hm40)))
                           {| name := "Acme"; count := 23; percentage := Some 57%Z |}
                           ltac:(vm_compute; left)))).
    reflexivity.
  - apply (proj2 (proj2 (proj1 (proj2 (proj2 (proj2 Hm)))
                           {| name := "Acme"; count := 2; percentage := Some 50%Z |}
                           ltac:(vm_compute; left)))).
    reflexivity.
Defined.


Lemma matchResult_found_le (active : option CatalogFile) (clientRecords : list RecordObj) :
  length (found (matchResult active clientRecords)) <= length clientRecords.
Proof.
  destruct active as [file|]; [|cbn; lia].
  rewrite matchResult_active. cbn.
  pose proof (parts_total (buildIndex (records file)) clientRecords). lia.
Qed.

(** **** C7 *)

(** C7 as stated fails where round is the rounding of the exact quotient:
    with 23 of 40 client records found the coverage is 57, while the exact
    percentage 57.5 rounds to 58 (with halves rounded up, as [exactRound]
    does, and also with halves rounded to even or away from zero). *)
Lemma matchStats_coverage_not_exact_round :
  ~ (forall (active : option CatalogFile) (clientRecords : list RecordObj),
        let result := matchResult active clientRecords in
        let stats := matchStats clientRecords result in
        Stats.total stats ≠ 0 ->
        Stats.coverage stats
        = Some (exactRound (Stats.found stats) (Stats.total stats))).
Proof.
  intros H. specialize (H (Some Scenario.catalog1) Samples.fortyRequests).
  cbv zeta in H. specialize (H ltac:(discriminate)).
  vm_compute in H. discriminate H.
Qed.

(** C7 (amended). The statistics report the number of client records as total
    and the length of the found list as found. The coverage is 0 when the
    total is 0. Otherwise it is [Math.round((found / total) * 100)] evaluated
    in binary64: whenever found is at most total (and the total is below
    2^32, as the length of an array is) it is an integer between 0 and 100,
    the exact percentage rounded to the nearest integer, except that where
    the exact percentage lies halfway between two integers the lower one may
    result. The bound 0..100 holds up to a total of 2^53. For the result of
    the match computation found is at most total. *)
Theorem matchStats_coverage (clientRecords : list RecordObj) (result : MatchResult) :
  let stats := matchStats clientRecords result in
  Stats.total stats = length clientRecords
  /\ Stats.found stats = length (found result)
  /\ (Stats.total stats = 0 -> Stats.coverage stats = Some 0%Z)
  /\ (Stats.total stats ≠ 0 ->
        (Z.of_nat (Stats.total stats) < 2 ^ 32)%Z ->
        Stats.found stats <= Stats.total stats ->
        isPercentage (Stats.found stats) (Stats.total stats) (Stats.coverage stats))
  /\ ((Z.of_nat (Stats.total stats) < 2 ^ 53)%Z ->
        Stats.found stats <= Stats.total stats ->
        exists c, Stats.coverage stats = Some c /\ (0 <= c <= 100)%Z)
  /\ (forall active, result = matchResult active clientRecords ->
        Stats.found stats <= Stats.total stats).
Proof.
  cbv zeta. unfold matchStats. cbn [Stats.total Stats.found Stats.coverage].
  split; [reflexivity|]. split; [reflexivity|].
  split; [intros ->; reflexivity|].
  split.
  - intros Hne H32 Hle. destruct (length clientRecords) as [|n] eqn:E; [contradiction|].
    cbn [Nat.eqb]. apply percentOf_isPercentage; [lia|exact H32|exact Hle].
  - split.
    + intros H53 Hle. destruct (length clientRecords) as [|n] eqn:E.
      * exists 0%Z. split; [reflexivity|lia].
      * cbn [Nat.eqb]. apply percentOf_bounds; [lia|exact H53|exact Hle].
    + intros active ->. apply matchResult_found_le.
Qed.

Lemma matchStats_coverage_witness :
  Stats.coverage (matchStats [] emptyResult) = Some 0%Z
  /\ Stats.coverage (matchStats Scenario.mixed
                       (matchResult (Some Scenario.catalog1) Scenario.mixed))
     = Some 50%Z
  /\ isPercentage 2 4 (Some 50%Z)
  /\ Stats.coverage (matchStats Samples.fortyRequests
                       (matchResult (Some Scenario.catalog1) Samples.fortyRequests))
     = Some 57%Z
  /\ isPercentage 23 40 (Some 57%Z)
  /\ exists c,
       Stats.coverage (matchStats Scenario.mixed
                         (matchResult (Some Scenario.catalog1) Scenario.mixed)) = Some c
       /\ (0 <= c <= 100)%Z.
Proof.
  split; [|split; [|split; [|split; [|split]]]].
  - apply (matchStats_coverage [] emptyResult). reflexivity.
  - vm_compute. reflexivity.
  - apply (matchStats_coverage Scenario.mixed
             (matchResult (Some Scenario.catalog1) Scenario.mixed)).
    + discriminate.
    + vm_compute. reflexivity.
    + vm_compute. lia.
  - vm_compute. reflexivity.
  - apply (matchStats_coverage Samples.fortyRequests
             (matchResult (Some Scenario.catalog1) Samples.fortyRequests)).
    + discriminate.
    + vm_compute. reflexivity.
    + vm_compute. lia.
  - apply (matchStats_coverage Scenario.mixed
             (matchResult (Some Scenario.catalog1) Scenario.mixed)).
    + vm_compute. reflexivity.
    + vm_compute. lia.
Defined.

(** ** The scenarios of the specification, evaluated *)

Example scenario1 :
  matchResult (Some Scenario.catalog1) Scenario.client1
  = {| found := [{| requested := [("PN", "abc-1")]; catalog := Scenario.acme |}];
       missing := [] |}
  /\ Stats.coverage (matchStats Scenario.client1
                       (matchResult (Some Scenario.catalog1) Scenario.client1))
     = Some 100%Z.
Proof. split; vm_compute; reflexivity. Qed.

Example scenario2 :
  matchResult (Some Scenario.emptyCatalog) Scenario.client2
  = {| found := [];
       missing := [{| record := [("SKU", "X9")]; reason := "Not present in catalog" |}] |}.
Proof. vm_compute. reflexivity. Qed.

Example scenario3 :
  extractIdentifier [("Notes", "loose part, no id")] = "LOOSE PART, NO ID"
  /\ missing (matchResult (Some Scenario.catalog1) Scenario.client3)
     = [{| record := [("Notes", "loose part, no id")]; reason := "Not present in catalog" |}].
Proof. split; vm_compute; reflexivity. Qed.

Example scenario4 :
  requestInsights Scenario.client4
  = {| uniqueCount := 1; duplicateCount := 1; unidentifiedCount := 0;
       duplicates := [{| identifier := "A1"; occurrences := 2 |}] |}.
Proof. vm_compute. reflexivity. Qed.

Example scenario5 :
  buildIndex [Scenario.first5; Scenario.second5] !! "A1" = Some Scenario.second5.
Proof. vm_compute. reflexivity. Qed.

(** The quotient and the product are rounded before [Math.round] is applied:
    29 found of 200 give 14, not 15. *)
Example percentOf_29_200 : percentOf 29 200 = Some 14%Z /\ percentOf 1 8 = Some 13%Z.
Proof. split; vm_compute; reflexivity. Qed.

Example percentOf_23_40 : percentOf 23 40 = Some 57%Z /\ exactRound 23 40 = 58%Z.
Proof. split; vm_compute; reflexivity. Qed.

Example top_sample :
  topManufacturers Scenario.foundSample
  = [ {| name := "Acme"; count := 2; percentage := Some 50%Z |};
      {| name := "Bolt"; count := 1; percentage := Some 25%Z |};
      {| name := "Unspecified manufacturer"; count := 1; percentage := Some 25%Z |} ].
Proof. vm_compute. reflexivity. Qed.

(** * Properties of the remaining functions *)

(** ** [trim] *)

Section Trim.

Lemma trimStart_head (s : string) : headNotWhite (trimStart s).
Proof.
  induction s as [|c s IH]; cbn; [exact I|].
  destruct (is_white c) eqn:E; [exact IH|exact E].
Qed.

Lemma trimStart_fixed (s : string) : headNotWhite s -> trimStart s = s.
Proof. destruct s as [|c s]; cbn; [reflexivity|]. intros ->. reflexivity. Qed.

Lemma trimEnd_cons (c : ascii) (s : string) :
  is_white c = false -> trimEnd (String c s) = String c (trimEnd s).
Proof. intros H. cbn. rewrite H. destruct (trimEnd s); reflexivity. Qed.

Lemma trimEnd_head (s : string) : headNotWhite s -> headNotWhite (trimEnd s).
Proof.
  destruct s as [|c s]; [intros _; exact I|].
  intros H. cbn in H. rewrite trimEnd_cons by exact H. exact H.
Qed.

Lemma trimEnd_unfold (c : ascii) (s : string) :
  trimEnd (String c s)
  = match trimEnd s with
    | EmptyString => if is_white c then EmptyString else String c EmptyString
    | t => String c t
    end.
Proof. reflexivity. Qed.

Lemma trimEnd_idem (s : string) : trimEnd (trimEnd s) = trimEnd s.
Proof.
  induction s as [|c s IH]; [reflexivity|].
  rewrite trimEnd_unfold. destruct (trimEnd s) as [|d t] eqn:E.
  - destruct (is_white c) eqn:W; [reflexivity|]. cbn. rewrite W. reflexivity.
  - rewrite trimEnd_unfold, IH. reflexivity.
Qed.

Lemma trim_idem (s : string) : trim (trim s) = trim s.
Proof.
  unfold trim.
  rewrite (trimStart_fixed (trimEnd (trimStart s)))
    by apply trimEnd_head, trimStart_head.
  apply trimEnd_idem.
Qed.

End Trim.

(** ** Assignment to an object *)

Section Assign.

Import JsObject.

Lemma parseDigits_acc (s : string) (acc n : N) :
  parseDigits acc s = Some n -> (acc <= n)%N.
Proof.
  revert acc. induction s as [|c s IH]; intros acc; cbn.
  - intros [= ->]. lia.
  - destruct (_ && _)%bool; [|discriminate]. intros H. apply IH in H. lia.
Qed.

Lemma arrayIndex_Some (k : string) (n : N) : arrayIndex k = Some n -> k = pretty n.
Proof.
  unfold arrayIndex. destruct (parseDigits 0 k) as [m|]; [|discriminate].
  destruct (bool_decide (pretty m = k)) eqn:E; cbn; [|discriminate].
  destruct (m <? 4294967295)%N; [|discriminate].
  intros [= <-]. apply bool_decide_eq_true in E. symmetry. exact E.
Qed.

Lemma arrayIndex_inj (k k' : string) (n : N) :
  arrayIndex k = Some n -> arrayIndex k' = Some n -> k = k'.
Proof.
  intros H H'. apply arrayIndex_Some in H, H'. congruence.
Qed.

Lemma insertIndex_perm (n : N) (k v : string) (o : list (string * string)) :
  insertIndex n k v o ≡ₚ (k, v) :: o.
Proof.
  induction o as [|[k' v'] o IH]; [reflexivity|].
  cbn. destruct (arrayIndex k') as [n'|]; [|reflexivity].
  destruct (n' <? n)%N; [|reflexivity].
  etransitivity; [apply perm_skip, IH|]. apply Permutation_swap.
Qed.

Lemma set_elem {V : Type} (m : list (string * V)) (k : string) (v : V) (e : string * V) :
  e ∈ JsMap.set m k v -> e ∈ m \/ e = (k, v).
Proof.
  induction m as [|[k0 v0] m IH]; cbn.
  - intros H. apply list_elem_of_singleton in H. right. exact H.
  - destruct (bool_decide (k0 = k)).
    + intros H. apply elem_of_cons in H as [->|H]; [right; reflexivity|].
      left. right. exact H.
    + intros H. apply elem_of_cons in H as [->|H]; [left; left|].
      destruct (IH H) as [H'|H']; [left; right; exact H'|right; exact H'].
Qed.

(** What an assignment leaves in the object: the properties it had, and the
    one assigned. *)
Lemma assign_elem (o : list (string * string)) (k v : string) (e : string * string) :
  e ∈ assign o k v -> e ∈ o \/ (e = (k, v) /\ k ≠ "__proto__").
Proof.
  unfold assign. destruct (decide (k = "__proto__")) as [Hp|Hp].
  { rewrite (bool_decide_eq_true_2 _ Hp). intros H. left. exact H. }
  rewrite (bool_decide_eq_false_2 _ Hp).
  destruct (bool_decide (k ∈ map fst o)).
  - intros H. apply set_elem in H as [H| ->]; [left; exact H|right; split; [reflexivity|exact Hp]].
  - destruct (arrayIndex k) as [n|].
    + rewrite insertIndex_perm. intros H.
      apply elem_of_cons in H as [->|H]; [right; split; [reflexivity|exact Hp]|left; exact H].
    + intros H. apply elem_of_app in H as [H|H]; [left; exact H|].
      apply list_elem_of_singleton in H. right. split; [exact H|exact Hp].
Qed.

Lemma assign_nonempty (o : list (string * string)) (k v : string) :
  k ≠ "__proto__" -> assign o k v ≠ [].
Proof.
  intros Hp. unfold assign. rewrite (bool_decide_eq_false_2 _ Hp).
  destruct (bool_decide (k ∈ map fst o)) eqn:E.
  - apply bool_decide_eq_true in E. destruct o as [|[k0 v0] o]; [inversion E|].
    cbn. destruct (bool_decide (k0 = k)); discriminate.
  - destruct (arrayIndex k) as [n|].
    + intros H. pose proof (insertIndex_perm n k v o) as P. rewrite H in P.
      apply Permutation_nil_l in P. discriminate P.
    + destruct o; discriminate.
Qed.

Lemma precedes_trans (a b c : string) : precedes a b -> precedes b c -> precedes a c.
Proof.
  unfold precedes. destruct (arrayIndex c) as [nc|]; [|intros _ _; exact I].
  destruct (arrayIndex b) as [nb|]; [|intros _ []].
  destruct (arrayIndex a) as [na|]; [|intros []]. lia.
Qed.

Lemma insertIndex_keys_sorted (n : N) (k v : string) (o : list (string * string)) :
  arrayIndex k = Some n -> k ∉ map fst o ->
  StronglySorted precedes (map fst o) ->
  StronglySorted precedes (map fst (insertIndex n k v o)).
Proof.
  intros Hk. induction o as [|[k' v'] o IH]; intros Hnot Hs.
  - cbn. constructor; constructor.
  - cbn in Hnot, Hs. apply not_elem_of_cons in Hnot as [Hne Hnot].
    apply StronglySorted_inv in Hs as [Hs Hall].
    assert (Hfirst : forall n', arrayIndex k' = Some n' -> (n' <? n)%N = false ->
                     StronglySorted precedes (k :: k' :: map fst o)).
    { intros n' Hk' Hlt. apply N.ltb_ge in Hlt.
      assert (n ≠ n') by (intros ->; apply Hne; exact (arrayIndex_inj _ _ _ Hk Hk')).
      assert (Hkk' : precedes k k') by (unfold precedes; rewrite Hk', Hk; lia).
      constructor; [constructor; assumption|].
      constructor; [exact Hkk'|].
      eapply Forall_impl; [exact Hall|]. intros x Hx. exact (precedes_trans _ _ _ Hkk' Hx). }
    cbn [insertIndex]. destruct (arrayIndex k') as [n'|] eqn:Hk'.
    + destruct (n' <? n)%N eqn:Hlt; [|exact (Hfirst n' eq_refl Hlt)].
      cbn. constructor; [apply IH; assumption|].
      assert (P : map fst (insertIndex n k v o) ≡ₚ k :: map fst o).
      { change (k :: map fst o) with (map fst ((k, v) :: o)).
        apply (fmap_Permutation fst), insertIndex_perm. }
      rewrite P. constructor; [|exact Hall].
      unfold precedes. rewrite Hk, Hk'. apply N.ltb_lt, Hlt.
    + cbn. constructor; [constructor; assumption|].
      assert (Hnone : Forall (fun x => arrayIndex x = None) (map fst o)).
      { eapply Forall_impl; [exact Hall|]. intros x Hx. unfold precedes in Hx.
        rewrite Hk' in Hx. destruct (arrayIndex x); [contradiction|reflexivity]. }
      constructor; [unfold precedes; rewrite Hk'; exact I|].
      eapply Forall_impl; [exact Hnone|]. intros x Hx. unfold precedes.
      rewrite Hx. exact I.
Qed.

End Assign.

Section Sanitize.

Import JsObject.

Lemma assign_ordered (o : list (string * string)) (k v : string) :
  ordered o -> ordered (assign o k v).
Proof.
  intros [Hnd Hs]. unfold assign.
  destruct (bool_decide (k = "__proto__")); [split; assumption|].
  destruct (decide (k ∈ map fst o)) as [Hin|Hin].
  - rewrite (bool_decide_eq_true_2 _ Hin). unfold ordered.
    rewrite set_keys, (bool_decide_eq_true_2 _ Hin). split; assumption.
  - rewrite (bool_decide_eq_false_2 _ Hin).
    destruct (arrayIndex k) as [n|] eqn:Hk.
    + split; [|apply insertIndex_keys_sorted; assumption].
      assert (P : map fst (insertIndex n k v o) ≡ₚ k :: map fst o).
      { change (k :: map fst o) with (map fst ((k, v) :: o)).
        apply (fmap_Permutation fst), insertIndex_perm. }
      rewrite P. apply NoDup_cons. split; assumption.
    + unfold ordered. rewrite map_app. cbn [map fst]. split.
      * apply NoDup_app. split; [exact Hnd|]. split; [|apply NoDup_singleton].
        intros x Hx Hx'. apply list_elem_of_singleton in Hx'. subst x. contradiction.
      * apply StronglySorted_app. split; [|split; [exact Hs|repeat constructor]].
        intros x y _ Hy. apply list_elem_of_singleton in Hy. subst y.
        unfold precedes. rewrite Hk. exact I.
Qed.

Lemma assign_clean (o : list (string * string)) (k v : string) :
  Forall cleanField o -> trim k = k -> trim v = v -> v ≠ "" ->
  Forall cleanField (assign o k v).
Proof.
  intros Ho Hk Hv Hne. apply Forall_forall. intros e He.
  apply assign_elem in He as [He|[-> Hp]].
  - rewrite Forall_forall in Ho. apply Ho, He.
  - repeat split; assumption.
Qed.

Lemma sanitizeStep_inv (o : RecordObj) (e : string * RawValue) :
  ordered o /\ Forall cleanField o ->
  ordered (sanitizeStep o e) /\ Forall cleanField (sanitizeStep o e).
Proof.
  intros [Ho Hc]. unfold sanitizeStep.
  destruct e.2 as [| |text]; [split; assumption..|].
  cbv zeta. destruct (truthy (trim text)) eqn:T; cbn [negb]; [|split; assumption].
  split; [apply assign_ordered, Ho|].
  apply assign_clean; [exact Hc|apply trim_idem|apply trim_idem|apply truthy_true, T].
Qed.

Lemma sanitizeRecord_snoc (raw : RawRecord) (e : string * RawValue) :
  sanitizeRecord (raw ++ [e]) = sanitizeStep (sanitizeRecord raw) e.
Proof. unfold sanitizeRecord. rewrite fold_left_app. reflexivity. Qed.

Lemma sanitizeRecord_inv (raw : RawRecord) :
  ordered (sanitizeRecord raw) /\ Forall cleanField (sanitizeRecord raw).
Proof.
  induction raw as [|e raw IH] using rev_ind.
  - split; [split; constructor|constructor].
  - rewrite sanitizeRecord_snoc. apply sanitizeStep_inv, IH.
Qed.

Lemma sanitizeRecords_elem (rawRecords : list RawRecord) (r : RecordObj) :
  r ∈ sanitizeRecords rawRecords <->
  r ≠ [] /\ exists raw, raw ∈ rawRecords /\ r = sanitizeRecord raw.
Proof.
  unfold sanitizeRecords. rewrite list_elem_of_In, filter_In, in_map_iff. split.
  - intros [(raw & <- & Hin) Hlen]. split.
    + intros E. rewrite E in Hlen. discriminate Hlen.
    + exists raw. split; [apply list_elem_of_In, Hin|reflexivity].
  - intros [Hne (raw & Hin & ->)]. split.
    + exists raw. split; [reflexivity|apply list_elem_of_In, Hin].
    + destruct (sanitizeRecord raw); [contradiction|reflexivity].
Qed.

(** An entry appended to an object in enumeration order is where an
    assignment puts it. *)
Lemma insertIndex_last (n : N) (k v : string) (o : list (string * string)) :
  Forall (fun x => precedes x k) (map fst o) -> arrayIndex k = Some n ->
  insertIndex n k v o = (o ++ [(k, v)])%list.
Proof.
  intros Hall Hk. induction o as [|[k' v'] o IH]; [reflexivity|].
  cbn in Hall. apply Forall_cons in Hall as [Hk' Hall].
  unfold precedes in Hk'. rewrite Hk in Hk'. cbn [insertIndex].
  destruct (arrayIndex k') as [n'|]; [|contradiction].
  replace (n' <? n)%N with true by (symmetry; apply N.ltb_lt, Hk').
  rewrite (IH Hall). reflexivity.
Qed.

Lemma sanitizeRecord_toRaw (r : RecordObj) :
  ordered r -> Forall cleanField r -> sanitizeRecord (toRaw r) = r.
Proof.
  induction r as [|[k v] r IH] using rev_ind; intros [Hnd Hs] Hc; [reflexivity|].
  rewrite map_app in Hnd, Hs. cbn [map fst] in Hnd, Hs.
  apply NoDup_app in Hnd as (Hnd & Hnot & _).
  apply StronglySorted_app in Hs as (Hcross & Hs & _).
  apply Forall_app in Hc as [Hc Hkv]. rewrite Forall_singleton in Hkv.
  unfold cleanField in Hkv. destruct Hkv as (Hk & Hp & Hv & Hne). cbn [fst snd] in Hk, Hp, Hv, Hne.
  unfold toRaw. rewrite map_app. cbn [map]. fold (toRaw r).
  rewrite sanitizeRecord_snoc, (IH (conj Hnd Hs) Hc).
  unfold sanitizeStep. cbn [fst snd]. cbv zeta.
  rewrite Hv, Hk, (proj2 (truthy_true v) Hne). cbn [negb].
  unfold assign. rewrite (bool_decide_eq_false_2 _ Hp).
  rewrite bool_decide_eq_false_2
    by (intros Hin; apply (Hnot k Hin); apply list_elem_of_singleton; reflexivity).
  destruct (arrayIndex k) as [n|] eqn:Hidx; [|reflexivity].
  apply insertIndex_last; [|exact Hidx].
  apply Forall_forall. intros x Hx. apply (Hcross x k Hx).
  apply list_elem_of_singleton. reflexivity.
Qed.

Lemma sanitizeRecords_all_wellFormed (rawRecords : list RawRecord) :
  Forall wellFormed (sanitizeRecords rawRecords).
Proof.
  apply Forall_forall. intros r Hr.
  apply sanitizeRecords_elem in Hr as [Hne (raw & _ & ->)].
  destruct (sanitizeRecord_inv raw) as [Ho Hc]. split; [exact Hne|]. split; assumption.
Qed.

Lemma sanitizeRecords_fixed (records : list RecordObj) :
  Forall wellFormed records -> sanitizeRecords (map toRaw records) = records.
Proof.
  intros Hwf. unfold sanitizeRecords. rewrite map_map.
  induction Hwf as [|r records (Hne & Ho & Hc) _ IH]; [reflexivity|].
  cbn. rewrite (sanitizeRecord_toRaw r Ho Hc).
  destruct r as [|e r]; [contradiction|]. cbn. f_equal. exact IH.
Qed.

End Sanitize.

(** **** X1 *)

(** X1. Every record [sanitizeRecords] returns is well formed: it has at
    least one field, its field names are pairwise distinct and enumerated in
    the order of an object (array indices first, ascending), every name and
    every value is trimmed, no name is [__proto__] and no value is empty.
    The records come, in order, from the raw records: those that lose all
    their fields are dropped. *)
Theorem sanitizeRecords_wellFormed (rawRecords : list RawRecord) :
  Forall wellFormed (sanitizeRecords rawRecords)
  /\ sanitizeRecords rawRecords
     = List.filter (fun r => negb (bool_decide (r = []))) (map sanitizeRecord rawRecords)
  /\ length (sanitizeRecords rawRecords) <= length rawRecords.
Proof.
  split; [|split].
  - apply sanitizeRecords_all_wellFormed.
  - unfold sanitizeRecords. apply filter_ext. intros [|e r]; reflexivity.
  - unfold sanitizeRecords.
    rewrite <- (length_map sanitizeRecord rawRecords). apply filter_length_le.
Qed.

(** **** X2 *)

(** X2. Sanitizing is idempotent: records that [sanitizeRecords] returned,
    handed back to it, are returned unchanged. More generally every well
    formed record is a fixed point. *)
Theorem sanitizeRecords_idempotent (rawRecords : list RawRecord) :
  sanitizeRecords (map toRaw (sanitizeRecords rawRecords)) = sanitizeRecords rawRecords
  /\ (forall records : list RecordObj,
        Forall wellFormed records -> sanitizeRecords (map toRaw records) = records).
Proof.
  split; [|apply sanitizeRecords_fixed].
  apply sanitizeRecords_fixed, sanitizeRecords_all_wellFormed.
Qed.

Lemma sanitizeRecords_idempotent_witness :
  sanitizeRecords (map toRaw [Samples.request]) = [Samples.request].
Proof.
  apply (proj2 (sanitizeRecords_idempotent [])).
  repeat constructor; cbn; try discriminate; try reflexivity.
  all: try (intros H; inversion H).
Defined.

(** ** Sanitized records have identifiers *)

Lemma nonempty_values_identifier (r : RecordObj) :
  r ≠ [] -> Forall (fun e => e.2 ≠ "") r -> extractIdentifier r ≠ "".
Proof.
  intros Hne Hall. unfold extractIdentifier.
  destruct (scanCandidates (lowerMap r) IDENTIFIER_KEYS) as [i|] eqn:E.
  - apply scanCandidates_upper in E as (v & Hv & ->).
    intros H. exact (Hv (proj1 (toUpperCase_nil_iff v) H)).
  - destruct r as [|[k v] r]; [contradiction|].
    apply Forall_cons in Hall as [Hv _]. cbn [map fst snd] in Hv |- *.
    rewrite (proj2 (truthy_true v) Hv).
    intros H. exact (Hv (proj1 (toUpperCase_nil_iff v) H)).
Qed.

Lemma wellFormed_identifier (r : RecordObj) : wellFormed r -> extractIdentifier r ≠ "".
Proof.
  intros (Hne & _ & Hc). apply nonempty_values_identifier; [exact Hne|].
  eapply Forall_impl; [exact Hc|]. intros e (_ & _ & _ & H). exact H.
Qed.

Lemma sanitized_identifier (rawRecords : list RawRecord) (r : RecordObj) :
  r ∈ sanitizeRecords rawRecords -> extractIdentifier r ≠ "".
Proof.
  intros Hr. apply wellFormed_identifier.
  pose proof (sanitizeRecords_all_wellFormed rawRecords) as Hwf.
  rewrite Forall_forall in Hwf. apply Hwf, Hr.
Qed.

Lemma keysFrom_identified (i : nat) (rs : list RecordObj) :
  Forall (fun r => extractIdentifier r ≠ "") rs ->
  keysFrom i rs = map extractIdentifier rs.
Proof.
  intros H. revert i. induction H as [|r rs Hr _ IH]; intros i; [reflexivity|].
  cbn. rewrite (keyOf_identified i r Hr), IH. reflexivity.
Qed.

Lemma unidentifiedCount_filter (clientRecords : list RecordObj) :
  unidentifiedCount (requestInsights clientRecords)
  = length (List.filter (fun r => bool_decide (extractIdentifier r = "")) clientRecords).
Proof.
  destruct clientRecords as [|r rs]; [reflexivity|].
  exact (inv_unidentified _ _ (invariant_loop (r :: rs))).
Qed.

Lemma filter_none {A : Type} (f : A -> bool) (l : list A) :
  Forall (fun x => f x = false) l -> List.filter f l = [].
Proof.
  induction 1 as [|x l Hx _ IH]; [reflexivity|]. cbn. rewrite Hx. exact IH.
Qed.

Lemma filter_Forall_true {A : Type} (f : A -> bool) (l : list A) :
  Forall (fun x => f x = true) l -> List.filter f l = l.
Proof.
  induction 1 as [|x l Hx _ IH]; [reflexivity|]. cbn. rewrite Hx, IH. reflexivity.
Qed.

(** **** X3 *)

(** X3. The records that [sanitizeRecords] returns all have an identifier.
    For a request list that comes from it, the key of every row is its
    identifier, the unidentified count is 0 and every entry of the missing
    list has the reason "Not present in catalog": the reason "No identifier
    detected" does not occur. *)
Theorem sanitized_requests_identified (rawRecords : list RawRecord)
    (active : option CatalogFile) :
  let clientRecords := sanitizeRecords rawRecords in
  (forall r, r ∈ clientRecords -> extractIdentifier r ≠ "")
  /\ keysFrom 0 clientRecords = map extractIdentifier clientRecords
  /\ unidentifiedCount (requestInsights clientRecords) = 0
  /\ (forall item, item ∈ missing (matchResult active clientRecords) ->
        reason item = "Not present in catalog").
Proof.
  intros clientRecords.
  assert (Hall : Forall (fun r => extractIdentifier r ≠ "") clientRecords).
  { apply Forall_forall. intros r. apply sanitized_identifier. }
  split; [intros r; apply sanitized_identifier|].
  split; [apply keysFrom_identified, Hall|].
  split.
  - rewrite unidentifiedCount_filter, filter_none; [reflexivity|].
    eapply Forall_impl; [exact Hall|]. intros r Hr. apply bool_decide_eq_false_2, Hr.
  - intros item Hin. destruct active as [file|]; [|inversion Hin].
    rewrite matchResult_active in Hin. cbn in Hin.
    apply missingPart_spec in Hin as [Hrec [[Hid _]|(_ & _ & Hreason)]]; [|exact Hreason].
    exfalso. exact (sanitized_identifier rawRecords _ Hrec Hid).
Qed.

Lemma sanitized_requests_identified_witness :
  extractIdentifier Samples.request <> ""
  /\ unidentifiedCount (requestInsights (sanitizeRecords Samples.rawRows)) = 0.
Proof.
  destruct (sanitized_requests_identified Samples.rawRows (Some Scenario.catalog1))
    as (H1 & _ & H3 & _).
  split; [|exact H3].
  apply H1. replace (sanitizeRecords Samples.rawRows) with [Samples.request]
    by (vm_compute; reflexivity).
  left.
Defined.

(** ** Matching in terms of the catalog records *)

Lemma isFound_iff (catalogRecords : list RecordObj) (r : RecordObj) :
  isFound (buildIndex catalogRecords) r = true
  <-> extractIdentifier r ≠ ""
      /\ exists c, c ∈ catalogRecords /\ extractIdentifier c = extractIdentifier r.
Proof.
  unfold isFound. rewrite andb_true_iff, truthy_true, bool_decide_eq_true. split.
  - intros [Hne [c Hc]]. split; [exact Hne|].
    apply buildIndex_sound in Hc as (Hin & Hid & _). exists c. split; assumption.
  - intros [Hne (c & Hin & Hid)]. split; [exact Hne|].
    rewrite <- Hid. apply buildIndex_complete; [exact Hin|]. rewrite Hid. exact Hne.
Qed.

(** **** X4 *)

(** X4. Under an active catalog a client record is in the found list exactly
    when its identifier is not empty and is the identifier of some catalog
    record; the catalog record it is paired with has this identifier, and no
    later catalog record has it. *)
Theorem found_iff_catalog_has_identifier (file : CatalogFile)
    (clientRecords : list RecordObj) :
  let result := matchResult (Some file) clientRecords in
  (forall r, r ∈ map requested (found result) <->
      r ∈ clientRecords /\ extractIdentifier r ≠ ""
      /\ exists c, c ∈ records file /\ extractIdentifier c = extractIdentifier r)
  /\ (forall item, item ∈ found result ->
        exists l1 l2, records file = (l1 ++ catalog item :: l2)%list
          /\ extractIdentifier (catalog item) = extractIdentifier (requested item)
          /\ forall c, c ∈ l2 -> extractIdentifier c ≠ extractIdentifier (requested item)).
Proof.
  cbv zeta. rewrite matchResult_active. cbn [found]. split.
  - intros r. rewrite foundPart_requested, list_elem_of_In, filter_In, <- list_elem_of_In.
    rewrite isFound_iff. reflexivity.
  - intros item Hin. apply foundPart_spec in Hin as (_ & Hne & Hlook).
    pose proof (buildIndex_sound _ _ _ Hlook) as (Hc & Hid & _).
    (* the last catalog record with this identifier *)
    assert (Hlast : forall l i c, buildIndex l !! i = Some c ->
               exists l1 l2, l = (l1 ++ c :: l2)%list
                 /\ forall c', c' ∈ l2 -> extractIdentifier c' ≠ i).
    { clear. intros l i c. induction l as [|r0 l IH] using rev_ind.
      - unfold buildIndex. cbn. rewrite lookup_empty. discriminate.
      - rewrite buildIndex_snoc, indexStep_lookup.
        destruct (decide (extractIdentifier r0 = i)) as [E|E].
        + rewrite (bool_decide_eq_true_2 _ E). destruct (truthy i) eqn:T; cbn.
          * intros [= <-]. exists l, []. split; [reflexivity|]. intros c' Hc'. inversion Hc'.
          * intros H. apply buildIndex_sound in H as (_ & _ & Hne).
            apply truthy_false in T. contradiction.
        + rewrite (bool_decide_eq_false_2 _ E). cbn. intros H.
          destruct (IH H) as (l1 & l2 & -> & Hl2).
          exists l1, (l2 ++ [r0])%list. split; [rewrite <- app_assoc; reflexivity|].
          intros c' Hc'. apply elem_of_app in Hc' as [Hc'|Hc']; [apply Hl2, Hc'|].
          apply list_elem_of_singleton in Hc'. subst c'. exact E. }
    destruct (Hlast _ _ _ Hlook) as (l1 & l2 & Hsplit & Hl2).
    exists l1, l2. split; [exact Hsplit|]. split; [exact Hid|exact Hl2].
Qed.

Lemma found_iff_catalog_has_identifier_witness :
  exists l1 l2, records Scenario.catalog1 = (l1 ++ catalog Samples.pair :: l2)%list
    /\ extractIdentifier (catalog Samples.pair) = extractIdentifier (requested Samples.pair)
    /\ forall c, c ∈ l2 -> extractIdentifier c <> extractIdentifier (requested Samples.pair).
Proof.
  apply (proj2 (found_iff_catalog_has_identifier Scenario.catalog1 [Samples.request])).
  replace (found (matchResult (Some Scenario.catalog1) [Samples.request]))
    with [Samples.pair] by (vm_compute; reflexivity).
  left.
Defined.

(** **** X5 *)

(** X5. A catalog matched against its own records, when these all have an
    identifier (as the records of a parsed file do), leaves nothing missing:
    the found list holds every record, in order. *)
Theorem catalog_matches_itself (file : CatalogFile) :
  (forall r, r ∈ records file -> extractIdentifier r ≠ "") ->
  let result := matchResult (Some file) (records file) in
  missing result = [] /\ map requested (found result) = records file.
Proof.
  intros Hall. cbv zeta. rewrite matchResult_active. cbn [found missing].
  assert (Hfound : Forall (fun r => isFound (buildIndex (records file)) r = true)
                     (records file)).
  { apply Forall_forall. intros r Hr. apply isFound_iff.
    split; [apply Hall, Hr|]. exists r. split; [exact Hr|reflexivity]. }
  split.
  - assert (E : map record (flat_map (missingPart (buildIndex (records file))) (records file)) = []).
    { rewrite missingPart_record. apply filter_none.
      eapply Forall_impl; [exact Hfound|]. intros r ->. reflexivity. }
    destruct (flat_map _ _); [reflexivity|discriminate E].
  - rewrite foundPart_requested. apply filter_Forall_true. exact Hfound.
Qed.

Lemma catalog_matches_itself_witness :
  missing (matchResult (Some Scenario.catalog1) (records Scenario.catalog1)) = []
  /\ map requested (found (matchResult (Some Scenario.catalog1) (records Scenario.catalog1)))
     = records Scenario.catalog1.
Proof.
  apply (catalog_matches_itself Scenario.catalog1).
  intros r Hr. apply list_elem_of_singleton in Hr. rewrite Hr.
  intros H. vm_compute in H. discriminate H.
Defined.

(** ** The field resolver *)

Section FieldResolver.

Lemma lower_upper_char (c : ascii) : lower_char (upper_char c) = lower_char c.
Proof. destruct c as [[] [] [] [] [] [] [] []]; reflexivity. Qed.

Lemma toLowerCase_toUpperCase (s : string) :
  isAscii s = true -> toLowerCase (toUpperCase s) = toLowerCase s.
Proof.
  induction s as [|c s IH]; [reflexivity|].
  cbn. intros H. apply andb_true_iff in H as [_ H].
  rewrite lower_upper_char. f_equal. exact (IH H).
Qed.

Lemma scanEntries_None (r : RecordObj) (lf : string) :
  scanEntries r lf = None
  <-> forall k v, (k, v) ∈ r -> toLowerCase k = lf -> trim v = "".
Proof.
  induction r as [|[k v] r IH]; cbn [scanEntries].
  - split; [intros _ k v H; inversion H|reflexivity].
  - destruct (decide (toLowerCase k = lf)) as [E|E].
    + rewrite (bool_decide_eq_true_2 _ E). cbn [andb].
      destruct (truthy (trim v)) eqn:T.
      * split; [discriminate|]. intros H. apply truthy_true in T.
        exfalso. apply T. apply (H k v); [left|exact E].
      * apply truthy_false in T. rewrite IH. split.
        -- intros H k' v' Hin. apply elem_of_cons in Hin as [[= -> ->]|Hin];
             [intros _; exact T|apply H, Hin].
        -- intros H k' v' Hin. apply H. right. exact Hin.
    + rewrite (bool_decide_eq_false_2 _ E). cbn [andb]. rewrite IH. split.
      * intros H k' v' Hin. apply elem_of_cons in Hin as [[= -> ->]|Hin];
          [intros E'; contradiction|apply H, Hin].
      * intros H k' v' Hin. apply H. right. exact Hin.
Qed.

Lemma scanEntries_Some (r : RecordObj) (lf t : string) :
  scanEntries r lf = Some t ->
  exists l1 k v l2,
    r = (l1 ++ (k, v) :: l2)%list /\ toLowerCase k = lf /\ t = trim v /\ t ≠ ""
    /\ forall k' v', (k', v') ∈ l1 -> toLowerCase k' = lf -> trim v' = "".
Proof.
  induction r as [|[k v] r IH]; cbn [scanEntries]; [discriminate|].
  destruct (bool_decide (toLowerCase k = lf) && truthy (trim v)) eqn:B.
  - intros [= <-]. apply andb_true_iff in B as [E T].
    apply bool_decide_eq_true in E. apply truthy_true in T.
    exists [], k, v, r. repeat split; try assumption. intros k' v' H. inversion H.
  - intros H. destruct (IH H) as (l1 & k0 & v0 & l2 & -> & Hk & Ht & Hne & Hl1).
    exists ((k, v) :: l1), k0, v0, l2. repeat split; try assumption.
    intros k' v' Hin Hk'. apply elem_of_cons in Hin as [[= -> ->]|Hin]; [|exact (Hl1 _ _ Hin Hk')].
    apply andb_false_iff in B as [B|B].
    + apply bool_decide_eq_false in B. contradiction.
    + apply truthy_false, B.
Qed.

Lemma scanEntries_keys (r r' : RecordObj) (lf : string) :
  map (fun e => (toLowerCase e.1, e.2)) r = map (fun e => (toLowerCase e.1, e.2)) r' ->
  scanEntries r lf = scanEntries r' lf.
Proof.
  revert r'. induction r as [|[k v] r IH]; intros [|[k' v'] r'] H; try discriminate H.
  - reflexivity.
  - cbn in H. injection H as Hk Hv H. subst v'. cbn [scanEntries].
    rewrite Hk, (IH r' H). reflexivity.
Qed.

End FieldResolver.

(** **** X6 *)

(** X6. [getFieldValue] returns the empty string exactly when no field named
    by a candidate (up to case) has a value that is not blank. Otherwise it
    returns the trimmed value of a field: the one named by the first
    candidate that has a non-blank field and, under this name, the first
    non-blank field in the order of the record. The result is trimmed. *)
Theorem getFieldValue_first_candidate_first_field (record : RecordObj)
    (fieldNames : list string) :
  (getFieldValue record fieldNames = ""
   <-> forall f k v, f ∈ fieldNames -> (k, v) ∈ record ->
         toLowerCase k = toLowerCase f -> trim v = "")
  /\ (getFieldValue record fieldNames ≠ "" ->
      exists pre f post l1 k v l2,
        fieldNames = (pre ++ f :: post)%list
        /\ record = (l1 ++ (k, v) :: l2)%list
        /\ toLowerCase k = toLowerCase f
        /\ getFieldValue record fieldNames = trim v
        /\ (forall f' k' v', f' ∈ pre -> (k', v') ∈ record ->
              toLowerCase k' = toLowerCase f' -> trim v' = "")
        /\ (forall k' v', (k', v') ∈ l1 -> toLowerCase k' = toLowerCase f -> trim v' = ""))
  /\ trim (getFieldValue record fieldNames) = getFieldValue record fieldNames.
Proof.
  induction fieldNames as [|f fs (IH0 & IH1 & IH2)]; cbn [getFieldValue].
  - split; [|split; [|reflexivity]].
    + split; [intros _ f k v H; inversion H|reflexivity].
    + intros H. contradiction.
  - destruct (scanEntries record (toLowerCase f)) as [t|] eqn:E.
    + destruct (scanEntries_Some _ _ _ E) as (l1 & k & v & l2 & Hr & Hk & Ht & Hne & Hl1).
      split; [|split].
      * split; [intros ->; contradiction|]. intros H. exfalso. apply Hne. rewrite Ht.
        apply (H f k v); [left| |exact Hk]. rewrite Hr. apply elem_of_app. right. left.
      * intros _. exists [], f, fs, l1, k, v, l2. repeat split; try assumption.
        intros f' k' v' H. inversion H.
      * rewrite Ht. apply trim_idem.
    + pose proof (proj1 (scanEntries_None _ _) E) as Hnone.
      split; [|split; [|exact IH2]].
      * rewrite IH0. split.
        -- intros H f' k v Hf Hin. apply elem_of_cons in Hf as [->|Hf];
             [apply Hnone, Hin|apply H; assumption].
        -- intros H f' k v Hf. apply H. right. exact Hf.
      * intros Hne. destruct (IH1 Hne) as (pre & f0 & post & l1 & k & v & l2
                                            & -> & Hr & Hk & Hres & Hpre & Hl1).
        exists (f :: pre), f0, post, l1, k, v, l2. repeat split; try assumption.
        intros f' k' v' Hf Hin. apply elem_of_cons in Hf as [->|Hf];
          [apply Hnone, Hin|apply (Hpre f' k' v' Hf Hin)].
Qed.

Lemma getFieldValue_first_candidate_first_field_witness :
  exists pre f post l1 k v l2,
    MANUFACTURER_FIELDS = (pre ++ f :: post)%list
    /\ Scenario.acme = (l1 ++ (k, v) :: l2)%list
    /\ toLowerCase k = toLowerCase f
    /\ getFieldValue Scenario.acme MANUFACTURER_FIELDS = trim v
    /\ (forall f' k' v', f' ∈ pre -> (k', v') ∈ Scenario.acme ->
          toLowerCase k' = toLowerCase f' -> trim v' = "")
    /\ (forall k' v', (k', v') ∈ l1 -> toLowerCase k' = toLowerCase f -> trim v' = "").
Proof.
  apply (getFieldValue_first_candidate_first_field Scenario.acme MANUFACTURER_FIELDS).
  intros H. vm_compute in H. discriminate H.
Defined.

(** **** X7 *)

(** X7. [getFieldValue] compares names without regard to case: upper-casing
    candidate names made of ASCII characters (as those of the program's two
    lists are), or replacing the record by one whose keys are the same once
    lower-cased, does not change the result. *)
Theorem getFieldValue_case_insensitive (record : RecordObj) (fieldNames : list string) :
  (Forall (fun f => isAscii f = true) fieldNames ->
     getFieldValue record (map toUpperCase fieldNames) = getFieldValue record fieldNames)
  /\ (forall record' : RecordObj,
        map (fun e => (toLowerCase e.1, e.2)) record'
        = map (fun e => (toLowerCase e.1, e.2)) record ->
        getFieldValue record' fieldNames = getFieldValue record fieldNames).
Proof.
  split.
  - induction 1 as [|f fs Hf _ IH]; [reflexivity|].
    cbn [map getFieldValue]. rewrite (toLowerCase_toUpperCase f Hf), IH. reflexivity.
  - intros record' H. induction fieldNames as [|f fs IH]; [reflexivity|].
    cbn [getFieldValue]. rewrite (scanEntries_keys record' record _ H), IH. reflexivity.
Qed.

Lemma getFieldValue_case_insensitive_witness :
  getFieldValue Scenario.acme (map toUpperCase MANUFACTURER_FIELDS)
  = getFieldValue Scenario.acme MANUFACTURER_FIELDS
  /\ getFieldValue Scenario.acme (map toUpperCase FAMILY_FIELDS)
     = getFieldValue Scenario.acme FAMILY_FIELDS
  /\ getFieldValue Samples.shout MANUFACTURER_FIELDS
     = getFieldValue Scenario.acme MANUFACTURER_FIELDS.
Proof.
  split; [|split].
  - apply (proj1 (getFieldValue_case_insensitive Scenario.acme MANUFACTURER_FIELDS)).
    repeat constructor.
  - apply (proj1 (getFieldValue_case_insensitive Scenario.acme FAMILY_FIELDS)).
    repeat constructor.
  - apply (proj2 (getFieldValue_case_insensitive Scenario.acme MANUFACTURER_FIELDS)).
    reflexivity.
Defined.

(** ** Searching the found pairs *)

Section Search.

Lemma append_cons (c : ascii) (s t : string) : String c s ++ t = String c (s ++ t).
Proof. reflexivity. Qed.

Lemma append_nil_l (s : string) : "" ++ s = s.
Proof. reflexivity. Qed.

Lemma append_nil_r (s : string) : s ++ "" = s.
Proof. induction s as [|c s IH]; [reflexivity|]. rewrite append_cons, IH. reflexivity. Qed.

Lemma append_assoc (a b c : string) : (a ++ b) ++ c = a ++ (b ++ c).
Proof.
  induction a as [|x a IH]; [reflexivity|]. rewrite !append_cons, IH. reflexivity.
Qed.

Lemma startsWith_spec (s q : string) : startsWith s q = true <-> exists b, s = q ++ b.
Proof.
  revert s. induction q as [|c q IH]; intros s.
  - destruct s; cbn; split; eauto.
  - destruct s as [|a s]; cbn [startsWith].
    + split; [discriminate|intros [b H]; rewrite append_cons in H; discriminate H].
    + rewrite andb_true_iff, bool_decide_eq_true, IH. split.
      * intros [-> [b ->]]. exists b. reflexivity.
      * intros [b H]. rewrite append_cons in H. injection H as -> ->.
        split; [reflexivity|exists b; reflexivity].
Qed.

Lemma includes_spec (s q : string) : includes s q = true <-> occursIn q s.
Proof.
  unfold occursIn. induction s as [|c s IH]; cbn [includes].
  - rewrite orb_false_r, startsWith_spec. split.
    + intros [b H]. exists "", b. exact H.
    + intros (a & b & H). destruct a; [exists b; exact H|discriminate H].
  - rewrite orb_true_iff, startsWith_spec, IH. split.
    + intros [[b H]|(a & b & H)].
      * exists "", b. exact H.
      * exists (String c a), b. rewrite append_cons, H. reflexivity.
    + intros (a & b & H). destruct a as [|x a].
      * left. exists b. exact H.
      * right. rewrite append_cons in H. injection H as -> H. exists a, b. exact H.
Qed.

Lemma occursIn_refl (s : string) : occursIn s s.
Proof. exists "", "". rewrite append_nil_r. reflexivity. Qed.

Lemma occursIn_trans (a b c : string) : occursIn a b -> occursIn b c -> occursIn a c.
Proof.
  intros (x & y & ->) (u & v & ->). exists (u ++ x), (y ++ v).
  rewrite !append_assoc. reflexivity.
Qed.

Lemma map_chars_append (f : ascii -> ascii) (a b : string) :
  map_chars f (a ++ b) = map_chars f a ++ map_chars f b.
Proof.
  induction a as [|c a IH]; [reflexivity|].
  rewrite append_cons. cbn [map_chars]. rewrite append_cons, IH. reflexivity.
Qed.

Lemma occursIn_map_chars (f : ascii -> ascii) (q s : string) :
  occursIn q s -> occursIn (map_chars f q) (map_chars f s).
Proof.
  intros (a & b & ->). exists (map_chars f a), (map_chars f b).
  rewrite !map_chars_append. reflexivity.
Qed.

Lemma trimStart_occurs (s : string) : exists a, s = a ++ trimStart s.
Proof.
  induction s as [|c s [a IH]]; [exists ""; reflexivity|].
  cbn. destruct (is_white c).
  - exists (String c a). rewrite append_cons, <- IH. reflexivity.
  - exists "". reflexivity.
Qed.

Lemma trimEnd_occurs (s : string) : exists b, s = trimEnd s ++ b.
Proof.
  induction s as [|c s [b IH]]; [exists ""; reflexivity|].
  rewrite trimEnd_unfold. destruct (trimEnd s) as [|d t].
  - destruct (is_white c).
    + exists (String c s). reflexivity.
    + exists s. reflexivity.
  - exists b. rewrite append_cons, <- IH. reflexivity.
Qed.

Lemma trim_occurs (s : string) : occursIn (trim s) s.
Proof.
  unfold trim. destruct (trimStart_occurs s) as [a Ha].
  destruct (trimEnd_occurs (trimStart s)) as [b Hb].
  exists a, b. rewrite <- Hb. exact Ha.
Qed.

(** Case mapping does not touch white space. *)
Lemma trimStart_map_chars (f : ascii -> ascii) (s : string) :
  (forall c, is_white (f c) = is_white c) ->
  trimStart (map_chars f s) = map_chars f (trimStart s).
Proof.
  intros Hf. induction s as [|c s IH]; [reflexivity|].
  cbn. rewrite Hf. destruct (is_white c); [exact IH|reflexivity].
Qed.

Lemma trimEnd_map_chars (f : ascii -> ascii) (s : string) :
  (forall c, is_white (f c) = is_white c) ->
  trimEnd (map_chars f s) = map_chars f (trimEnd s).
Proof.
  intros Hf. induction s as [|c s IH]; [reflexivity|].
  cbn [map_chars]. rewrite !trimEnd_unfold, IH, Hf.
  destruct (trimEnd s); [destruct (is_white c)|]; reflexivity.
Qed.

Lemma is_white_upper (c : ascii) : is_white (upper_char c) = is_white c.
Proof. destruct c as [[] [] [] [] [] [] [] []]; reflexivity. Qed.

Lemma is_white_lower (c : ascii) : is_white (lower_char c) = is_white c.
Proof. destruct c as [[] [] [] [] [] [] [] []]; reflexivity. Qed.

Lemma trimStart_isAscii (s : string) : isAscii s = true -> isAscii (trimStart s) = true.
Proof.
  induction s as [|c s IH]; [reflexivity|].
  intros H. cbn [trimStart]. destruct (is_white c); [|exact H].
  apply IH. cbn in H. apply andb_true_iff in H as [_ H]. exact H.
Qed.

Lemma trimEnd_isAscii (s : string) : isAscii s = true -> isAscii (trimEnd s) = true.
Proof.
  induction s as [|c s IH]; [reflexivity|].
  intros H. cbn in H. apply andb_true_iff in H as [Hc H].
  specialize (IH H). cbn [trimEnd].
  destruct (trimEnd s) as [|c' s'].
  - destruct (is_white c); [reflexivity|]. cbn. rewrite Hc. reflexivity.
  - change (isAscii (String c (String c' s')))
      with ((N_of_ascii c <? 128)%N && isAscii (String c' s')).
    rewrite Hc, IH. reflexivity.
Qed.

Lemma queryOf_toUpperCase (q : string) :
  isAscii q = true -> queryOf (toUpperCase q) = queryOf q.
Proof.
  intros H. unfold queryOf, trim, toUpperCase.
  rewrite trimStart_map_chars, trimEnd_map_chars by apply is_white_upper.
  apply toLowerCase_toUpperCase, trimEnd_isAscii, trimStart_isAscii, H.
Qed.

Lemma queryOf_trim (q : string) : queryOf (trim q) = queryOf q.
Proof. unfold queryOf. rewrite trim_idem. reflexivity. Qed.

Lemma itemMatches_spec (query : string) (item : FoundItem) :
  itemMatches query item = true
  <-> occursIn query (toLowerCase (extractIdentifier (requested item)))
      \/ exists k v, (k, v) ∈ catalog item /\ occursIn query (toLowerCase v).
Proof.
  unfold itemMatches. cbv zeta.
  destruct (includes (toLowerCase (extractIdentifier (requested item))) query) eqn:E.
  - apply includes_spec in E. split; [intros _; left; exact E|reflexivity].
  - rewrite existsb_exists. split.
    + intros (lv & Hin & Hinc). right. rewrite map_map in Hin.
      apply in_map_iff in Hin as ([k v] & <- & Hin). exists k, v.
      split; [apply list_elem_of_In, Hin|apply includes_spec, Hinc].
    + intros [H|(k & v & Hin & Hocc)].
      * apply includes_spec in H. congruence.
      * exists (toLowerCase v). split; [|apply includes_spec, Hocc].
        rewrite map_map. apply in_map_iff. exists (k, v).
        split; [reflexivity|apply list_elem_of_In, Hin].
Qed.

Lemma filteredMatches_elem (foundItems : list FoundItem) (q : string) (item : FoundItem) :
  item ∈ filteredMatches foundItems q
  <-> item ∈ foundItems /\ (queryOf q = "" \/ itemMatches (queryOf q) item = true).
Proof.
  unfold filteredMatches. cbv zeta. destruct (truthy (queryOf q)) eqn:T; cbn [negb].
  - apply truthy_true in T. rewrite list_elem_of_In, filter_In, <- list_elem_of_In.
    split; [intros [H1 H2]; split; [exact H1|right; exact H2]|].
    intros [H1 [H2|H2]]; [contradiction|split; assumption].
  - apply truthy_false in T. split; [intros H; split; [exact H|left; exact T]|].
    intros [H _]. exact H.
Qed.

End Search.

(** **** X8 *)

(** X8. A query that is empty or made of white space returns the found pairs
    unchanged. Any other query returns, in their order, the found pairs in
    which the trimmed, lower-cased query occurs in the lower-cased identifier
    of the requested record or in a lower-cased value of the catalog record,
    and no other. *)
Theorem filteredMatches_selects (foundItems : list FoundItem) (matchSearch : string) :
  (trim matchSearch = "" -> filteredMatches foundItems matchSearch = foundItems)
  /\ filteredMatches foundItems matchSearch `sublist_of` foundItems
  /\ (trim matchSearch ≠ "" ->
      forall item, item ∈ filteredMatches foundItems matchSearch
        <-> item ∈ foundItems
            /\ (occursIn (queryOf matchSearch)
                  (toLowerCase (extractIdentifier (requested item)))
                \/ exists k v, (k, v) ∈ catalog item
                               /\ occursIn (queryOf matchSearch) (toLowerCase v))).
Proof.
  split; [|split].
  - intros H. unfold filteredMatches, queryOf. rewrite H. reflexivity.
  - unfold filteredMatches. cbv zeta. destruct (negb _); [reflexivity|].
    induction foundItems as [|x l IH]; [constructor|].
    cbn. destruct (itemMatches _ x); [apply sublist_skip, IH|apply sublist_cons, IH].
  - intros Hne item. rewrite filteredMatches_elem, itemMatches_spec.
    assert (Hq : queryOf matchSearch ≠ "").
    { unfold queryOf. intros H. apply Hne.
      destruct (trim matchSearch); [reflexivity|discriminate H]. }
    split; [intros [H1 [H2|H2]]; [contradiction|split; assumption]|].
    intros [H1 H2]. split; [exact H1|right; exact H2].
Qed.

Lemma filteredMatches_selects_witness :
  filteredMatches Scenario.foundSample "   " = Scenario.foundSample.
Proof.
  apply (proj1 (filteredMatches_selects Scenario.foundSample "   ")).
  reflexivity.
Defined.

(** **** X9 *)

(** X9. The search ignores the white space around the query and, for a query
    made of ASCII characters, its letter case. *)
Theorem filteredMatches_query_normalised (foundItems : list FoundItem) (matchSearch : string) :
  (isAscii matchSearch = true ->
     filteredMatches foundItems (toUpperCase matchSearch)
     = filteredMatches foundItems matchSearch)
  /\ filteredMatches foundItems (trim matchSearch) = filteredMatches foundItems matchSearch.
Proof.
  unfold filteredMatches. split.
  - intros H. rewrite (queryOf_toUpperCase matchSearch H). reflexivity.
  - rewrite queryOf_trim. reflexivity.
Qed.

Lemma filteredMatches_query_normalised_witness :
  filteredMatches Scenario.foundSample (toUpperCase " Acme ")
  = filteredMatches Scenario.foundSample " Acme ".
Proof.
  apply (proj1 (filteredMatches_query_normalised Scenario.foundSample " Acme ")).
  reflexivity.
Defined.

(** **** X10 *)

(** X10. Every found pair is returned when the query is the identifier of its
    requested record, or any value of its catalog record; and a query in
    which another query occurs (both trimmed and lower-cased) returns no
    pair that the other does not return. *)
Theorem filteredMatches_finds_and_narrows (foundItems : list FoundItem) :
  (forall item, item ∈ foundItems ->
      item ∈ filteredMatches foundItems (extractIdentifier (requested item))
      /\ forall k v, (k, v) ∈ catalog item -> item ∈ filteredMatches foundItems v)
  /\ (forall q q' item, occursIn (queryOf q) (queryOf q') ->
        item ∈ filteredMatches foundItems q' -> item ∈ filteredMatches foundItems q).
Proof.
  split.
  - intros item Hin. split.
    + apply filteredMatches_elem. split; [exact Hin|]. right.
      apply itemMatches_spec. left. unfold queryOf.
      apply occursIn_map_chars, trim_occurs.
    + intros k v Hkv. apply filteredMatches_elem. split; [exact Hin|]. right.
      apply itemMatches_spec. right. exists k, v. split; [exact Hkv|].
      unfold queryOf. apply occursIn_map_chars, trim_occurs.
  - intros q q' item Hocc. rewrite !filteredMatches_elem.
    intros [Hin [Hq'|Hm]]; (split; [exact Hin|]).
    + rewrite Hq' in Hocc. destruct Hocc as (a & b & H).
      left. destruct a; [|discriminate H]. cbn in H.
      destruct (queryOf q); [reflexivity|discriminate H].
    + right. apply itemMatches_spec. apply itemMatches_spec in Hm.
      destruct Hm as [H|(k & v & Hkv & H)].
      * left. exact (occursIn_trans _ _ _ Hocc H).
      * right. exists k, v. split; [exact Hkv|exact (occursIn_trans _ _ _ Hocc H)].
Qed.

Lemma filteredMatches_finds_and_narrows_witness :
  Samples.pair ∈ filteredMatches [Samples.pair] (extractIdentifier (requested Samples.pair))
  /\ forall k v, (k, v) ∈ catalog Samples.pair ->
       Samples.pair ∈ filteredMatches [Samples.pair] v.
Proof.
  apply (proj1 (filteredMatches_finds_and_narrows [Samples.pair])).
  left.
Defined.

(** ** The report *)

Section Report.

(** The entry [find] returns for a client record, under an active catalog:
    an entry of the found list with the identifier of the record, paired
    with the catalog record of the index. *)
Lemma find_report_entry (file : CatalogFile) (clientRecords : list RecordObj) (r : RecordObj) :
  r ∈ clientRecords ->
  match List.find (fun item => bool_decide (extractIdentifier (requested item)
                                            = extractIdentifier r))
          (found (matchResult (Some file) clientRecords)) with
  | Some entry =>
      extractIdentifier r ≠ ""
      /\ buildIndex (records file) !! extractIdentifier r = Some (catalog entry)
  | None =>
      extractIdentifier r = ""
      \/ buildIndex (records file) !! extractIdentifier r = None
  end.
Proof.
  intros Hr. rewrite matchResult_active. cbn [found].
  destruct (List.find _ _) as [item|] eqn:F.
  - apply find_some in F as [Hin Hid]. apply bool_decide_eq_true in Hid.
    apply list_elem_of_In, foundPart_spec in Hin as (_ & Hne & Hlook).
    rewrite Hid in Hne, Hlook. split; assumption.
  - destruct (decide (extractIdentifier r = "")) as [E|E]; [left; exact E|right].
    destruct (buildIndex (records file) !! extractIdentifier r) as [c|] eqn:L; [|reflexivity].
    exfalso.
    assert (Hin : {| requested := r; catalog := c |}
                  ∈ flat_map (foundPart (buildIndex (records file))) clientRecords).
    { apply list_elem_of_In, in_flat_map. exists r. split; [apply list_elem_of_In, Hr|].
      unfold foundPart, classifyStep. rewrite (proj2 (truthy_true _) E), L. cbn.
      left. reflexivity. }
    apply list_elem_of_In in Hin.
    pose proof (find_none _ _ F _ Hin) as Hf. cbn in Hf.
    rewrite bool_decide_eq_true_2 in Hf by reflexivity. discriminate Hf.
Qed.

End Report.

(** **** X11 *)

(** X11. The report agrees with the match result. Under an active catalog
    the row of a client record holds its identifier, then the status
    "Available" and the JSON text of the catalog record when the catalog
    index holds one for the identifier, the status "Missing" and an empty
    third cell when it holds none; without an active catalog every row is
    "Missing". *)
Theorem reportRow_agrees_with_match (active : option CatalogFile)
    (clientRecords : list RecordObj) (r : RecordObj) :
  r ∈ clientRecords ->
  reportRow (found (matchResult active clientRecords)) r
  = match active with
    | Some file =>
        match buildIndex (records file) !! extractIdentifier r with
        | Some c => [extractIdentifier r; "Available"; Json.stringify c]
        | None => [extractIdentifier r; "Missing"; ""]
        end
    | None => [extractIdentifier r; "Missing"; ""]
    end.
Proof.
  intros Hr. destruct active as [file|]; [|reflexivity].
  unfold reportRow. cbv zeta.
  pose proof (find_report_entry file clientRecords r Hr) as H.
  destruct (List.find _ _) as [entry|].
  - destruct H as [Hne Hlook]. rewrite Hlook. reflexivity.
  - destruct H as [E|L]; [|rewrite L; reflexivity].
    destruct (buildIndex (records file) !! extractIdentifier r) as [c|] eqn:L;
      [|reflexivity].
    apply buildIndex_sound in L as (_ & _ & Hne). contradiction.
Qed.

Lemma reportRow_agrees_with_match_witness :
  reportRow (found (matchResult (Some Scenario.catalog1) Scenario.mixed)) Samples.request
  = match buildIndex (records Scenario.catalog1) !! extractIdentifier Samples.request with
    | Some c => [extractIdentifier Samples.request; "Available"; Json.stringify c]
    | None => [extractIdentifier Samples.request; "Missing"; ""]
    end.
Proof.
  apply (reportRow_agrees_with_match (Some Scenario.catalog1) Scenario.mixed Samples.request).
  left.
Defined.

Section ReportText.

Lemma printable_append (a b : string) : printable (a ++ b) = printable a && printable b.
Proof.
  induction a as [|c a IH]; [reflexivity|].
  rewrite append_cons. cbn [printable]. rewrite IH, andb_assoc. reflexivity.
Qed.

Lemma printable_quoteChar (c : ascii) : printable (Json.quoteChar c) = true.
Proof. destruct c as [[] [] [] [] [] [] [] []]; reflexivity. Qed.

Lemma printable_quote (s : string) : printable (Json.quote s) = true.
Proof.
  unfold Json.quote. cbn [printable]. rewrite printable_append.
  assert (H : printable (Json.quoteBody s) = true).
  { induction s as [|c s IH]; [reflexivity|].
    cbn [Json.quoteBody]. rewrite printable_append, printable_quoteChar, IH. reflexivity. }
  rewrite H. reflexivity.
Qed.

Lemma printable_concat (sep : string) (l : list string) :
  printable sep = true -> Forall (fun x => printable x = true) l ->
  printable (String.concat sep l) = true.
Proof.
  intros Hsep. induction 1 as [|x l Hx Hl IH]; [reflexivity|].
  destruct l as [|y l]; [exact Hx|].
  change (printable (x ++ sep ++ String.concat sep (y :: l)) = true).
  rewrite !printable_append, Hx, Hsep, IH. reflexivity.
Qed.

Lemma printable_stringify (record : RecordObj) : printable (Json.stringify record) = true.
Proof.
  unfold Json.stringify. rewrite !printable_append.
  rewrite printable_concat; [reflexivity|reflexivity|].
  apply Forall_forall. intros x Hx. apply list_elem_of_In, in_map_iff in Hx as (e & <- & _).
  unfold Json.member. rewrite !printable_append, !printable_quote. reflexivity.
Qed.

Lemma printable_countChar (s : string) (c : ascii) :
  printable s = true -> (N_of_ascii c < 32)%N -> countChar c s = 0.
Proof.
  intros Hs Hc. induction s as [|d s IH]; [reflexivity|].
  cbn [printable] in Hs. apply andb_true_iff in Hs as [Hd Hs].
  cbn [countChar]. rewrite (IH Hs). apply N.leb_le in Hd.
  rewrite bool_decide_eq_false_2; [reflexivity|]. intros ->. lia.
Qed.

Lemma countChar_append (c : ascii) (a b : string) :
  countChar c (a ++ b) = countChar c a + countChar c b.
Proof.
  induction a as [|d a IH]; [reflexivity|].
  rewrite append_cons. cbn [countChar]. rewrite IH. lia.
Qed.

Lemma countChar_concat_none (c : ascii) (sep : string) (l : list string) :
  countChar c sep = 0 -> Forall (fun x => countChar c x = 0) l ->
  countChar c (String.concat sep l) = 0.
Proof.
  intros Hsep. induction 1 as [|x l Hx Hl IH]; [reflexivity|].
  destruct l as [|y l]; [exact Hx|].
  change (countChar c (x ++ sep ++ String.concat sep (y :: l)) = 0).
  rewrite !countChar_append, Hx, Hsep, IH. reflexivity.
Qed.

(** Lines that hold no line feed, joined by line feeds. *)
Lemma countChar_lines (l : list string) :
  Forall (fun x => countChar lineFeed x = 0) l ->
  countChar lineFeed (String.concat (String lineFeed "") l) = length l - 1.
Proof.
  induction 1 as [|x l Hx Hl IH]; [reflexivity|].
  destruct l as [|y l]; [exact Hx|].
  change (countChar lineFeed (x ++ String lineFeed "" ++ String.concat (String lineFeed "") (y :: l))
          = length (x :: y :: l) - 1).
  rewrite !countChar_append, Hx, IH.
  change (countChar lineFeed (String lineFeed "")) with 1. cbn [length]. lia.
Qed.

Lemma csvCell_no_lineFeed (cell : string) :
  countChar lineFeed cell = 0 -> countChar lineFeed (csvCell cell) = 0.
Proof.
  intros H. unfold csvCell. cbn [countChar]. rewrite countChar_append, H. reflexivity.
Qed.

End ReportText.

(** **** X12 *)

(** X12. The JSON text of a record holds no control character: line breaks
    and the like are escaped. Hence, when no identifier of a client record
    holds a line feed, the report text has one line feed per client record:
    the header line and one line for each record. *)
Theorem csvContent_one_line_per_record (clientRecords : list RecordObj)
    (result : MatchResult) :
  (forall record, printable (Json.stringify record) = true)
  /\ ((forall r, r ∈ clientRecords -> countChar lineFeed (extractIdentifier r) = 0) ->
      countChar lineFeed (csvContent clientRecords result) = length clientRecords).
Proof.
  split; [apply printable_stringify|].
  intros Hid. unfold csvContent. rewrite countChar_lines.
  - cbn [length map]. rewrite !length_map. lia.
  - cbn [map]. constructor; [reflexivity|]. apply Forall_forall. intros line Hline.
    apply list_elem_of_In in Hline. rewrite map_map in Hline.
    apply in_map_iff in Hline as (r & <- & Hr). apply list_elem_of_In in Hr.
    unfold csvLine, reportRow. cbv zeta. apply countChar_concat_none; [reflexivity|].
    cbn [map]. repeat constructor.
    + apply csvCell_no_lineFeed, Hid, Hr.
    + apply csvCell_no_lineFeed. destruct (List.find _ _); reflexivity.
    + apply csvCell_no_lineFeed. destruct (List.find _ _); [|reflexivity].
      apply printable_countChar; [apply printable_stringify|reflexivity].
Qed.

Lemma csvContent_one_line_per_record_witness :
  countChar lineFeed
    (csvContent Scenario.mixed (matchResult (Some Scenario.catalog1) Scenario.mixed))
  = length Scenario.mixed.
Proof.
  apply (proj2 (csvContent_one_line_per_record Scenario.mixed
                  (matchResult (Some Scenario.catalog1) Scenario.mixed))).
  intros r Hr. repeat (apply elem_of_cons in Hr as [->|Hr]; [reflexivity|]).
  inversion Hr.
Defined.

(** ** The catalog list and the selection *)

Section Selection.

Import App.

Lemma activeCatalog_Some (files : list CatalogFile) (fileId : string) (file : CatalogFile) :
  activeCatalog files (Some fileId) = Some file -> file ∈ files /\ file_id file = fileId.
Proof.
  cbn. intros H. apply find_some in H as [Hin Hid].
  split; [apply list_elem_of_In, Hin|apply bool_decide_eq_true in Hid; exact Hid].
Qed.

Lemma activeCatalog_listed (files : list CatalogFile) (fileId : string) :
  listed fileId files <-> exists file, activeCatalog files (Some fileId) = Some file.
Proof.
  split.
  - intros (f & Hin & Hid). cbn.
    destruct (List.find _ files) as [file|] eqn:F; [exists file; reflexivity|].
    apply list_elem_of_In in Hin. pose proof (find_none _ _ F _ Hin) as Hf. cbn in Hf.
    rewrite bool_decide_eq_true_2 in Hf by exact Hid. discriminate Hf.
  - intros [file H]. apply activeCatalog_Some in H as [Hin Hid]. exists file. split; assumption.
Qed.

Lemma find_filter {A : Type} (p q : A -> bool) (l : list A) :
  (forall x, p x = true -> q x = true) ->
  List.find p (List.filter q l) = List.find p l.
Proof.
  intros H. induction l as [|x l IH]; [reflexivity|].
  cbn. destruct (p x) eqn:P.
  - rewrite (H x P). cbn. rewrite P. reflexivity.
  - destruct (q x); cbn; [rewrite P|]; exact IH.
Qed.

Lemma find_map {A : Type} (p : A -> bool) (f : A -> A) (l : list A) :
  (forall x, p (f x) = p x) ->
  List.find p (map f l) = option_map f (List.find p l).
Proof.
  intros H. induction l as [|x l IH]; [reflexivity|].
  cbn. rewrite H. destruct (p x); [reflexivity|exact IH].
Qed.

Lemma find_app {A : Type} (p : A -> bool) (l1 l2 : list A) :
  List.find p (l1 ++ l2)
  = match List.find p l1 with Some x => Some x | None => List.find p l2 end.
Proof.
  induction l1 as [|x l1 IH]; [reflexivity|]. cbn. destruct (p x); [reflexivity|exact IH].
Qed.

(** The selection, when there is one, designates a catalog of the list. *)
Lemma reachable_listed (st : State) :
  reachable st ->
  forall fileId, activeCatalogId st = Some fileId -> listed fileId (catalogFiles st).
Proof.
  induction 1 as [|seen uploads st _ IH|catalogId name newRecords now st _ IH
                  |fileId st _ IH Hl|fileId st _ IH]; intros sel Hsel.
  - discriminate Hsel.
  - destruct uploads as [|first rest]; [exact (IH sel Hsel)|].
    cbn in Hsel |- *. destruct (noSelection seen).
    + injection Hsel as <-. exists first. split; [left|reflexivity].
    + destruct (IH sel Hsel) as (f & Hin & Hid). exists f.
      split; [right; apply elem_of_app; right; exact Hin|exact Hid].
  - cbn in Hsel |- *. destruct (IH sel Hsel) as (f & Hin & Hid).
    exists (if bool_decide (file_id f = catalogId) then replaced name newRecords now f else f).
    split.
    + apply list_elem_of_In, in_map_iff. exists f.
      split; [reflexivity|apply list_elem_of_In, Hin].
    + destruct (bool_decide (file_id f = catalogId)); exact Hid.
  - cbn in Hsel |- *. injection Hsel as <-. exact Hl.
  - cbn in Hsel |- *.
    destruct (decide (activeCatalogId st = Some fileId)) as [E|E].
    + rewrite (bool_decide_eq_true_2 _ E) in Hsel. discriminate Hsel.
    + rewrite (bool_decide_eq_false_2 _ E) in Hsel.
      destruct (IH sel Hsel) as (f & Hin & Hid). exists f. split; [|exact Hid].
      apply list_elem_of_In, filter_In. split; [apply list_elem_of_In, Hin|].
      rewrite bool_decide_eq_false_2; [reflexivity|].
      intros Hf. apply E. rewrite Hsel. f_equal. congruence.
Qed.

End Selection.

(** **** X13 *)

(** X13. In every state the component can reach, the selection is never
    dangling: when an identifier is selected, the active catalog is a catalog
    of the list with this identifier. The match computation then sorts every
    client record: the found and missing lists together have as many
    elements as there are client records. *)
Theorem selection_never_dangles (st : App.State) (clientRecords : list RecordObj) :
  App.reachable st ->
  forall fileId, App.activeCatalogId st = Some fileId ->
    (exists file, App.current st = Some file
                  /\ file ∈ App.catalogFiles st /\ file_id file = fileId)
    /\ length (found (matchResult (App.current st) clientRecords))
       + length (missing (matchResult (App.current st) clientRecords))
       = length clientRecords.
Proof.
  intros Hreach fileId Hsel.
  pose proof (reachable_listed st Hreach fileId Hsel) as Hl.
  apply activeCatalog_listed in Hl as [file Hfile].
  unfold App.current. rewrite Hsel, Hfile.
  split.
  - exists file. split; [reflexivity|]. apply activeCatalog_Some, Hfile.
  - rewrite matchResult_active. cbn. apply parts_total.
Qed.

Lemma selection_never_dangles_witness :
  (exists file,
      App.current (App.delete "c2" (App.catalogUpload None
                                      [Scenario.catalog1; Scenario.emptyCatalog]
                                      App.initial)) = Some file
      /\ file ∈ App.catalogFiles
                  (App.delete "c2" (App.catalogUpload None
                                      [Scenario.catalog1; Scenario.emptyCatalog]
                                      App.initial))
      /\ file_id file = "c1")
  /\ length (found (matchResult
                      (App.current (App.delete "c2"
                                      (App.catalogUpload None
                                         [Scenario.catalog1; Scenario.emptyCatalog]
                                         App.initial)))
                      Scenario.mixed))
     + length (missing (matchResult
                          (App.current (App.delete "c2"
                                          (App.catalogUpload None
                                             [Scenario.catalog1; Scenario.emptyCatalog]
                                             App.initial)))
                          Scenario.mixed))
     = length Scenario.mixed.
Proof.
  apply (selection_never_dangles
           (App.delete "c2" (App.catalogUpload None
                               [Scenario.catalog1; Scenario.emptyCatalog] App.initial))
           Scenario.mixed).
  - apply App.reach_delete, App.reach_upload, App.reach_initial.
  - reflexivity.
Defined.

(** **** X14 *)

(** X14. Deleting the selected catalog clears the selection, so that the
    match result becomes empty; deleting any other catalog leaves the active
    catalog as it was. After the deletion no catalog of the list has the
    deleted identifier. *)
Theorem delete_keeps_other_selection (fileId : string) (st : App.State)
    (clientRecords : list RecordObj) :
  (App.activeCatalogId st = Some fileId ->
     App.current (App.delete fileId st) = None
     /\ matchResult (App.current (App.delete fileId st)) clientRecords = emptyResult)
  /\ (App.activeCatalogId st ≠ Some fileId ->
        App.current (App.delete fileId st) = App.current st)
  /\ (forall file, file ∈ App.catalogFiles (App.delete fileId st) ->
        file ∈ App.catalogFiles st /\ file_id file ≠ fileId).
Proof.
  unfold App.current, App.delete. cbn [App.catalogFiles App.activeCatalogId].
  split; [|split].
  - intros E. rewrite (bool_decide_eq_true_2 _ E). split; reflexivity.
  - intros E. rewrite (bool_decide_eq_false_2 _ E).
    destruct (App.activeCatalogId st) as [sel|]; [|reflexivity].
    cbn. apply find_filter. intros x Hx. apply bool_decide_eq_true in Hx.
    rewrite bool_decide_eq_false_2; [reflexivity|]. intros Hf. apply E. congruence.
  - intros file Hin. apply list_elem_of_In, filter_In in Hin as [Hin Hf].
    split; [apply list_elem_of_In, Hin|].
    intros E. rewrite (bool_decide_eq_true_2 _ E) in Hf. discriminate Hf.
Qed.

Lemma delete_keeps_other_selection_witness :
  (App.current (App.delete "c1" Samples.twoCatalogs) = None
   /\ matchResult (App.current (App.delete "c1" Samples.twoCatalogs)) Scenario.mixed
      = emptyResult)
  /\ App.current (App.delete "c2" Samples.twoCatalogs) = App.current Samples.twoCatalogs.
Proof.
  split.
  - apply (proj1 (delete_keeps_other_selection "c1" Samples.twoCatalogs Scenario.mixed)).
    reflexivity.
  - apply (proj1 (proj2 (delete_keeps_other_selection "c2" Samples.twoCatalogs
                           Scenario.mixed))).
    discriminate.
Defined.

(** **** X15 *)

(** X15. Replacing a catalog keeps the list in place and the selection
    untouched: a selection resolves to the same entry as before, rewritten
    with the new name, records and date when it is the replaced catalog, and
    unchanged otherwise. In particular the active catalog keeps its
    identifier, and the match computation reads the new records. *)
Theorem replace_updates_in_place (catalogId name : string) (newRecords : list RecordObj)
    (now : Z) (st : App.State) :
  let st' := App.catalogReplace catalogId name newRecords now st in
  App.activeCatalogId st' = App.activeCatalogId st
  /\ map file_id (App.catalogFiles st') = map file_id (App.catalogFiles st)
  /\ App.current st'
     = option_map (fun file => if bool_decide (file_id file = catalogId)
                               then App.replaced name newRecords now file else file)
         (App.current st)
  /\ (forall file, App.current st = Some file -> file_id file = catalogId ->
        exists file', App.current st' = Some file'
          /\ file_id file' = catalogId /\ records file' = newRecords).
Proof.
  cbv zeta. unfold App.current, App.catalogReplace.
  cbn [App.catalogFiles App.activeCatalogId].
  assert (Hcur : forall sel,
             activeCatalog
               (map (fun entry => if bool_decide (file_id entry = catalogId)
                                  then App.replaced name newRecords now entry else entry)
                  (App.catalogFiles st)) sel
             = option_map (fun file => if bool_decide (file_id file = catalogId)
                                       then App.replaced name newRecords now file else file)
                 (activeCatalog (App.catalogFiles st) sel)).
  { intros [sel|]; [|reflexivity]. cbn. apply find_map.
    intros x. destruct (bool_decide (file_id x = catalogId)); reflexivity. }
  split; [reflexivity|]. split; [|split].
  - rewrite map_map. apply map_ext. intros x.
    destruct (bool_decide (file_id x = catalogId)); reflexivity.
  - apply Hcur.
  - intros file Hfile Hid. rewrite Hcur, Hfile. cbn.
    rewrite (bool_decide_eq_true_2 _ Hid).
    eexists. split; [reflexivity|]. split; [exact Hid|reflexivity].
Qed.

Lemma replace_updates_in_place_witness :
  exists file',
    App.current (App.catalogReplace "c1" "new.csv" [Scenario.first5] 1 Samples.twoCatalogs)
    = Some file'
    /\ file_id file' = "c1" /\ records file' = [Scenario.first5].
Proof.
  apply (proj2 (proj2 (proj2 (replace_updates_in_place "c1" "new.csv" [Scenario.first5] 1
                                Samples.twoCatalogs))) Scenario.catalog1);
    reflexivity.
Defined.

(** **** X16 *)

(** X16. Uploaded catalogs are put in front of the list. When the handler
    saw no selection, the first uploaded catalog becomes the active one;
    when it saw one, the selection is left as it is, and the active catalog
    is unchanged provided no uploaded catalog takes its identifier. An upload
    of no file changes nothing. *)
Theorem upload_selects_first (seen : option string) (uploads : list CatalogFile)
    (st : App.State) :
  let st' := App.catalogUpload seen uploads st in
  (uploads = [] -> st' = st)
  /\ (uploads ≠ [] -> App.catalogFiles st' = (uploads ++ App.catalogFiles st)%list)
  /\ (forall first rest, uploads = first :: rest -> App.noSelection seen = true ->
        App.current st' = Some first)
  /\ (uploads ≠ [] -> App.noSelection seen = false ->
        App.activeCatalogId st' = App.activeCatalogId st
        /\ ((forall fileId, App.activeCatalogId st = Some fileId ->
               ~ App.listed fileId uploads) ->
            App.current st' = App.current st)).
Proof.
  cbv zeta. split; [intros ->; reflexivity|]. split; [|split].
  - destruct uploads; [contradiction|reflexivity].
  - intros first rest -> Hno. unfold App.current. cbn. rewrite Hno. cbn.
    rewrite bool_decide_eq_true_2 by reflexivity. reflexivity.
  - intros Hne Hno. destruct uploads as [|first rest]; [contradiction|].
    unfold App.current. cbn [App.catalogUpload App.catalogFiles App.activeCatalogId].
    rewrite Hno. split; [reflexivity|].
    intros Hfresh. destruct (App.activeCatalogId st) as [sel|]; [|reflexivity].
    cbn [activeCatalog]. rewrite find_app.
    destruct (List.find _ (first :: rest)) as [x|] eqn:F; [|reflexivity].
    exfalso. apply (Hfresh sel eq_refl).
    apply find_some in F as [Hin Hid]. apply bool_decide_eq_true in Hid.
    exists x. split; [apply list_elem_of_In, Hin|exact Hid].
Qed.

Lemma upload_selects_first_witness :
  App.current (App.catalogUpload None [Scenario.emptyCatalog; Scenario.catalog1] App.initial)
  = Some Scenario.emptyCatalog
  /\ App.current (App.catalogUpload (Some "c1") [Scenario.emptyCatalog]
                    (App.catalogUpload None [Scenario.catalog1] App.initial))
     = App.current (App.catalogUpload None [Scenario.catalog1] App.initial).
Proof.
  split.
  - apply (proj1 (proj2 (proj2 (upload_selects_first None
                                  [Scenario.emptyCatalog; Scenario.catalog1] App.initial)))
             Scenario.emptyCatalog [Scenario.catalog1]); reflexivity.
  - apply (proj2 (proj2 (proj2 (upload_selects_first (Some "c1") [Scenario.emptyCatalog]
                                  (App.catalogUpload None [Scenario.catalog1]
                                     App.initial))))).
    + discriminate.
    + reflexivity.
    + intros fileId Hsel (file & Hin & Hid).
      apply list_elem_of_singleton in Hin. rewrite Hin in Hid.
      injection Hsel as <-. discriminate Hid.
Defined.

(** ** Reading the uploaded files *)

Section Files.

Lemma containsDot_append (a b : string) :
  containsDot (a ++ b) = containsDot a || containsDot b.
Proof.
  induction a as [|c a IH]; [reflexivity|].
  rewrite append_cons. cbn [containsDot]. rewrite IH, orb_assoc. reflexivity.
Qed.

Lemma lastSegment_no_dot (name : string) : containsDot name = false -> lastSegment name = name.
Proof.
  destruct name as [|c rest]; [reflexivity|].
  cbn. intros H. apply orb_false_iff in H as [Hc Hr]. rewrite Hr, Hc. reflexivity.
Qed.

Lemma lastSegment_append (stem extension : string) :
  containsDot extension = false ->
  lastSegment (stem ++ String "." extension) = extension.
Proof.
  intros H. induction stem as [|c stem IH].
  - rewrite append_nil_l. cbn. rewrite H. reflexivity.
  - rewrite append_cons. cbn [lastSegment].
    rewrite containsDot_append. cbn [containsDot].
    rewrite bool_decide_eq_true_2 by reflexivity.
    rewrite orb_true_r. exact IH.
Qed.

Lemma lastSegment_has_no_dot (name : string) : containsDot (lastSegment name) = false.
Proof.
  induction name as [|c rest IH]; [reflexivity|].
  cbn. destruct (containsDot rest) eqn:D; [exact IH|].
  destruct (bool_decide (c = "."%char)) eqn:C; [exact D|].
  cbn. rewrite C, D. reflexivity.
Qed.

Lemma upper_char_dot (c : ascii) :
  bool_decide (upper_char c = "."%char) = bool_decide (c = "."%char).
Proof. destruct c as [[] [] [] [] [] [] [] []]; reflexivity. Qed.

Lemma containsDot_toUpperCase (name : string) :
  containsDot (toUpperCase name) = containsDot name.
Proof.
  induction name as [|c rest IH]; [reflexivity|].
  cbn. rewrite upper_char_dot. f_equal. exact IH.
Qed.

Lemma lastSegment_toUpperCase (name : string) :
  lastSegment (toUpperCase name) = toUpperCase (lastSegment name).
Proof.
  induction name as [|c rest IH]; [reflexivity|].
  cbn. fold (toUpperCase rest). rewrite containsDot_toUpperCase, upper_char_dot.
  destruct (containsDot rest); [exact IH|].
  destruct (bool_decide (c = "."%char)); reflexivity.
Qed.

Lemma lastSegment_isAscii (name : string) :
  isAscii name = true -> isAscii (lastSegment name) = true.
Proof.
  induction name as [|c rest IH]; [reflexivity|].
  intros H. pose proof H as Hall. cbn in H. apply andb_true_iff in H as [_ H].
  cbn [lastSegment]. destruct (containsDot rest); [exact (IH H)|].
  destruct (bool_decide (c = "."%char)); [exact H|exact Hall].
Qed.

Lemma combineFiles_spec (files : list UploadedFile) (combinedRecords : list RecordObj) :
  match combineFiles files combinedRecords with
  | Some result =>
      exists rows, map upload_rows files = map Some rows
        /\ Forall (fun file => fileKind (upload_name file) <> None) files
        /\ result = (combinedRecords ++ concat (map sanitizeRecords rows))%list
  | None =>
      Exists (fun file => fileKind (upload_name file) = None \/ upload_rows file = None) files
  end.
Proof.
  revert combinedRecords. induction files as [|file rest IH]; intros combinedRecords.
  - cbn. exists []. split; [reflexivity|]. split; [constructor|].
    cbn. rewrite app_nil_r. reflexivity.
  - cbn [combineFiles]. unfold parseFile.
    destruct (fileKind (upload_name file)) as [kind|] eqn:K;
      [|apply Exists_cons_hd; left; exact K].
    destruct (upload_rows file) as [rows0|] eqn:R;
      [|apply Exists_cons_hd; right; exact R].
    cbn [option_map].
    specialize (IH (combinedRecords ++ sanitizeRecords rows0)%list).
    destruct (combineFiles rest _) as [result|].
    + destruct IH as (rows & Hrows & Hkinds & ->). exists (rows0 :: rows).
      split; [cbn; rewrite R, Hrows; reflexivity|].
      split; [constructor; [congruence|exact Hkinds]|].
      cbn. rewrite app_assoc. reflexivity.
    + apply Exists_cons_tl, IH.
Qed.

End Files.

(** **** X17 *)

(** X17. The format of an uploaded file is decided by what follows the last
    dot of its name: a name made of a stem, a dot and a dot-free extension is
    read as the extension alone would be, and a name without dot is its own
    extension. For a name made of ASCII characters the decision does not
    depend on the letter case: upper-casing the name does not change it. *)
Theorem fileKind_by_last_segment (name : string) :
  (forall stem extension, containsDot extension = false ->
     fileKind (stem ++ String "." extension) = fileKind extension)
  /\ containsDot (lastSegment name) = false
  /\ fileKind (lastSegment name) = fileKind name
  /\ (isAscii name = true -> fileKind (toUpperCase name) = fileKind name).
Proof.
  split; [|split; [|split]].
  - intros stem extension H. unfold fileKind.
    rewrite (lastSegment_append stem extension H), (lastSegment_no_dot extension H).
    reflexivity.
  - apply lastSegment_has_no_dot.
  - unfold fileKind.
    rewrite (lastSegment_no_dot _ (lastSegment_has_no_dot name)). reflexivity.
  - intros H. unfold fileKind.
    rewrite lastSegment_toUpperCase,
      (toLowerCase_toUpperCase _ (lastSegment_isAscii name H)).
    reflexivity.
Qed.

Lemma fileKind_by_last_segment_witness :
  fileKind ("request.2024" ++ String "." "CSV") = fileKind "CSV"
  /\ fileKind (toUpperCase "request.2024.csv") = fileKind "request.2024.csv".
Proof.
  split.
  - apply (proj1 (fileKind_by_last_segment "request.2024.CSV") "request.2024" "CSV").
    reflexivity.
  - apply (proj2 (proj2 (proj2 (fileKind_by_last_segment "request.2024.csv")))).
    reflexivity.
Defined.

(** **** X18 *)

(** X18. A client upload is all or nothing. When every file has a supported
    format and is read, the client records become the sanitized rows of the
    files, in the order of the files, and the earlier records are dropped;
    when no file is given, or one file has an unsupported format or cannot be
    read, the client records stay as they were. Starting from well-formed
    records, the records after the handler are well formed. *)
Theorem handleClientUpload_all_or_nothing (files : list UploadedFile)
    (clientRecords : list RecordObj) :
  (forall rows, files <> [] -> map upload_rows files = map Some rows ->
     Forall (fun file => fileKind (upload_name file) <> None) files ->
     handleClientUpload files clientRecords = concat (map sanitizeRecords rows))
  /\ (files = []
      \/ Exists (fun file => fileKind (upload_name file) = None \/ upload_rows file = None)
           files ->
      handleClientUpload files clientRecords = clientRecords)
  /\ (Forall wellFormed clientRecords ->
      Forall wellFormed (handleClientUpload files clientRecords)).
Proof.
  pose proof (combineFiles_spec files []) as Hspec.
  split; [|split].
  - intros rows Hne Hrows Hkinds. unfold handleClientUpload.
    destruct files as [|file rest]; [contradiction|].
    destruct (combineFiles (file :: rest) []) as [result|].
    + destruct Hspec as (rows' & Hrows' & _ & ->). cbn [app].
      rewrite Hrows in Hrows'.
      assert (rows = rows') as ->; [|reflexivity].
      clear -Hrows'. revert rows' Hrows'.
      induction rows as [|r rows IH]; intros [|r' rows'] H; try discriminate H;
        [reflexivity|].
      cbn in H. injection H as -> H. f_equal. apply IH, H.
    + exfalso. apply Exists_exists in Hspec as (f & Hin & [Hf|Hf]).
      * rewrite Forall_forall in Hkinds. exact (Hkinds f Hin Hf).
      * assert (Hin' : upload_rows f ∈ map Some rows).
        { rewrite <- Hrows. apply list_elem_of_In, in_map, list_elem_of_In, Hin. }
        rewrite Hf in Hin'. apply list_elem_of_In, in_map_iff in Hin' as (x & Hx & _).
        discriminate Hx.
  - intros [->|Hex]; [reflexivity|]. unfold handleClientUpload.
    destruct files as [|file rest]; [reflexivity|].
    destruct (combineFiles (file :: rest) []) as [result|]; [|reflexivity].
    exfalso. destruct Hspec as (rows & Hrows & Hkinds & _).
    apply Exists_exists in Hex as (f & Hin & [Hf|Hf]).
    + rewrite Forall_forall in Hkinds. exact (Hkinds f Hin Hf).
    + assert (Hin' : upload_rows f ∈ map Some rows).
      { rewrite <- Hrows. apply list_elem_of_In, in_map, list_elem_of_In, Hin. }
      rewrite Hf in Hin'. apply list_elem_of_In, in_map_iff in Hin' as (x & Hx & _).
      discriminate Hx.
  - intros Hwf. unfold handleClientUpload.
    destruct files as [|file rest]; [exact Hwf|].
    destruct (combineFiles (file :: rest) []) as [result|]; [|exact Hwf].
    destruct Hspec as (rows & _ & _ & ->). cbn [app].
    apply Forall_forall. intros r Hr.
    apply list_elem_of_In, in_concat in Hr as (l & Hl & Hr).
    apply in_map_iff in Hl as (raw & <- & _).
    pose proof (sanitizeRecords_all_wellFormed raw) as Hall.
    rewrite Forall_forall in Hall. apply Hall, list_elem_of_In, Hr.
Qed.

Lemma handleClientUpload_all_or_nothing_witness :
  handleClientUpload [Samples.requestFile] Scenario.mixed
  = concat (map sanitizeRecords [Samples.rawRows])
  /\ handleClientUpload [Samples.requestFile; Samples.notesFile] Scenario.mixed
     = Scenario.mixed.
Proof.
  split.
  - apply (proj1 (handleClientUpload_all_or_nothing [Samples.requestFile] Scenario.mixed)).
    + discriminate.
    + reflexivity.
    + constructor; [|constructor]. intros H. vm_compute in H. discriminate H.
  - apply (proj1 (proj2 (handleClientUpload_all_or_nothing
                           [Samples.requestFile; Samples.notesFile] Scenario.mixed))).
    right. apply Exists_cons_tl, Exists_cons_hd. left. reflexivity.
Defined.

(** ** The steps of the agent *)

(** **** X19 *)

(** X19. Editing a step of the agent keeps the number of steps. The step at
    the index has the value in the edited field and keeps its other field;
    every other step is untouched, and an index beyond the list changes
    nothing. *)
Theorem handleAgentStepEdit_touches_one_field (index : nat) (field : StepField)
    (value : string) (prev : list AgentStep) :
  length (handleAgentStepEdit index field value prev) = length prev
  /\ (forall step, prev !! index = Some step ->
        exists step', handleAgentStepEdit index field value prev !! index = Some step'
          /\ readField field step' = value
          /\ forall other, other <> field -> readField other step' = readField other step)
  /\ (forall idx, idx <> index ->
        handleAgentStepEdit index field value prev !! idx = prev !! idx)
  /\ (length prev <= index -> handleAgentStepEdit index field value prev = prev).
Proof.
  unfold handleAgentStepEdit.
  assert (Hlookup : forall idx,
             imap (fun idx step => if (idx =? index)%nat
                                   then withField field value step else step) prev !! idx
             = (fun step => if (idx =? index)%nat then withField field value step else step)
                 <$> prev !! idx).
  { intros idx. apply list_lookup_imap. }
  split; [apply length_imap|]. split; [|split].
  - intros step Hstep. rewrite Hlookup, Hstep. cbn. rewrite Nat.eqb_refl.
    eexists. split; [reflexivity|].
    split; [destruct field; reflexivity|].
    intros other Hother. destruct field, other; try reflexivity; contradiction.
  - intros idx Hidx. rewrite Hlookup.
    replace (idx =? index)%nat with false by (symmetry; apply Nat.eqb_neq; exact Hidx).
    destruct (prev !! idx); reflexivity.
  - intros Hlen. apply list_eq. intros idx. rewrite Hlookup.
    destruct (prev !! idx) as [step|] eqn:E; [|reflexivity].
    apply lookup_lt_Some in E. cbn.
    replace (idx =? index)%nat with false by (symmetry; apply Nat.eqb_neq; lia).
    reflexivity.
Qed.

Lemma handleAgentStepEdit_touches_one_field_witness :
  exists step',
    handleAgentStepEdit 1 Title "Check the catalog" defaultAgentSteps !! 1 = Some step'
    /\ readField Title step' = "Check the catalog"
    /\ forall other, other <> Title ->
         readField other step'
         = readField other
             {| title := "Cross-check catalog";
                description := "Compare each requested connector with the active catalog. Flag legacy or end-of-life parts and highlight viable alternates." |}.
Proof.
  apply (proj1 (proj2 (handleAgentStepEdit_touches_one_field 1 Title "Check the catalog"
                         defaultAgentSteps))).
  reflexivity.
Defined.

(** ** Full and empty coverage *)

Section ExactQuotient.

Local Open Scope Z_scope.

(** A number divided by itself is the binary64 number 1. *)
Lemma SFdiv_same (m : positive) (e : Z) :
  normal m -> -52 <= e <= 0 ->
  SFdiv 53 1024 (S754_finite false m e) (S754_finite false m e)
  = S754_finite false 4503599627370496 (-52).
Proof.
  intros Hm He.
  cbn [SFdiv xorb]. unfold SFdiv_core_binary.
  rewrite (normal_digits m Hm).
  rewrite fexp_normal by lia.
  replace (Z.min (53 + e - (53 + e) - 53) (e - e)) with (-53) by lia.
  replace (e - e - -53) with 53 by lia.
  cbv iota beta. rewrite Z.shiftl_mul_pow2 by lia.
  rewrite div_eucl_pair.
  rewrite (Z.mul_comm (Zpos m) (2 ^ 53)).
  rewrite Z.div_mul by lia. rewrite Z.mod_mul by lia.
  rewrite new_location_zero. vm_compute. reflexivity.
Qed.

Lemma percentOf_all (n : nat) :
  (0 < n)%nat -> Z.of_nat n < 2 ^ 53 -> percentOf n n = Some 100.
Proof.
  intros Hn H53. unfold percentOf, mul, div, of_nat at 1 2, prec, emax.
  destruct (binary_normalize_exact (Z.of_nat n)) as (m & e & E & Nm & He & _); [lia|].
  rewrite E, (SFdiv_same m e Nm He). vm_compute. reflexivity.
Qed.

Lemma percentOf_none (n : nat) :
  (0 < n)%nat -> Z.of_nat n < 2 ^ 53 -> percentOf 0 n = Some 0.
Proof.
  intros Hn H53. unfold percentOf, mul, div, of_nat at 2, prec, emax.
  destruct (binary_normalize_exact (Z.of_nat n)) as (m & e & E & _); [lia|].
  rewrite E. reflexivity.
Qed.

End ExactQuotient.

Section TallySum.

Variable fields : list string.
Variable label : string.

Lemma set_sum (m : list (string * nat)) (k : string) :
  sum_list_with snd (JsMap.set m k (default 0 (JsMap.get m k) + 1))
  = sum_list_with snd m + 1.
Proof.
  induction m as [|[k' v'] m IH]; [reflexivity|].
  cbn [JsMap.set JsMap.get].
  destruct (bool_decide (k' = k)).
  - cbn. lia.
  - cbn [sum_list_with]. rewrite <- Nat.add_assoc, <- IH. clear IH.
    generalize (default 0 (JsMap.get m k) + 1). intros c.
    induction m as [|[k2 v2] m IH]; cbn [JsMap.set].
    + cbn. lia.
    + destruct (bool_decide (k2 = k)); cbn [sum_list_with]; cbn [snd]; [reflexivity|].
      cbn [snd] in IH. reflexivity.
Qed.

Lemma tally_sum (items : list FoundItem) :
  sum_list_with snd (tally fields label items) = length items.
Proof.
  induction items as [|item items IH] using rev_ind; [reflexivity|].
  rewrite tally_snoc. unfold tallyStep. rewrite set_sum, IH, length_app. reflexivity.
Qed.

Lemma tally_single (name0 : string) (items : list FoundItem) :
  items <> [] ->
  (forall item, item ∈ items -> labelOf fields label item = name0) ->
  tally fields label items = [(name0, length items)].
Proof.
  induction items as [|item items IH] using rev_ind; [contradiction|].
  intros _ Hall. rewrite tally_snoc. unfold tallyStep.
  rewrite (Hall item) by (apply elem_of_app; right; left).
  rewrite length_app. cbn [length].
  destruct items as [|item0 items0]; [reflexivity|].
  rewrite IH; [|discriminate|intros x Hx; apply Hall, elem_of_app; left; exact Hx].
  cbn [JsMap.set JsMap.get]. rewrite !bool_decide_eq_true_2 by reflexivity.
  reflexivity.
Qed.

Lemma sum_entries (total : nat) (l : list (string * nat)) :
  sum_list_with count
    (map (fun e : string * nat =>
            {| name := e.1; count := e.2; percentage := percentOf e.2 total |}) l)
  = sum_list_with snd l.
Proof. induction l as [|e l IH]; [reflexivity|]. cbn. rewrite IH. reflexivity. Qed.

End TallySum.

(** **** X20 *)

(** X20. With an active catalog, the coverage is exactly 100 when no client
    record is missing (and there is at least one), and exactly 0 when none is
    found; the rounding of the binary64 quotient does not disturb the two
    ends of the scale. *)
Theorem coverage_full_and_empty (file : CatalogFile) (clientRecords : list RecordObj) :
  clientRecords <> [] ->
  (Z.of_nat (length clientRecords) < 2 ^ 53)%Z ->
  let result := matchResult (Some file) clientRecords in
  (missing result = [] -> Stats.coverage (matchStats clientRecords result) = Some 100%Z)
  /\ (found result = [] -> Stats.coverage (matchStats clientRecords result) = Some 0%Z).
Proof.
  intros Hne H53. cbv zeta. unfold matchStats. cbn [Stats.coverage].
  assert (Hlen : (0 < length clientRecords)%nat)
    by (destruct clientRecords; [contradiction|cbn; lia]).
  replace (length clientRecords =? 0)%nat with false
    by (symmetry; apply Nat.eqb_neq; lia).
  pose proof (parts_total (buildIndex (records file)) clientRecords) as Htotal.
  rewrite matchResult_active. cbn [found missing].
  split; intros H; rewrite H in Htotal; cbn [length] in Htotal.
  - replace (length (flat_map (foundPart (buildIndex (records file))) clientRecords))
      with (length clientRecords) by lia.
    apply percentOf_all; assumption.
  - rewrite H. apply percentOf_none; assumption.
Qed.

Lemma coverage_full_and_empty_witness :
  Stats.coverage (matchStats Scenario.client1
                    (matchResult (Some Scenario.catalog1) Scenario.client1))
  = Some 100%Z
  /\ Stats.coverage (matchStats Scenario.client2
                       (matchResult (Some Scenario.catalog1) Scenario.client2))
     = Some 0%Z.
Proof.
  split.
  - apply (proj1 (coverage_full_and_empty Scenario.catalog1 Scenario.client1
                    ltac:(discriminate) ltac:(reflexivity))).
    reflexivity.
  - apply (proj2 (coverage_full_and_empty Scenario.catalog1 Scenario.client2
                    ltac:(discriminate) ltac:(reflexivity))).
    reflexivity.
Defined.

(** **** X21 *)

(** X21. The counts of a top-3 distribution never add up to more than the
    number of found pairs, and add up to exactly that number when the found
    pairs have at most three distinct values. When all found pairs resolve to
    one value, the distribution is the single entry of that value with every
    found pair counted and a percentage of exactly 100. *)
Theorem topDistribution_counts_total (fields : list string) (label : string)
    (foundItems : list FoundItem) :
  let top := topDistribution fields label foundItems in
  sum_list_with count top <= length foundItems
  /\ (length (remove_dups (labelsOf fields label foundItems)) <= 3 ->
      sum_list_with count top = length foundItems)
  /\ (forall name0, foundItems <> [] ->
        (Z.of_nat (length foundItems) < 2 ^ 53)%Z ->
        (forall item, item ∈ foundItems -> labelOf fields label item = name0) ->
        top = [{| name := name0; count := length foundItems;
                  percentage := Some 100%Z |}]).
Proof.
  cbv zeta. destruct foundItems as [|item0 items0].
  { cbn. split; [lia|]. split; [reflexivity|]. intros name0 H. contradiction. }
  set (items := item0 :: items0).
  set (sorted := sortBy byCount (tally fields label items)).
  assert (Etop : topDistribution fields label items
                 = map (fun e : string * nat =>
                          {| name := e.1; count := e.2;
                             percentage := percentOf e.2 (length items) |})
                     (take 3 sorted)) by reflexivity.
  assert (Hperm : sorted ≡ₚ tally fields label items) by apply sortBy_perm.
  assert (Hsum : sum_list_with snd sorted = length items).
  { rewrite Hperm. apply tally_sum. }
  split; [|split].
  - rewrite Etop, sum_entries, <- Hsum.
    rewrite <- (take_drop 3 sorted) at 2. rewrite sum_list_with_app. lia.
  - intros Hdistinct. rewrite Etop, sum_entries, <- Hsum.
    rewrite take_ge; [reflexivity|].
    rewrite (Permutation_length Hperm), tally_length. exact Hdistinct.
  - intros name0 _ H53 Hall. rewrite Etop. unfold sorted.
    rewrite (tally_single fields label name0 items); [|discriminate|exact Hall].
    change (take 3 (sortBy byCount [(name0, length items)]))
      with [(name0, length items)].
    cbn [map fst snd].
    rewrite percentOf_all; [reflexivity|cbn; lia|exact H53].
Qed.

Lemma topDistribution_counts_total_witness :
  sum_list_with count (topManufacturers Scenario.foundSample) = length Scenario.foundSample
  /\ topFamilies Scenario.foundSample
     = [{| name := "General catalog"; count := length Scenario.foundSample;
           percentage := Some 100%Z |}].
Proof.
  split.
  - apply (proj1 (proj2 (topDistribution_counts_total MANUFACTURER_FIELDS
                           "Unspecified manufacturer" Scenario.foundSample))).
    vm_compute. lia.
  - apply (proj2 (proj2 (topDistribution_counts_total FAMILY_FIELDS "General catalog"
                           Scenario.foundSample))).
    + discriminate.
    + reflexivity.
    + intros item Hitem.
      repeat (apply elem_of_cons in Hitem as [->|Hitem]; [reflexivity|]).
      inversion Hitem.
Defined.
